(** * h265ize: the optimized encoder's job scheduler and the metadata cache

    A shallow embedding of two pieces of the repository:

    - [OptimizedEncoder] (the scheduler class: pending queue, in-flight set,
      finished and failed lists, run flags, adaptive concurrency limit and
      processing metrics);
    - [MetadataCache] of [lib/optimizations/modern-helpers.js] (a JS [Map]
      used as a bounded cache in insertion order).

    JavaScript runs every stretch of code between two [await]s atomically on
    the event loop.  Each such stretch of the class is one function on the
    state below; an [Op] names one stretch together with what the environment
    supplies to it (clock readings, the result of [fs.access], what the
    external [Video] resolved or rejected with, which of its methods are
    there to call, heap samples).  The methods of the class are called
    between two stretches; a listener of an event the class emits runs
    inside a stretch, and what it can read is the state at the [emit]. *)

From Stdlib Require Import List String ZArith QArith Bool Lia DecimalString.
Import ListNotations.

Close Scope Q_scope.
Local Open Scope Z_scope.

(* [length] is the length of a list throughout; a string's is [String.length]. *)
Local Abbreviation length := Datatypes.length.

(** ** JavaScript values the scheduler computes with *)

(** A JS number produced by a division: a finite quotient, or one of the
    three non-finite results of dividing by zero or by [undefined]. *)
Inductive jsnum : Type :=
| Fin (q : Q)
| NaN
| PosInf
| NegInf.

(** [a / b] on two integers held as JS numbers. *)
Definition js_div (a b : Z) : jsnum :=
  if b =? 0 then
    if a =? 0 then NaN else if 0 <? a then PosInf else NegInf
  else Fin (inject_Z a / inject_Z b)%Q.

(** [a / b] where either side may be [undefined]. *)
Definition js_div_opt (a b : option Z) : jsnum :=
  match a, b with
  | Some x, Some y => js_div x y
  | _, _ => NaN
  end.

(** [x || 0] on a number that may be [undefined]. *)
Definition or0 (x : option Z) : Z :=
  match x with
  | Some z => z
  | None => 0
  end.

(** [x || d] on an optional number: [undefined] and [0] are both falsy. *)
Definition or_default (x : option Z) (d : Z) : Z :=
  match x with
  | Some z => if z =? 0 then d else z
  | None => d
  end.

(** ** Data model *)

(** A [Video] object.  [vid] stands for the object's identity (JS compares
    the members of a [Set] by reference); [vpath] is [video.path]. *)
Record Video : Type := mkVideo {
  vid : nat;
  vpath : string
}.

(** The summary object pushed on [finishedVideos].  [fin_job] is not a
    field of the JS object: it records which [Video] the summary was built
    from, so that the ownership of a job can be stated. *)
Record FinishedEntry : Type := mkFinished {
  fin_job : nat;
  fin_path : string;
  fin_processingTime : Z;
  fin_inputSize : option Z;
  fin_outputSize : option Z;
  fin_compressionRatio : jsnum
}.

(** The object pushed on [failedVideos] by [handleVideoError].  [fail_job],
    likewise not a field of the JS object, records which [Video] failed. *)
Record FailedEntry : Type := mkFailed {
  fail_job : nat;
  fail_path : string;
  fail_base : string;
  fail_error : string;
  fail_timestamp : string;
  fail_stage : string
}.

(** [this.metrics]. *)
Record Metrics : Type := mkMetrics {
  startTime : option Z;
  totalFilesProcessed : Z;
  totalBytesProcessed : Z;
  averageProcessingTime : Q;
  memoryPeak : Z;
  memoryCurrent : Z
}.

(** The fields of an [OptimizedEncoder] instance that the scheduler reads or
    writes.  [performanceInterval] is whether the monitor's timer is armed.
    The logger, [watchIgnore], the metadata-cache switch and the hardware
    acceleration tags are carried along by the class but never written by
    the stretches below; what is logged and emitted is kept in the world's
    [log]. *)
Record Encoder : Type := mkEncoder {
  queue : list Video;
  currentlyProcessing : list Video;
  failedVideos : list FailedEntry;
  finishedVideos : list FinishedEntry;
  maxConcurrentJobs : Z;
  enableProgressReporting : bool;
  memoryThreshold : Z;
  running : bool;
  paused : bool;
  shuttingDown : bool;
  metrics : Metrics;
  performanceInterval : bool
}.

Definition set_queue (q : list Video) (e : Encoder) : Encoder :=
  mkEncoder q (currentlyProcessing e) (failedVideos e) (finishedVideos e)
    (maxConcurrentJobs e) (enableProgressReporting e) (memoryThreshold e)
    (running e) (paused e) (shuttingDown e) (metrics e) (performanceInterval e).

Definition set_currentlyProcessing (c : list Video) (e : Encoder) : Encoder :=
  mkEncoder (queue e) c (failedVideos e) (finishedVideos e)
    (maxConcurrentJobs e) (enableProgressReporting e) (memoryThreshold e)
    (running e) (paused e) (shuttingDown e) (metrics e) (performanceInterval e).

Definition set_failedVideos (f : list FailedEntry) (e : Encoder) : Encoder :=
  mkEncoder (queue e) (currentlyProcessing e) f (finishedVideos e)
    (maxConcurrentJobs e) (enableProgressReporting e) (memoryThreshold e)
    (running e) (paused e) (shuttingDown e) (metrics e) (performanceInterval e).

Definition set_finishedVideos (f : list FinishedEntry) (e : Encoder) : Encoder :=
  mkEncoder (queue e) (currentlyProcessing e) (failedVideos e) f
    (maxConcurrentJobs e) (enableProgressReporting e) (memoryThreshold e)
    (running e) (paused e) (shuttingDown e) (metrics e) (performanceInterval e).

Definition set_maxConcurrentJobs (m : Z) (e : Encoder) : Encoder :=
  mkEncoder (queue e) (currentlyProcessing e) (failedVideos e) (finishedVideos e)
    m (enableProgressReporting e) (memoryThreshold e)
    (running e) (paused e) (shuttingDown e) (metrics e) (performanceInterval e).

Definition set_running (b : bool) (e : Encoder) : Encoder :=
  mkEncoder (queue e) (currentlyProcessing e) (failedVideos e) (finishedVideos e)
    (maxConcurrentJobs e) (enableProgressReporting e) (memoryThreshold e)
    b (paused e) (shuttingDown e) (metrics e) (performanceInterval e).

Definition set_paused (b : bool) (e : Encoder) : Encoder :=
  mkEncoder (queue e) (currentlyProcessing e) (failedVideos e) (finishedVideos e)
    (maxConcurrentJobs e) (enableProgressReporting e) (memoryThreshold e)
    (running e) b (shuttingDown e) (metrics e) (performanceInterval e).

Definition set_shuttingDown (b : bool) (e : Encoder) : Encoder :=
  mkEncoder (queue e) (currentlyProcessing e) (failedVideos e) (finishedVideos e)
    (maxConcurrentJobs e) (enableProgressReporting e) (memoryThreshold e)
    (running e) (paused e) b (metrics e) (performanceInterval e).

Definition set_metrics (m : Metrics) (e : Encoder) : Encoder :=
  mkEncoder (queue e) (currentlyProcessing e) (failedVideos e) (finishedVideos e)
    (maxConcurrentJobs e) (enableProgressReporting e) (memoryThreshold e)
    (running e) (paused e) (shuttingDown e) m (performanceInterval e).

Definition set_performanceInterval (b : bool) (e : Encoder) : Encoder :=
  mkEncoder (queue e) (currentlyProcessing e) (failedVideos e) (finishedVideos e)
    (maxConcurrentJobs e) (enableProgressReporting e) (memoryThreshold e)
    (running e) (paused e) (shuttingDown e) (metrics e) b.

(** *** The in-flight [Set]

    A JS [Set] keeps its members in insertion order and holds each object
    once; membership is by object identity, here by [vid]. *)

Definition set_has (c : list Video) (j : nat) : bool :=
  existsb (fun v => Nat.eqb (vid v) j) c.

Definition set_add (v : Video) (c : list Video) : list Video :=
  if set_has c (vid v) then c else c ++ [v].

Definition set_delete (j : nat) (c : list Video) : list Video :=
  filter (fun v => negb (Nat.eqb (vid v) j)) c.

Definition set_size (c : list Video) : Z := Z.of_nat (length c).

(** ** What the scheduler logs and emits *)

(** The body of the [Processing Summary] message of [finish]. *)
Record Summary : Type := mkSummary {
  sum_files : nat;
  sum_totalTime : Z;
  sum_averageTime : Q;
  sum_totalInputSize : Z;
  sum_totalOutputSize : Z;
  sum_compressionRatio : jsnum;
  sum_spaceSaved : Z
}.

(** Logger calls and emitted events, in the order the code issues them. *)
Inductive LogEntry : Type :=
| LogAdded (v : Video)                      (* verbose: Added to queue *)
| LogAddFailed (path : string)              (* error: Failed to add video *)
| LogStartingEncoder (jobs : Z)             (* info: Starting encoder with n concurrent jobs *)
| EmitStarted
| LogStarting (v : Video)                   (* info: Starting: <file> *)
| LogCompleted (v : Video) (time : Z)       (* info: Completed: <file> in <time> *)
| LogFailed (v : Video) (msg : string)      (* error: Failed to process <file> *)
| EmitVideoFailed (path msg : string)
| LogUnhandled (v : Video)                  (* error: Unhandled error processing <path> *)
| LogPausing
| EmitPaused
| LogResuming
| EmitResumed
| LogStopping
| EmitStopped
| LogHighMemory (heapUsed : Z)
| LogReduced (jobs : Z)
| LogAllProcessed
| LogSummary (s : Summary)
| LogFailedList (fs : list FailedEntry)
| EmitFinished (processed failed : nat) (totalTime : Z) (m : Metrics).

(** A call of [processVideo] suspended at [await video.process()]: the video
    it was called with and its local [startTime]. *)
Record Activation : Type := mkActivation {
  act_video : Video;
  act_startTime : Z
}.

(** A call of [pause()] or of [resume()] suspended inside its loop over the
    in-flight set, at the [await] of a video's own [pause()] or [resume()]:
    the identities of the members of the set that the iterator of the loop
    has passed. *)
Definition Sweep : Type := list nat.

(** The encoder together with what lives outside its fields: the suspended
    [processVideo] calls, the [stop()] calls suspended at
    [await Promise.allSettled], the suspended [pause()] and [resume()]
    calls, the next object identity and the log. *)
Record World : Type := mkWorld {
  enc : Encoder;
  suspended : list Activation;
  stopsPending : nat;
  pausing : list Sweep;
  resuming : list Sweep;
  nextId : nat;
  log : list LogEntry
}.

Definition with_enc (e : Encoder) (w : World) : World :=
  mkWorld e (suspended w) (stopsPending w) (pausing w) (resuming w) (nextId w) (log w).

Definition with_suspended (a : list Activation) (w : World) : World :=
  mkWorld (enc w) a (stopsPending w) (pausing w) (resuming w) (nextId w) (log w).

Definition with_stopsPending (n : nat) (w : World) : World :=
  mkWorld (enc w) (suspended w) n (pausing w) (resuming w) (nextId w) (log w).

Definition with_pausing (p : list Sweep) (w : World) : World :=
  mkWorld (enc w) (suspended w) (stopsPending w) p (resuming w) (nextId w) (log w).

Definition with_resuming (r : list Sweep) (w : World) : World :=
  mkWorld (enc w) (suspended w) (stopsPending w) (pausing w) r (nextId w) (log w).

Definition with_nextId (n : nat) (w : World) : World :=
  mkWorld (enc w) (suspended w) (stopsPending w) (pausing w) (resuming w) n (log w).

Definition say (l : list LogEntry) (w : World) : World :=
  mkWorld (enc w) (suspended w) (stopsPending w) (pausing w) (resuming w) (nextId w)
    (log w ++ l).

(** What a call did at its first synchronous stretch: returned (or went on
    to an [await], where it may still reject) or threw. *)
Inductive Outcome (A : Type) : Type :=
| Returned (a : A)
| Threw (msg : string).

Arguments Returned {A} a.
Arguments Threw {A} msg.

(** ** The constructor *)

(** The [options] object: a field left out is [None]. *)
Record Options : Type := mkOptions {
  opt_maxConcurrentJobs : option Z;
  opt_enableProgressReporting : option bool;
  opt_memoryThreshold : option Z
}.

(** [x !== false] on an optional boolean. *)
Definition not_false (x : option bool) : bool :=
  match x with
  | Some false => false
  | _ => true
  end.

Definition emptyMetrics : Metrics :=
  mkMetrics None 0 0 (inject_Z 0) 0 0.

(** [new OptimizedEncoder(logger, options)] on a host with [cpus] cores.
    [setupPerformanceMonitoring] arms the interval timer when progress
    reporting is enabled. *)
Definition constructor (cpus : Z) (options : Options) : World :=
  let reporting := not_false (opt_enableProgressReporting options) in
  mkWorld
    (mkEncoder [] [] [] []
       (or_default (opt_maxConcurrentJobs options) (Z.min cpus 4))
       reporting
       (or_default (opt_memoryThreshold options) (1024 * 1024 * 1024))
       false false false
       emptyMetrics
       reporting)
    [] 0%nat [] [] 0%nat [].

(** ** Resource monitor *)

(** [updateMetrics] with the sampled [heapUsed]. *)
Definition updateMetrics (heapUsed : Z) (w : World) : World :=
  let e := enc w in
  let m := metrics e in
  let peak := if memoryPeak m <? heapUsed then heapUsed else memoryPeak m in
  with_enc
    (set_metrics
       (mkMetrics (startTime m) (totalFilesProcessed m) (totalBytesProcessed m)
          (averageProcessingTime m) peak heapUsed) e) w.

(** [checkMemoryUsage] with the sampled [heapUsed]. *)
Definition checkMemoryUsage (heapUsed : Z) (w : World) : World :=
  let e := enc w in
  if memoryThreshold e <? heapUsed then
    let w1 := say [LogHighMemory heapUsed] w in
    if 1 <? maxConcurrentJobs e then
      let m := Z.max 1 (maxConcurrentJobs e - 1) in
      say [LogReduced m] (with_enc (set_maxConcurrentJobs m (enc w1)) w1)
    else w1
  else w.

(** One firing of the interval timer of [setupPerformanceMonitoring]; the
    two calls sample the heap separately.  [cleanup] clears the timer. *)
Definition monitor (heap1 heap2 : Z) (w : World) : World :=
  if performanceInterval (enc w) then
    checkMemoryUsage heap2 (updateMetrics heap1 w)
  else w.

(** A series of firings of the timer, each with its two heap samples. *)
Definition monitor_run (samples : list (Z * Z)) (w : World) : World :=
  fold_left (fun w s => monitor (fst s) (snd s) w) samples w.

Definition cleanup (w : World) : World :=
  if performanceInterval (enc w) then
    with_enc (set_performanceInterval false (enc w)) w
  else w.

(** ** Metrics *)

(** [updateProcessingMetrics(video, processingTime)]; [inputSize] is
    [video.inputSize]. *)
Definition updateProcessingMetrics (inputSize : option Z) (processingTime : Q)
    (m : Metrics) : Metrics :=
  let count := totalFilesProcessed m + 1 in
  let currentAverage := averageProcessingTime m in
  mkMetrics (startTime m) count
    (totalBytesProcessed m + or0 inputSize)
    ((currentAverage * inject_Z (count - 1) + processingTime) / inject_Z count)%Q
    (memoryPeak m) (memoryCurrent m).

(** ** finish *)

Definition totalInputSize (f : list FinishedEntry) : Z :=
  fold_left (fun sum v => sum + or0 (fin_inputSize v)) f 0.

Definition totalOutputSize (f : list FinishedEntry) : Z :=
  fold_left (fun sum v => sum + or0 (fin_outputSize v)) f 0.

(** The summary [finish] logs: built only inside
    [if (this.finishedVideos.length > 0)]. *)
Definition finish_summary (now : Z) (e : Encoder) : option Summary :=
  let totalTime := now - or0 (startTime (metrics e)) in
  if (0 <? length (finishedVideos e))%nat then
    let tin := totalInputSize (finishedVideos e) in
    let tout := totalOutputSize (finishedVideos e) in
    let avgCompressionRatio := js_div tout tin in
    Some (mkSummary (length (finishedVideos e)) totalTime
            (averageProcessingTime (metrics e)) tin tout
            avgCompressionRatio (tin - tout))
  else None.

Definition finish (now : Z) (w : World) : World :=
  let e := enc w in
  let totalTime := now - or0 (startTime (metrics e)) in
  let w1 := say [LogAllProcessed] w in
  let w2 := match finish_summary now e with
            | Some s => say [LogSummary s] w1
            | None => w1
            end in
  let w3 := if (0 <? length (failedVideos e))%nat
            then say [LogFailedList (failedVideos e)] w2
            else w2 in
  let w4 := cleanup (with_enc (set_running false (enc w3)) w3) in
  say [EmitFinished (length (finishedVideos e)) (length (failedVideos e))
         totalTime (metrics (enc w4))] w4.

(** ** Jobs *)

(** [processVideo(video)] up to [await video.process()]: the video joins the
    in-flight set and the call is suspended. *)
Definition processVideo_begin (now : Z) (video : Video) (w : World) : World :=
  let e := enc w in
  let w1 := with_enc (set_currentlyProcessing
                        (set_add video (currentlyProcessing e)) e) w in
  let w2 := say [LogStarting video] w1 in
  with_suspended (suspended w2 ++ [mkActivation video now]) w2.

Definition find_activation (j : nat) (l : list Activation) : option Activation :=
  find (fun a => Nat.eqb (vid (act_video a)) j) l.

Definition remove_activation (j : nat) (l : list Activation) : list Activation :=
  filter (fun a => negb (Nat.eqb (vid (act_video a)) j)) l.

(** The [finally] block of [processVideo]: the video leaves the in-flight
    set (the [setImmediate] it may schedule is a later [OpTick]). *)
Definition processVideo_finally (video : Video) (w : World) : World :=
  let e := enc w in
  let w1 := with_enc (set_currentlyProcessing
                        (set_delete (vid video) (currentlyProcessing e)) e) w in
  with_suspended (remove_activation (vid video) (suspended w1)) w1.

(** [processVideo] resumed after [video.process()] resolved, the video then
    carrying [inputSize] and [outputSize]. *)
Definition processVideo_resolve (j : nat) (now : Z) (inputSize outputSize : option Z)
    (w : World) : World :=
  match find_activation j (suspended w) with
  | None => w
  | Some a =>
      let video := act_video a in
      let processingTime := now - act_startTime a in
      let e := enc w in
      let e1 := set_metrics
                  (updateProcessingMetrics inputSize (inject_Z processingTime) (metrics e)) e in
      let e2 := set_finishedVideos
                  (finishedVideos e1 ++
                   [mkFinished (vid video) (vpath video) processingTime inputSize outputSize
                      (js_div_opt outputSize inputSize)]) e1 in
      processVideo_finally video
        (say [LogCompleted video processingTime] (with_enc e2 w))
  end.

(** What [error.message] reads of a value that has properties, with the
    strings the handler derives outside the encoder:
    [path.basename(video.path)], the ISO timestamp, and
    [video.currentStage?.name]. *)
Record VideoError : Type := mkVideoError {
  err_message : string;
  err_base : string;
  err_timestamp : string;
  err_stage : option string
}.

(** The value [video.process()] rejected with: one whose [message] can be
    read (an [Error]), or [null] or [undefined], of which no property can
    be read. *)
Inductive Rejection : Type :=
| RejectedWith (error : VideoError)
| RejectedNullish.

(** [handleVideoError(video, error)].  Its first statement reads
    [error.message], which throws a [TypeError] on [null] and [undefined]
    before anything is logged or pushed.  The world returned otherwise is
    also the one the listeners of [videoFailed] see: the [emit] is the last
    statement. *)
Definition handleVideoError (video : Video) (error : Rejection) (w : World)
    : Outcome unit * World :=
  match error with
  | RejectedNullish => (Threw "Cannot read properties of null or undefined", w)
  | RejectedWith error =>
      let w1 := say [LogFailed video (err_message error)] w in
      let e := enc w1 in
      let stage := match err_stage error with
                   | Some EmptyString | None => "Unknown"%string
                   | Some s => s
                   end in
      let w2 := with_enc
                  (set_failedVideos
                     (failedVideos e ++
                      [mkFailed (vid video) (vpath video) (err_base error)
                         (err_message error) (err_timestamp error) stage]) e) w1 in
      (Returned tt, say [EmitVideoFailed (vpath video) (err_message error)] w2)
  end.

(** [processVideo] resumed after [video.process()] rejected: the [catch]
    block calls the handler and the [finally] block runs whether or not the
    handler threw.  When it threw, the promise of [processVideo] rejects and
    the [catch] that [processQueue] put on it logs the error, on the
    microtask that follows. *)
Definition processVideo_reject (j : nat) (error : Rejection) (w : World) : World :=
  match find_activation j (suspended w) with
  | None => w
  | Some a =>
      let video := act_video a in
      match handleVideoError video error w with
      | (Returned _, w1) => processVideo_finally video w1
      | (Threw _, w1) => say [LogUnhandled video] (processVideo_finally video w1)
      end
  end.

(** ** The dispatch loop *)

(** [queue.shift()]: the head (or [undefined]) and what is left. *)
Definition shift (q : list Video) : option Video * list Video :=
  match q with
  | [] => (None, [])
  | v :: rest => (Some v, rest)
  end.

(** How one run of the loop of [processQueue] ends: at the timer [await]
    (to resume at the loop head later), after [finish] and [break], because
    the [while] condition is false, or (in the model only) out of fuel. *)
Inductive LoopExit : Type :=
| LoopWaiting
| LoopFinished
| LoopExited
| LoopOutOfFuel.

(** The [while] loop of [processQueue] from its head to the next [await].
    Every pass that does not leave the loop shifts one video off the queue
    and calls [processVideo], which returns at its own first [await]. *)
Fixpoint processQueue_loop (fuel : nat) (now : Z) (w : World) : LoopExit * World :=
  match fuel with
  | O => (LoopOutOfFuel, w)
  | S fuel' =>
      let e := enc w in
      if running e && negb (paused e) && negb (shuttingDown e) then
        if (maxConcurrentJobs e <=? set_size (currentlyProcessing e))
           || (length (queue e) =? 0)%nat then
          if (length (queue e) =? 0)%nat && (set_size (currentlyProcessing e) =? 0) then
            (LoopFinished, finish now w)
          else (LoopWaiting, w)
        else
          match shift (queue e) with
          | (Some video, rest) =>
              processQueue_loop fuel' now
                (processVideo_begin now video (with_enc (set_queue rest e) w))
          | (None, rest) =>
              processQueue_loop fuel' now (with_enc (set_queue rest e) w)
          end
      else (LoopExited, w)
  end.

(** [processQueue()] entered, or resumed after its timer: at most one pass
    per queued video, and one more to leave. *)
Definition processQueue (now : Z) (w : World) : LoopExit * World :=
  processQueue_loop (S (length (queue (enc w)))) now w.

(** ** Lifecycle *)

(** What [fs.access(videoPath, R_OK)] settled with. *)
Inductive AccessResult : Type :=
| AccessOk
| AccessError (msg : string).

(** [addVideo(videoPath, options)], resumed after [fs.access] settled. *)
Definition addVideo (videoPath : string) (access : AccessResult) (w : World)
    : Outcome Video * World :=
  match access with
  | AccessOk =>
      let video := mkVideo (nextId w) videoPath in
      let w1 := with_nextId (S (nextId w)) w in
      let w2 := with_enc (set_queue (queue (enc w1) ++ [video]) (enc w1)) w1 in
      (Returned video, say [LogAdded video] w2)
  | AccessError msg =>
      (Threw msg, say [LogAddFailed videoPath] w)
  end.

Definition set_startTime (t : Z) (m : Metrics) : Metrics :=
  mkMetrics (Some t) (totalFilesProcessed m) (totalBytesProcessed m)
    (averageProcessingTime m) (memoryPeak m) (memoryCurrent m).

(** [start()]: the guard, the flags, and [processQueue] up to its first
    [await]. *)
Definition start (now : Z) (w : World) : Outcome unit * World :=
  let e := enc w in
  if running e then (Threw "Encoder is already running", w)
  else
    let e1 := set_shuttingDown false (set_paused false (set_running true e)) in
    let e2 := set_metrics (set_startTime now (metrics e1)) e1 in
    let w1 := say [LogStartingEncoder (maxConcurrentJobs e2); EmitStarted] (with_enc e2 w) in
    (Returned tt, snd (processQueue now w1)).

(** *** Loops over the in-flight set

    [pause()] and [resume()] walk the in-flight set with [for ... of] and
    [await] in the body of the loop.  The iterator of a JS [Set] is live: it
    takes the members in insertion order, those added while the loop is
    suspended included and those deleted meanwhile left out.  A [Video]
    enters the set once (it is shifted off the queue once), so where the
    iterator stands is kept as the identities of the members it has
    passed. *)

Definition passed_by (passed : Sweep) (video : Video) : bool :=
  existsb (Nat.eqb (vid video)) passed.

(** The loop from where its iterator stands to its next [await].
    [callable video] is [typeof video.pause === 'function'] (or the same of
    [resume]).  The first member not yet passed whose method is a function
    has it called, and the loop is suspended on the result ([Some], with
    what the iterator has then passed); the loop ends when no such member is
    left ([None]). *)
Fixpoint sweep (callable : Video -> bool) (c : list Video) (passed : Sweep)
    : option Sweep :=
  match c with
  | [] => None
  | video :: c' =>
      if passed_by passed video then sweep callable c' passed
      else if callable video then Some (passed ++ [vid video])
      else sweep callable c' (passed ++ [vid video])
  end.

(** How an awaited promise settled. *)
Inductive Settled : Type :=
| Fulfilled
| Rejected.

(** The [k]-th of the suspended calls taken out. *)
Fixpoint drop_nth {A : Type} (k : nat) (l : list A) : list A :=
  match l, k with
  | [], _ => []
  | _ :: l', O => l'
  | a :: l', S k' => a :: drop_nth k' l'
  end.

(** The loop of [pause()] from where its iterator stands: to the next
    [await video.pause()], or to its end and the [emit] after it. *)
Definition pause_loop (has_pause : Video -> bool) (passed : Sweep) (w : World) : World :=
  match sweep has_pause (currentlyProcessing (enc w)) passed with
  | Some passed' => with_pausing (pausing w ++ [passed']) w
  | None => say [EmitPaused] w
  end.

(** [pause()] from the call to its first [await]: the guard, the flag, and
    the loop over the in-flight videos.  With no video to await the call
    ends in the same stretch. *)
Definition pause (has_pause : Video -> bool) (w : World) : Outcome unit * World :=
  let e := enc w in
  if negb (running e) || paused e then
    (Threw "Encoder is not running or already paused", w)
  else
    (Returned tt,
     pause_loop has_pause [] (say [LogPausing] (with_enc (set_paused true e) w))).

(** The [k]-th suspended [pause()] resumed after the [video.pause()] it was
    awaiting settled.  A rejection leaves the loop and rejects [pause()]:
    nothing is emitted and no field is written, [paused] staying as it is
    (a [video.pause()] that throws at the call itself ends [pause()] the
    same way). *)
Definition pause_settled (k : nat) (result : Settled) (has_pause : Video -> bool)
    (w : World) : World :=
  match nth_error (pausing w) k with
  | None => w
  | Some passed =>
      let w1 := with_pausing (drop_nth k (pausing w)) w in
      match result with
      | Fulfilled => pause_loop has_pause passed w1
      | Rejected => w1
      end
  end.

(** The loop of [resume()] from where its iterator stands: to the next
    [await video.resume()], or to its end, the [emit] after it and the call
    of [processQueue], which runs up to its own first [await]. *)
Definition resume_loop (now : Z) (has_resume : Video -> bool) (passed : Sweep)
    (w : World) : World :=
  match sweep has_resume (currentlyProcessing (enc w)) passed with
  | Some passed' => with_resuming (resuming w ++ [passed']) w
  | None => snd (processQueue now (say [EmitResumed] w))
  end.

(** [resume()] from the call to its first [await]: the guard, the flag, and
    the loop over the in-flight videos.  With no video to await the dispatch
    loop runs in the same stretch. *)
Definition resume (now : Z) (has_resume : Video -> bool) (w : World)
    : Outcome unit * World :=
  let e := enc w in
  if negb (paused e) then (Threw "Encoder is not paused", w)
  else
    (Returned tt,
     resume_loop now has_resume [] (say [LogResuming] (with_enc (set_paused false e) w))).

(** The [k]-th suspended [resume()] resumed after the [video.resume()] it
    was awaiting settled.  A rejection rejects [resume()] before it emits or
    calls [processQueue]. *)
Definition resume_settled (k : nat) (result : Settled) (now : Z)
    (has_resume : Video -> bool) (w : World) : World :=
  match nth_error (resuming w) k with
  | None => w
  | Some passed =>
      let w1 := with_resuming (drop_nth k (resuming w)) w in
      match result with
      | Fulfilled => resume_loop now has_resume passed w1
      | Rejected => w1
      end
  end.

(** [stop()] up to [await Promise.allSettled(stopPromises)]. *)
Definition stop_begin (w : World) : World :=
  let e := enc w in
  if negb (running e) then w
  else
    with_stopsPending (S (stopsPending w))
      (say [LogStopping] (with_enc (set_shuttingDown true e) w)).

(** [stop()] resumed after the videos' [stop] promises settled. *)
Definition stop_end (w : World) : World :=
  match stopsPending w with
  | O => w
  | S n =>
      let e := enc w in
      let e1 := set_currentlyProcessing [] (set_paused false (set_running false e)) in
      say [EmitStopped] (cleanup (with_stopsPending n (with_enc e1 w)))
  end.

(** ** Runs *)

(** One atomic stretch of the encoder's code, with what the environment
    supplies to it. *)
Inductive Op : Type :=
| OpAddVideo (path : string) (access : AccessResult)
| OpStart (now : Z)
| OpTick (now : Z)
| OpResolve (job : nat) (now : Z) (inputSize outputSize : option Z)
| OpReject (job : nat) (error : Rejection)
| OpPause (has_pause : Video -> bool)
| OpPauseSettled (call : nat) (result : Settled) (has_pause : Video -> bool)
| OpResume (now : Z) (has_resume : Video -> bool)
| OpResumeSettled (call : nat) (result : Settled) (now : Z) (has_resume : Video -> bool)
| OpStopBegin
| OpStopEnd
| OpMonitor (heap1 heap2 : Z).

Definition exec (op : Op) (w : World) : World :=
  match op with
  | OpAddVideo path access => snd (addVideo path access w)
  | OpStart now => snd (start now w)
  | OpTick now => snd (processQueue now w)
  | OpResolve j now i o => processVideo_resolve j now i o w
  | OpReject j error => processVideo_reject j error w
  | OpPause has_pause => snd (pause has_pause w)
  | OpPauseSettled k result has_pause => pause_settled k result has_pause w
  | OpResume now has_resume => snd (resume now has_resume w)
  | OpResumeSettled k result now has_resume => resume_settled k result now has_resume w
  | OpStopBegin => stop_begin w
  | OpStopEnd => stop_end w
  | OpMonitor h1 h2 => monitor h1 h2 w
  end.

Definition run (ops : list Op) (w : World) : World :=
  fold_left (fun w op => exec op w) ops w.

(** *** Observations on a world *)



(** The videos logged as added to the queue, and as starting, in order. *)
Fixpoint added (l : list LogEntry) : list Video :=
  match l with
  | [] => []
  | LogAdded v :: l' => v :: added l'
  | _ :: l' => added l'
  end.

Fixpoint started (l : list LogEntry) : list Video :=
  match l with
  | [] => []
  | LogStarting v :: l' => v :: started l'
  | _ :: l' => started l'
  end.

(** The run states of the specification, read off the encoder's fields.
    [startTime] is [null] until the first [start()]: an encoder that is not
    running is Idle before it and Finished after it. *)
Inductive RunState : Type :=
| Idle
| Running
| Paused
| ShuttingDown
| Finished.

Definition runState (e : Encoder) : RunState :=
  if running e then
    if shuttingDown e then ShuttingDown
    else if paused e then Paused
    else Running
  else
    match startTime (metrics e) with
    | None => Idle
    | Some _ => Finished
    end.

(** The incremental mean as the specification words it:
    [mean' = mean + (x - mean) / n]. *)
Definition spec_incremental_mean (mean x : Q) (n : Z) : Q :=
  (mean + (x - mean) / inject_Z n)%Q.

(** The metrics after the successes of a run of jobs, each given by its
    [inputSize] and its processing time, in order. *)
Definition metrics_after (jobs : list (option Z * Q)) (m : Metrics) : Metrics :=
  fold_left (fun m job => updateProcessingMetrics (fst job) (snd job) m) jobs m.

Definition Qsum (l : list Q) : Q :=
  fold_right Qplus (inject_Z 0) l.

(** The processing times on the finished list, as JS numbers. *)
Definition finished_times (e : Encoder) : list Q :=
  map (fun f => inject_Z (fin_processingTime f)) (finishedVideos e).

(** ** Invariants of runs *)

(** What was added is what was started followed by what still waits. *)
Definition fifo (w : World) : Prop :=
  added (log w) = started (log w) ++ queue (enc w).

(** How often identity [j] occurs in a list of identities. *)
Definition occ (j : nat) (ids : list nat) : nat := count_occ Nat.eq_dec ids j.

Arguments occ : simpl never.

(** The identities other than [k]. *)
Definition without (k : nat) (ids : list nat) : list nat :=
  filter (fun i => negb (Nat.eqb i k)) ids.

(** The identities held by each collection of a world. *)
Definition queue_ids (w : World) : list nat := map vid (queue (enc w)).
Definition inflight_ids (w : World) : list nat := map vid (currentlyProcessing (enc w)).
Definition suspended_ids (w : World) : list nat :=
  map (fun a => vid (act_video a)) (suspended w).
Definition finished_ids (w : World) : list nat := map fin_job (finishedVideos (enc w)).
Definition failed_ids (w : World) : list nat := map fail_job (failedVideos (enc w)).

(** The ledger of job [j] over the identities queued [q], in flight [p],
    suspended in [processVideo] [s], finished [f] and failed [x], with [n]
    the next identity: a job is queued, suspended, finished or failed at
    most once in all, and not before it is created; it is in flight only
    while suspended; and, when [synced], a created job is in one of the
    four exactly once and is in flight exactly while suspended. *)
Definition ledger_of (synced : bool) (j : nat) (q p s f x : list nat) (n : nat) : Prop :=
  (occ j q + occ j s + occ j f + occ j x <= if (j <? n)%nat then 1 else 0)%nat
  /\ (occ j p <= occ j s)%nat
  /\ (synced = true ->
      occ j p = occ j s
      /\ (occ j q + occ j s + occ j f + occ j x = if (j <? n)%nat then 1 else 0)%nat).

Definition ledger (synced : bool) (j : nat) (w : World) : Prop :=
  ledger_of synced j (queue_ids w) (inflight_ids w) (suspended_ids w)
    (finished_ids w) (failed_ids w) (nextId w).

(** In a world the stored count and average agree with the finished list. *)
Definition mean_kept (w : World) : Prop :=
  let m := metrics (enc w) in
  totalFilesProcessed m = Z.of_nat (length (finishedVideos (enc w)))
  /\ (averageProcessingTime m * inject_Z (totalFilesProcessed m)
      == Qsum (finished_times (enc w)))%Q.

(** ** MetadataCache *)

Module MetadataCache.

(** What the cache reads of an [fs.Stats]: [mtime.getTime()] and [size]. *)
Record Stats : Type := mkStats {
  mtime : Z;
  size : Z
}.

(** An integer JS number in a template literal. *)
Definition number_to_string (z : Z) : string :=
  NilZero.string_of_int (Z.to_int z).

Definition cacheKey (filePath : string) (stats : Stats) : string :=
  (filePath ++ ":" ++ number_to_string (mtime stats) ++ ":"
     ++ number_to_string (size stats))%string.

Section Cache.

Variable V : Type.

(** A JS [Map] from strings: its entries in insertion order. *)
Definition JsMap : Type := list (string * V).

Definition map_has (k : string) (m : JsMap) : bool :=
  existsb (fun e => String.eqb (fst e) k) m.

Definition map_get (k : string) (m : JsMap) : option V :=
  option_map snd (find (fun e => String.eqb (fst e) k) m).

Definition map_delete (k : string) (m : JsMap) : JsMap :=
  filter (fun e => negb (String.eqb (fst e) k)) m.

(** [Map.prototype.set]: a key already present keeps its place and takes
    the new value; a new key goes to the end. *)
Fixpoint map_set (k : string) (v : V) (m : JsMap) : JsMap :=
  match m with
  | [] => [(k, v)]
  | (k', v') :: m' =>
      if String.eqb k' k then (k, v) :: m' else (k', v') :: map_set k v m'
  end.

(** [map.keys().next().value]: the first key, or [undefined]. *)
Definition map_first_key (m : JsMap) : option string :=
  match m with
  | [] => None
  | (k, _) :: _ => Some k
  end.

Record t : Type := mkCache {
  cache : JsMap;
  maxSize : Z
}.

(** [new MetadataCache(maxSize)]; the parameter defaults to 100. *)
Definition constructor (maxSize : option Z) : t :=
  mkCache [] (match maxSize with Some n => n | None => 100 end).

(** [get(filePath)]; [stat] is what [fs.stat] gave, [None] when it threw.
    The result is the cached value, or [None] for [null]. *)
Definition get (filePath : string) (stat : option Stats) (c : t) : option V * t :=
  match stat with
  | None => (None, c)
  | Some stats =>
      let key := cacheKey filePath stats in
      if map_has key (cache c) then
        match map_get key (cache c) with
        | Some value =>
            (Some value,
             mkCache (map_set key value (map_delete key (cache c))) (maxSize c))
        | None => (None, c)
        end
      else (None, c)
  end.

(** [set(filePath, metadata)]; [stat] is what [fs.statSync] gave. *)
Definition set (filePath : string) (metadata : V) (stat : option Stats) (c : t) : t :=
  let c1 :=
    if maxSize c <=? Z.of_nat (length (cache c)) then
      match map_first_key (cache c) with
      | Some firstKey => mkCache (map_delete firstKey (cache c)) (maxSize c)
      | None => c
      end
    else c in
  match stat with
  | Some stats => mkCache (map_set (cacheKey filePath stats) metadata (cache c1)) (maxSize c1)
  | None => c1
  end.

Definition clear (c : t) : t := mkCache [] (maxSize c).

Inductive CacheOp : Type :=
| CGet (filePath : string) (stat : option Stats)
| CSet (filePath : string) (metadata : V) (stat : option Stats)
| CClear.

Definition exec (op : CacheOp) (c : t) : t :=
  match op with
  | CGet filePath stat => snd (get filePath stat c)
  | CSet filePath metadata stat => set filePath metadata stat c
  | CClear => clear c
  end.

Definition run (ops : list CacheOp) (c : t) : t :=
  fold_left (fun c op => exec op c) ops c.

Definition entries (c : t) : nat := length (cache c).

Definition keys (c : t) : list string := map fst (cache c).

(** What the operations keep: the capacity, the bound on the number of
    entries, and the keys being distinct. *)
Definition bounded (c : t) : Prop :=
  Z.of_nat (entries c) <= maxSize c /\ NoDup (keys c).

End Cache.

Arguments map_has {V} k m.
Arguments map_get {V} k m.
Arguments map_delete {V} k m.
Arguments map_set {V} k v m.
Arguments map_first_key {V} m.
Arguments mkCache {V} cache maxSize.
Arguments cache {V} t.
Arguments maxSize {V} t.
Arguments constructor {V} maxSize.
Arguments get {V} filePath stat c.
Arguments set {V} filePath metadata stat c.
Arguments clear {V} c.
Arguments CGet {V} filePath stat.
Arguments CSet {V} filePath metadata stat.
Arguments CClear {V}.
Arguments exec {V} op c.
Arguments run {V} ops c.
Arguments entries {V} c.
Arguments keys {V} c.
Arguments bounded {V} c.

End MetadataCache.

(** * More of the encoder and of the helpers *)

(** ** Status snapshot *)

(** The two fields the hardware probe writes. *)
Record HWAccel : Type := mkHWAccel {
  potentialHWAccelSupport : bool;
  supportedHWAccel : list string
}.

(** The object [getStatus()] returns. *)
Record Status : Type := mkStatus {
  st_running : bool;
  st_paused : bool;
  st_shuttingDown : bool;
  st_queue : nat;
  st_processing : nat;
  st_completed : nat;
  st_failed : nat;
  st_maxConcurrent : Z;
  st_metrics : Metrics;
  st_hwAccelSupport : bool;
  st_supportedHWAccel : list string
}.

(** [getStatus()]; [hw] holds the probe's fields of the instance. *)
Definition getStatus (hw : HWAccel) (e : Encoder) : Status :=
  mkStatus (running e) (paused e) (shuttingDown e)
    (length (queue e)) (length (currentlyProcessing e))
    (length (finishedVideos e)) (length (failedVideos e))
    (maxConcurrentJobs e) (metrics e)
    (potentialHWAccelSupport hw) (supportedHWAccel hw).

(** What of a world the run flags, the timer and the plain log lines leave
    alone. *)
Definition core (w : World) :=
  (queue (enc w), currentlyProcessing (enc w), failedVideos (enc w),
   finishedVideos (enc w), maxConcurrentJobs (enc w), memoryThreshold (enc w),
   metrics (enc w), suspended w, nextId w, added (log w), started (log w)).

(** The videos queued, suspended in [processVideo], finished or failed are
    no more than the videos created, and when [synced] they are all of
    them. *)
Definition accounted (synced : bool) (w : World) : Prop :=
  let held := (length (queue (enc w)) + length (suspended w)
               + length (finishedVideos (enc w)) + length (failedVideos (enc w)))%nat in
  (held <= nextId w)%nat /\ (synced = true -> held = nextId w).

(** All ledgers at once, and the count of videos they imply. *)
Definition audited (synced : bool) (w : World) : Prop :=
  (forall j, ledger synced j w) /\ accounted synced w
  /\ nextId w = length (added (log w)).

(** The stretches that keep every job in a collection: all but the end of
    [stop()] and a rejection of [video.process()] with [null] or
    [undefined]. *)
Definition keeps_jobs (op : Op) : Prop :=
  op <> OpStopEnd /\ forall j, op <> OpReject j RejectedNullish.


(** A world in which no job has ever started and none can. *)
Definition stalled (w : World) : Prop :=
  maxConcurrentJobs (enc w) <= 0
  /\ currentlyProcessing (enc w) = []
  /\ suspended w = []
  /\ finishedVideos (enc w) = []
  /\ failedVideos (enc w) = []
  /\ started (log w) = [].

(** Whether a JS number is a finite one. *)
Definition is_finite (x : jsnum) : bool :=
  match x with
  | Fin _ => true
  | _ => false
  end.

(** Results are of started videos only, and a failure carries a stage. *)
Definition results_sound (w : World) : Prop :=
  Forall (fun a => In (act_video a) (started (log w))) (suspended w)
  /\ Forall (fun f => In (fin_job f) (map vid (started (log w)))
                      /\ fin_compressionRatio f
                         = js_div_opt (fin_outputSize f) (fin_inputSize f))
       (finishedVideos (enc w))
  /\ Forall (fun f => In (fail_job f) (map vid (started (log w)))
                      /\ fail_stage f <> EmptyString)
       (failedVideos (enc w)).

From Stdlib Require DecimalPos DecimalZ Qround.

(** ** Durations *)

(** [a % b] on integers held as JS numbers: the remainder takes the sign
    of [a]. *)
Definition js_rem (a b : Z) : Z := Z.rem a b.

(** An integer JS number in a template literal. *)
Definition number_to_string (z : Z) : string := MetadataCache.number_to_string z.

(** [Math.floor(milliseconds / 1000)]: the argument is any JS number, a
    whole count of milliseconds or an average of such. *)
Definition whole_seconds (milliseconds : Q) : Z :=
  Qround.Qfloor (milliseconds / inject_Z 1000)%Q.

(** [formatDuration(milliseconds)] of the encoder. *)
Definition formatDuration (milliseconds : Q) : string :=
  let seconds := whole_seconds milliseconds in
  let minutes := seconds / 60 in
  let hours := minutes / 60 in
  if 0 <? hours then
    (number_to_string hours ++ "h " ++ number_to_string (js_rem minutes 60) ++ "m "
       ++ number_to_string (js_rem seconds 60) ++ "s")%string
  else if 0 <? minutes then
    (number_to_string minutes ++ "m " ++ number_to_string (js_rem seconds 60) ++ "s")%string
  else
    (number_to_string seconds ++ "s")%string.

(** The helpers of [lib/optimizations/modern-helpers.js]. *)
Module Helpers.

(** The first [n] characters of [pad] repeated, [cur] being what is left of
    the copy at hand. *)
Fixpoint fill (n : nat) (pad cur : string) : string :=
  match n with
  | O => EmptyString
  | S n' =>
      match cur with
      | String c rest => String c (fill n' pad rest)
      | EmptyString =>
          match pad with
          | String c rest => String c (fill n' pad rest)
          | EmptyString => EmptyString
          end
      end
  end.

(** [s.padStart(targetLength, padString)]. *)
Definition padStart (targetLength : nat) (padString : string) (s : string) : string :=
  if (targetLength <=? String.length s)%nat then s
  else (fill (targetLength - String.length s) padString padString ++ s)%string.

(** [formatDuration(milliseconds)] of the helpers. *)
Definition formatDuration (milliseconds : Q) : string :=
  let seconds := whole_seconds milliseconds in
  let minutes := seconds / 60 in
  let hours := minutes / 60 in
  let remainingMinutes := js_rem minutes 60 in
  let remainingSeconds := js_rem seconds 60 in
  if 0 <? hours then
    (number_to_string hours ++ ":"
       ++ padStart 2 "0" (number_to_string remainingMinutes) ++ ":"
       ++ padStart 2 "0" (number_to_string remainingSeconds))%string
  else if 0 <? minutes then
    (number_to_string minutes ++ ":"
       ++ padStart 2 "0" (number_to_string remainingSeconds))%string
  else
    ("0:" ++ padStart 2 "0" (number_to_string remainingSeconds))%string.

(** The decimal digit of a number below ten. *)
Definition digit (n : Z) : Ascii.ascii :=
  Ascii.ascii_of_nat (48 + Z.to_nat n).

(** A number below a hundred in exactly two digits. *)
Definition two_digits (n : Z) : string :=
  String (digit (n / 10)) (String (digit (n mod 10)) EmptyString).

End Helpers.

(** Whether character [c] occurs in [s]. *)
Fixpoint has_char (c : Ascii.ascii) (s : string) : bool :=
  match s with
  | EmptyString => false
  | String a rest => Ascii.eqb a c || has_char c rest
  end.

(** A cache whose keys are distinct and which holds no more than one entry
    beyond a capacity that is not positive. *)
Definition tidy {V : Type} (c : MetadataCache.t V) : Prop :=
  NoDup (MetadataCache.keys c)
  /\ Z.of_nat (MetadataCache.entries c) <= Z.max 1 (MetadataCache.maxSize c).


(** ** The stream processor *)

Module OptimizedStreamProcessor.

(** A chunk of the stream: a [Buffer]. *)
Definition Chunk : Type := list Byte.byte.

(** The counters of an [OptimizedStreamProcessor]. *)
Record t : Type := mkStream {
  chunkCount : nat;
  totalSize : nat
}.

(** The object handed to [onProgress]. *)
Record Progress : Type := mkProgress {
  chunks : nat;
  bytes : nat
}.

Definition constructor : t := mkStream 0 0.

(** [_transform(chunk, encoding, callback)]: the new counters, the
    progress report if one is made, and the chunk passed to [callback]. *)
Definition _transform (chunk : Chunk) (s : t) : t * option Progress * Chunk :=
  let s1 := mkStream (S (chunkCount s)) (totalSize s + length chunk) in
  let report :=
    if (chunkCount s1 mod 100 =? 0)%nat
    then Some (mkProgress (chunkCount s1) (totalSize s1))
    else None in
  (s1, report, chunk).

(** What a stream of chunks leaves behind: the counters, the reports made
    and the chunks passed on, each in order. *)
Record Trace : Type := mkTrace {
  state : t;
  reports : list Progress;
  passed : list Chunk
}.

Definition step (tr : Trace) (chunk : Chunk) : Trace :=
  let '(s1, report, out) := _transform chunk (state tr) in
  mkTrace s1
    (reports tr ++ match report with Some r => [r] | None => [] end)
    (passed tr ++ [out]).

Definition pipe (input : list Chunk) : Trace :=
  fold_left step input (mkTrace constructor [] []).

(** The number of bytes in a list of chunks. *)
Definition size_of (input : list Chunk) : nat :=
  fold_right (fun chunk n => (length chunk + n)%nat) 0%nat input.

(** The report made at the [k]-th hundred of chunks. *)
Definition report_at (input : list Chunk) (k : nat) : Progress :=
  mkProgress (100 * k) (size_of (firstn (100 * k) input)).

End OptimizedStreamProcessor.

(** ** Object utilities *)

Module ObjectUtils.

(** A plain JS object: its own enumerable string-keyed properties;
    reading, writing and deleting a property are as for a [Map].  Only
    lookups are stated of objects, so the place JS gives integer-like keys
    in the order of the properties plays no part. *)
Definition Obj (V : Type) : Type := MetadataCache.JsMap V.

Section Objects.

Variable V : Type.

(** [Object.assign(target, source)]: each property of [source] is set on
    [target] in turn. *)
Definition assign (target source : Obj V) : Obj V :=
  fold_left (fun t e => MetadataCache.map_set (fst e) (snd e) t) source target.

(** [objectUtils.defaults(target, ...sources)]:
    [Object.assign({}, ...sources.reverse(), target)]. *)
Definition defaults (target : Obj V) (sources : list (Obj V)) : Obj V :=
  fold_left assign (rev sources ++ [target]) [].

(** [removeFromObject(obj, keys)]: a copy of [obj] by spread, each key
    then deleted from the copy. *)
Definition removeFromObject (obj : Obj V) (keys : list string) : Obj V :=
  fold_left (fun result key => MetadataCache.map_delete key result) keys (assign [] obj).

(** The value under [k] in the first of the objects that has the key. *)
Fixpoint first_defined (k : string) (objs : list (Obj V)) : option V :=
  match objs with
  | [] => None
  | o :: rest =>
      match MetadataCache.map_get k o with
      | Some v => Some v
      | None => first_defined k rest
      end
  end.

(** An object holds each key once. *)
Definition well_formed (o : Obj V) : Prop := NoDup (map fst o).

End Objects.

Arguments assign {V} target source.
Arguments defaults {V} target sources.
Arguments removeFromObject {V} obj keys.
Arguments first_defined {V} k objs.
Arguments well_formed {V} o.

End ObjectUtils.

(** ** The hardware probe *)

(** An entry of what [gpu-info] reports. *)
Record Gpu : Type := mkGpu {
  AdapterCompatibility : string
}.

(** What the loop over the adapters does with one of them. *)
Definition detect_gpu (hw : HWAccel) (gpu : Gpu) : HWAccel :=
  let hw1 :=
    if String.eqb (AdapterCompatibility gpu) "NVIDIA"
    then mkHWAccel true (supportedHWAccel hw ++ ["nvenc"%string])
    else hw in
  if String.eqb (AdapterCompatibility gpu) "Intel Corporation"
  then mkHWAccel true (supportedHWAccel hw1 ++ ["qsv"%string])
  else hw1.

(** [detectHardwareAcceleration()]; [gpuInfo] is what [gpu-info] resolved
    with, [None] when loading or calling it threw (the [catch] only logs),
    and [platform] is [os.platform()]. *)
Definition detectHardwareAcceleration (gpuInfo : option (list Gpu)) (platform : string)
    (hw : HWAccel) : HWAccel :=
  match gpuInfo with
  | None => hw
  | Some data =>
      if String.eqb platform "win32" then fold_left detect_gpu data hw
      else if String.eqb platform "darwin"
           then mkHWAccel true (supportedHWAccel hw ++ ["videotoolbox"%string])
           else hw
  end.

(** The adapters of a vendor. *)
Definition adapters_of (vendor : string) (data : list Gpu) : list Gpu :=
  filter (fun gpu => String.eqb (AdapterCompatibility gpu) vendor) data.

(** How often a tag occurs. *)
Definition tag_count (tag : string) (tags : list string) : nat :=
  length (filter (String.eqb tag) tags).

(** What the probe keeps of its two fields: the flag is set exactly when a
    tag is listed, and the tags are of the three kinds. *)
Definition probed (hw : HWAccel) : Prop :=
  (potentialHWAccelSupport hw = true <-> supportedHWAccel hw <> [])
  /\ Forall (fun tag => tag = "nvenc"%string \/ tag = "qsv"%string
                        \/ tag = "videotoolbox"%string) (supportedHWAccel hw).

(** * Theorems *)

(** ** Admission *)

(** C5: [addVideo] either throws the error of [fs.access], leaving every
    field of the encoder, the suspended calls and the identity counter as
    they were, or returns one new video for the path and appends it, and
    nothing else, to the tail of the queue. *)
Theorem C5_addVideo_admission : forall (path : string) (access : AccessResult) (w : World),
  match access with
  | AccessError msg =>
      fst (addVideo path access w) = Threw msg
      /\ enc (snd (addVideo path access w)) = enc w
      /\ suspended (snd (addVideo path access w)) = suspended w
      /\ stopsPending (snd (addVideo path access w)) = stopsPending w
      /\ nextId (snd (addVideo path access w)) = nextId w
      /\ pausing (snd (addVideo path access w)) = pausing w
      /\ resuming (snd (addVideo path access w)) = resuming w
  | AccessOk =>
      let video := mkVideo (nextId w) path in
      fst (addVideo path access w) = Returned video
      /\ enc (snd (addVideo path access w))
         = set_queue (queue (enc w) ++ [video]) (enc w)
      /\ length (queue (enc (snd (addVideo path access w))))
         = S (length (queue (enc w)))
      /\ suspended (snd (addVideo path access w)) = suspended w
      /\ stopsPending (snd (addVideo path access w)) = stopsPending w
      /\ pausing (snd (addVideo path access w)) = pausing w
      /\ resuming (snd (addVideo path access w)) = resuming w
  end.
Proof.
  intros path [|msg] w; simpl.
  - repeat split. rewrite length_app. simpl. lia.
  - repeat split.
Qed.

(** ** Lifecycle misuse *)

Lemma runState_running (e : Encoder) :
  running e = true <->
  (runState e = Running \/ runState e = Paused \/ runState e = ShuttingDown).
Proof.
  unfold runState.
  destruct (running e), (shuttingDown e), (paused e), (startTime (metrics e));
    split; intros H; auto;
    try discriminate; repeat (destruct H as [H|H]; try discriminate).
Qed.

(** The loop of [pause()] writes no field of the encoder. *)
Lemma pause_loop_enc (has_pause : Video -> bool) (passed : Sweep) (w : World) :
  enc (pause_loop has_pause passed w) = enc w.
Proof.
  unfold pause_loop.
  destruct (sweep has_pause (currentlyProcessing (enc w)) passed); reflexivity.
Qed.

Lemma processQueue_paused (now : Z) (w : World) :
  paused (enc (snd (processQueue now w))) = paused (enc w).
Proof.
  unfold processQueue.
  generalize (S (length (queue (enc w)))). intros fuel. revert w.
  induction fuel as [|fuel IH]; intros w; [reflexivity|].
  cbn [processQueue_loop].
  destruct (running (enc w) && negb (paused (enc w)) && negb (shuttingDown (enc w)));
    [|reflexivity].
  destruct ((maxConcurrentJobs (enc w) <=? set_size (currentlyProcessing (enc w)))
            || (length (queue (enc w)) =? 0)%nat).
  - destruct ((length (queue (enc w)) =? 0)%nat
              && (set_size (currentlyProcessing (enc w)) =? 0)); [|reflexivity].
    cbn [snd]. unfold finish, cleanup.
    destruct (finish_summary now (enc w));
      destruct (0 <? length (failedVideos (enc w)))%nat;
      simpl; destruct (performanceInterval (enc w)); reflexivity.
  - destruct (queue (enc w)) as [|v rest]; cbn [shift]; rewrite IH; reflexivity.
Qed.

Lemma nth_error_snoc {A : Type} (l : list A) (a : A) :
  nth_error (l ++ [a]) (length l) = Some a.
Proof. induction l as [|b l IH]; [reflexivity | exact IH]. Qed.

(** C6, as the code has it: [start()] rejects exactly when the [running]
    flag is set, that is from Running, Paused and ShuttingDown, and is
    accepted from Idle and from Finished alike; [pause()] rejects when not
    running or already paused and [resume()] rejects when not paused; each
    of these rejections leaves the whole world as it was.  A [pause()] or a
    [resume()] that passes its guard writes the [paused] flag at once, and
    when a video's own [pause()] or [resume()] then rejects, the call
    rejects with the flag left as written. *)
Theorem C6_lifecycle_rejections :
  forall (now : Z) (has_pause has_resume : Video -> bool) (w : World),
  (running (enc w) = true <->
     (runState (enc w) = Running \/ runState (enc w) = Paused
      \/ runState (enc w) = ShuttingDown))
  /\ (running (enc w) = true ->
        start now w = (Threw "Encoder is already running", w))
  /\ (running (enc w) = false -> fst (start now w) = Returned tt)
  /\ (running (enc w) = false \/ paused (enc w) = true ->
        pause has_pause w = (Threw "Encoder is not running or already paused", w))
  /\ (paused (enc w) = false ->
        resume now has_resume w = (Threw "Encoder is not paused", w))
  /\ (running (enc w) = true /\ paused (enc w) = false ->
        paused (enc (snd (pause has_pause w))) = true
        /\ forall passed,
             sweep has_pause (currentlyProcessing (enc w)) [] = Some passed ->
             pausing (snd (pause has_pause w)) = pausing w ++ [passed]
             /\ enc (pause_settled (length (pausing w)) Rejected has_pause
                       (snd (pause has_pause w)))
                = set_paused true (enc w))
  /\ (paused (enc w) = true ->
        paused (enc (snd (resume now has_resume w))) = false
        /\ forall passed,
             sweep has_resume (currentlyProcessing (enc w)) [] = Some passed ->
             resuming (snd (resume now has_resume w)) = resuming w ++ [passed]
             /\ enc (resume_settled (length (resuming w)) Rejected now has_resume
                       (snd (resume now has_resume w)))
                = set_paused false (enc w)).
Proof.
  intros now has_pause has_resume w. split; [apply runState_running|].
  split; [intros H; unfold start; rewrite H; reflexivity|].
  split; [intros H; unfold start; rewrite H; reflexivity|].
  split.
  { intros [H | H]; unfold pause; rewrite H; [reflexivity|].
    rewrite orb_true_r. reflexivity. }
  split; [intros H; unfold resume; rewrite H; reflexivity|].
  split.
  - intros [Hr Hp]. unfold pause. rewrite Hr, Hp. cbn [negb orb fst snd].
    split; [rewrite pause_loop_enc; reflexivity|].
    intros passed Hsweep. unfold pause_loop. cbn [enc say with_enc currentlyProcessing
      set_paused]. rewrite Hsweep. cbn [pausing with_pausing say with_enc].
    split; [reflexivity|].
    unfold pause_settled. cbn [pausing with_pausing]. rewrite nth_error_snoc. reflexivity.
  - intros Hp. unfold resume. rewrite Hp. cbn [negb fst snd].
    split.
    + unfold resume_loop.
      destruct (sweep has_resume _ []); [reflexivity|].
      rewrite processQueue_paused. reflexivity.
    + intros passed Hsweep. unfold resume_loop. cbn [enc say with_enc currentlyProcessing
        set_paused]. rewrite Hsweep. cbn [resuming with_resuming say with_enc].
      split; [reflexivity|].
      unfold resume_settled. cbn [resuming with_resuming]. rewrite nth_error_snoc.
      reflexivity.
Qed.

(** C6 as stated fails: a fresh encoder started with an empty queue runs
    [finish] at once and is Finished, not Idle, yet a second [start()] is
    accepted there. *)
Lemma C6_start_accepted_when_finished :
  log (run [OpStart 0] (constructor 4 (mkOptions None None None)))
  = [LogStartingEncoder 4; EmitStarted; LogAllProcessed;
     EmitFinished 0 0 0 (set_startTime 0 emptyMetrics)]
  /\ runState (enc (run [OpStart 0] (constructor 4 (mkOptions None None None)))) = Finished
  /\ fst (start 5 (run [OpStart 0] (constructor 4 (mkOptions None None None))))
     = Returned tt.
Proof. repeat split. Qed.

(** ** The resource monitor *)

Lemma checkMemoryUsage_limit (h : Z) (w : World) :
  maxConcurrentJobs (enc (checkMemoryUsage h w))
  = if (memoryThreshold (enc w) <? h) && (1 <? maxConcurrentJobs (enc w))
    then maxConcurrentJobs (enc w) - 1
    else maxConcurrentJobs (enc w).
Proof.
  unfold checkMemoryUsage.
  destruct (memoryThreshold (enc w) <? h); simpl; [|reflexivity].
  destruct (1 <? maxConcurrentJobs (enc w)) eqn:H1; simpl; [|reflexivity].
  apply Z.ltb_lt in H1. lia.
Qed.

Lemma monitor_limit_le (h1 h2 : Z) (w : World) :
  maxConcurrentJobs (enc (monitor h1 h2 w)) <= maxConcurrentJobs (enc w)
  /\ (1 <= maxConcurrentJobs (enc w) ->
      1 <= maxConcurrentJobs (enc (monitor h1 h2 w))).
Proof.
  unfold monitor. destruct (performanceInterval (enc w)); [|lia].
  rewrite checkMemoryUsage_limit. simpl.
  destruct (memoryThreshold (enc w) <? h2); simpl; [|lia].
  destruct (1 <? maxConcurrentJobs (enc w)) eqn:H1; [|lia].
  apply Z.ltb_lt in H1. lia.
Qed.

Lemma monitor_run_limit_le (samples : list (Z * Z)) : forall w : World,
  maxConcurrentJobs (enc (monitor_run samples w)) <= maxConcurrentJobs (enc w)
  /\ (1 <= maxConcurrentJobs (enc w) ->
      1 <= maxConcurrentJobs (enc (monitor_run samples w))).
Proof.
  induction samples as [|[h1 h2] samples IH]; intros w.
  - simpl. lia.
  - unfold monitor_run in *. cbn [fold_left fst snd].
    destruct (IH (monitor h1 h2 w)) as [IH1 IH2].
    destruct (monitor_limit_le h1 h2 w) as [H1 H2]. lia.
Qed.

(** ** finish with nothing finished *)

(** C8, as the code has it: with no finished video [finish] builds no
    summary, so it divides nothing and reports no compression ratio at
    all; it logs the closing line (and the failed list, if any), clears the
    [running] flag and emits [finished] with a processed count of 0. *)
Theorem C8_finish_without_successes : forall (now : Z) (w : World),
  finishedVideos (enc w) = [] ->
  finish_summary now (enc w) = None
  /\ running (enc (finish now w)) = false
  /\ log (finish now w)
     = log w ++ [LogAllProcessed]
       ++ (if (0 <? length (failedVideos (enc w)))%nat
           then [LogFailedList (failedVideos (enc w))] else [])
       ++ [EmitFinished 0 (length (failedVideos (enc w)))
             (now - or0 (startTime (metrics (enc w)))) (metrics (enc w))].
Proof.
  intros now w H. unfold finish, finish_summary. rewrite H. simpl.
  destruct (0 <? length (failedVideos (enc w)))%nat; unfold cleanup; simpl;
    destruct (performanceInterval (enc w)); simpl;
    rewrite <- ?app_assoc; simpl; repeat split; rewrite ?H; reflexivity.
Qed.

Lemma C8_finish_without_successes_witness :
  finishedVideos (enc (constructor 4 (mkOptions None None None))) = []
  /\ finish_summary 7 (enc (constructor 4 (mkOptions None None None))) = None.
Proof.
  split; [reflexivity|].
  apply (C8_finish_without_successes 7 (constructor 4 (mkOptions None None None))).
  reflexivity.
Defined.

(** C8 as stated fails: finishing a fresh encoder reports no compression
    ratio, where the claim has a reported ratio of 0. *)
Lemma C8_no_ratio_reported :
  option_map sum_compressionRatio
    (finish_summary 7 (enc (constructor 4 (mkOptions None None None)))) = None
  /\ option_map sum_compressionRatio
       (finish_summary 7 (enc (constructor 4 (mkOptions None None None))))
     <> Some (Fin (inject_Z 0))
  /\ log (finish 7 (constructor 4 (mkOptions None None None)))
     = [LogAllProcessed; EmitFinished 0 0 7 emptyMetrics].
Proof. repeat split. discriminate. Qed.

(** ** stop *)

(** C2, as the code has it: [stop()] on a running encoder sets
    [shuttingDown] and, once resumed, empties the in-flight set and clears
    [running] and [paused]; neither stretch appends to the finished or the
    failed list or touches the suspended [processVideo] calls.  A job in
    flight at the stop is recorded only when its own [video.process()]
    settles, and on a rejection the recorded reason is the error's own
    message. *)
Theorem C2_stop_clears_without_recording : forall w : World,
  (running (enc w) = true ->
     shuttingDown (enc (stop_begin w)) = true
     /\ stopsPending (stop_begin w) = S (stopsPending w)
     /\ currentlyProcessing (enc (stop_begin w)) = currentlyProcessing (enc w)
     /\ finishedVideos (enc (stop_begin w)) = finishedVideos (enc w)
     /\ failedVideos (enc (stop_begin w)) = failedVideos (enc w)
     /\ suspended (stop_begin w) = suspended w)
  /\ (running (enc w) = false -> stop_begin w = w)
  /\ (stopsPending w <> 0%nat ->
        currentlyProcessing (enc (stop_end w)) = []
        /\ running (enc (stop_end w)) = false
        /\ paused (enc (stop_end w)) = false
        /\ finishedVideos (enc (stop_end w)) = finishedVideos (enc w)
        /\ failedVideos (enc (stop_end w)) = failedVideos (enc w)
        /\ suspended (stop_end w) = suspended w)
  /\ (forall (j : nat) (a : Activation) (error : VideoError),
        find_activation j (suspended w) = Some a ->
        exists entry,
          failedVideos (enc (processVideo_reject j (RejectedWith error) w))
          = failedVideos (enc w) ++ [entry]
          /\ fail_job entry = vid (act_video a)
          /\ fail_error entry = err_message error)
  /\ (forall (j : nat) (a : Activation) (now : Z) (i o : option Z),
        find_activation j (suspended w) = Some a ->
        exists entry,
          finishedVideos (enc (processVideo_resolve j now i o w))
          = finishedVideos (enc w) ++ [entry]
          /\ fin_job entry = vid (act_video a)).
Proof.
  intros w. split; [|split; [|split; [|split]]].
  - intros H. unfold stop_begin. rewrite H. simpl. repeat split.
  - intros H. unfold stop_begin. rewrite H. reflexivity.
  - intros H. unfold stop_end. destruct (stopsPending w); [contradiction|].
    unfold cleanup; simpl.
    destruct (performanceInterval (enc w)); repeat split.
  - intros j a error Ha. unfold processVideo_reject. rewrite Ha.
    eexists. simpl. split; [reflexivity|]. split; reflexivity.
  - intros j a now i o Ha. unfold processVideo_resolve. rewrite Ha.
    eexists. simpl. split; reflexivity.
Qed.

(** C2 as stated fails: one job is admitted and dispatched, then [stop()]
    runs to its end.  The in-flight set is empty, but the job is in neither
    the finished nor the failed list. *)
Lemma C2_stopped_job_not_recorded :
  currentlyProcessing
    (enc (run [OpAddVideo "a.mkv" AccessOk; OpStart 0]
            (constructor 4 (mkOptions None None None))))
  = [mkVideo 0 "a.mkv"]
  /\ currentlyProcessing
       (enc (run [OpAddVideo "a.mkv" AccessOk; OpStart 0; OpStopBegin; OpStopEnd]
               (constructor 4 (mkOptions None None None)))) = []
  /\ finishedVideos
       (enc (run [OpAddVideo "a.mkv" AccessOk; OpStart 0; OpStopBegin; OpStopEnd]
               (constructor 4 (mkOptions None None None)))) = []
  /\ failedVideos
       (enc (run [OpAddVideo "a.mkv" AccessOk; OpStart 0; OpStopBegin; OpStopEnd]
               (constructor 4 (mkOptions None None None)))) = [].
Proof. repeat split. Qed.

(** ** The dispatch loop: termination and an invariant rule *)

Section LoopInvariant.

Variable P : World -> Prop.
Variable now : Z.

Hypothesis P_dispatch : forall w video rest,
  running (enc w) = true -> paused (enc w) = false -> shuttingDown (enc w) = false ->
  set_size (currentlyProcessing (enc w)) < maxConcurrentJobs (enc w) ->
  queue (enc w) = video :: rest ->
  P w ->
  P (processVideo_begin now video (with_enc (set_queue rest (enc w)) w)).

Hypothesis P_finish : forall w,
  running (enc w) = true -> paused (enc w) = false -> shuttingDown (enc w) = false ->
  queue (enc w) = [] -> currentlyProcessing (enc w) = [] ->
  P w -> P (finish now w).

Lemma processQueue_loop_preserves : forall fuel w,
  P w -> P (snd (processQueue_loop fuel now w)).
Proof.
  induction fuel as [|fuel IH]; intros w HP; [exact HP|].
  cbn [processQueue_loop].
  destruct (running (enc w)) eqn:Hr; [|exact HP].
  destruct (paused (enc w)) eqn:Hp; [exact HP|].
  destruct (shuttingDown (enc w)) eqn:Hs; [exact HP|].
  cbn [andb negb].
  destruct (maxConcurrentJobs (enc w) <=? set_size (currentlyProcessing (enc w))) eqn:Hm.
  - cbn [orb].
    destruct (queue (enc w)) as [|v rest] eqn:Hq; cbn [length Nat.eqb andb]; [|exact HP].
    destruct (set_size (currentlyProcessing (enc w)) =? 0) eqn:Hz; [|exact HP].
    cbn [snd]. apply P_finish; auto.
    destruct (currentlyProcessing (enc w)); [reflexivity|discriminate].
  - cbn [orb].
    destruct (queue (enc w)) as [|v rest] eqn:Hq; cbn [length Nat.eqb andb].
    + destruct (set_size (currentlyProcessing (enc w)) =? 0) eqn:Hz; [|exact HP].
      cbn [snd]. apply P_finish; auto.
      destruct (currentlyProcessing (enc w)); [reflexivity|discriminate].
    + cbn [shift]. apply IH. apply P_dispatch; auto.
      apply Z.leb_gt in Hm. exact Hm.
Qed.

Lemma processQueue_preserves : forall w, P w -> P (snd (processQueue now w)).
Proof. intros w. apply processQueue_loop_preserves. Qed.

End LoopInvariant.

(** The fuel [processQueue] gives its loop is enough: a run of the loop
    always ends at an [await], at [finish], or by leaving the [while]. *)
Lemma processQueue_loop_total (now : Z) : forall fuel w,
  (length (queue (enc w)) < fuel)%nat ->
  fst (processQueue_loop fuel now w) <> LoopOutOfFuel.
Proof.
  induction fuel as [|fuel IH]; intros w Hlt; [lia|].
  cbn [processQueue_loop].
  destruct (running (enc w) && negb (paused (enc w)) && negb (shuttingDown (enc w)));
    [|discriminate].
  destruct (queue (enc w)) as [|v rest] eqn:Hq.
  - rewrite orb_true_r.
    destruct ((length (@nil Video) =? 0)%nat
              && (set_size (currentlyProcessing (enc w)) =? 0)); discriminate.
  - cbn [length Nat.eqb andb orb].
    destruct (maxConcurrentJobs (enc w) <=? set_size (currentlyProcessing (enc w)));
      cbn [orb]; [discriminate|].
    cbn [shift]. apply IH. simpl. simpl in Hlt. lia.
Qed.

Lemma processQueue_total (now : Z) (w : World) :
  fst (processQueue now w) <> LoopOutOfFuel.
Proof. apply processQueue_loop_total. lia. Qed.

(** ** What the stretches leave alone, and a rule for invariants of runs *)

Lemma added_app (l l' : list LogEntry) : added (l ++ l') = added l ++ added l'.
Proof.
  induction l as [|x l IH]; [reflexivity|].
  destruct x; simpl; rewrite IH; reflexivity.
Qed.

Lemma started_app (l l' : list LogEntry) : started (l ++ l') = started l ++ started l'.
Proof.
  induction l as [|x l IH]; [reflexivity|].
  destruct x; simpl; rewrite IH; reflexivity.
Qed.

Lemma finish_fields (now : Z) (w : World) :
  currentlyProcessing (enc (finish now w)) = currentlyProcessing (enc w)
  /\ maxConcurrentJobs (enc (finish now w)) = maxConcurrentJobs (enc w)
  /\ queue (enc (finish now w)) = queue (enc w)
  /\ finishedVideos (enc (finish now w)) = finishedVideos (enc w)
  /\ failedVideos (enc (finish now w)) = failedVideos (enc w)
  /\ suspended (finish now w) = suspended w
  /\ nextId (finish now w) = nextId w.
Proof.
  unfold finish, cleanup.
  destruct (finish_summary now (enc w)); destruct (0 <? length (failedVideos (enc w)))%nat;
    simpl; destruct (performanceInterval (enc w)); simpl; repeat split.
Qed.

Lemma finish_log (now : Z) (w : World) :
  added (log (finish now w)) = added (log w)
  /\ started (log (finish now w)) = started (log w).
Proof.
  unfold finish, cleanup.
  destruct (finish_summary now (enc w)); destruct (0 <? length (failedVideos (enc w)))%nat;
    simpl; destruct (performanceInterval (enc w)); simpl;
    rewrite ?added_app, ?started_app; simpl; rewrite ?app_nil_r; split; reflexivity.
Qed.

Lemma finish_metrics (now : Z) (w : World) :
  metrics (enc (finish now w)) = metrics (enc w).
Proof.
  unfold finish, cleanup.
  destruct (finish_summary now (enc w)); destruct (0 <? length (failedVideos (enc w)))%nat;
    simpl; destruct (performanceInterval (enc w)); reflexivity.
Qed.

Lemma finish_core (now : Z) (w : World) : core (finish now w) = core w.
Proof.
  unfold core.
  destruct (finish_fields now w) as (-> & -> & -> & -> & -> & -> & ->).
  destruct (finish_log now w) as [-> ->].
  rewrite finish_metrics.
  unfold finish, cleanup.
  destruct (finish_summary now (enc w)); destruct (0 <? length (failedVideos (enc w)))%nat;
    simpl; destruct (performanceInterval (enc w)); reflexivity.
Qed.

Lemma run_snoc (ops : list Op) (op : Op) (w : World) :
  run (ops ++ [op]) w = exec op (run ops w).
Proof. unfold run. rewrite fold_left_app. reflexivity. Qed.

Lemma core_fields (w w' : World) :
  core w' = core w ->
  queue (enc w') = queue (enc w)
  /\ currentlyProcessing (enc w') = currentlyProcessing (enc w)
  /\ failedVideos (enc w') = failedVideos (enc w)
  /\ finishedVideos (enc w') = finishedVideos (enc w)
  /\ maxConcurrentJobs (enc w') = maxConcurrentJobs (enc w)
  /\ metrics (enc w') = metrics (enc w)
  /\ suspended w' = suspended w
  /\ nextId w' = nextId w
  /\ added (log w') = added (log w)
  /\ started (log w') = started (log w).
Proof.
  unfold core. intros H. injection H. intros. repeat split; assumption.
Qed.

(** Close a goal [core w' = core w] where [w'] differs from [w] by flags,
    suspended lifecycle calls and log lines that are neither additions nor
    starts. *)
Ltac same_core :=
  unfold core; simpl; rewrite ?added_app, ?started_app; simpl;
  rewrite ?app_nil_r; reflexivity.

Lemma pause_loop_core (has_pause : Video -> bool) (passed : Sweep) (w : World) :
  core (pause_loop has_pause passed w) = core w.
Proof.
  unfold pause_loop.
  destruct (sweep has_pause (currentlyProcessing (enc w)) passed); same_core.
Qed.

Lemma pause_core (has_pause : Video -> bool) (w : World) :
  core (snd (pause has_pause w)) = core w.
Proof.
  unfold pause. destruct (negb (running (enc w)) || paused (enc w)); [reflexivity|].
  cbn [snd]. rewrite pause_loop_core. same_core.
Qed.

Lemma pause_settled_core (k : nat) (result : Settled) (has_pause : Video -> bool)
    (w : World) :
  core (pause_settled k result has_pause w) = core w.
Proof.
  unfold pause_settled. destruct (nth_error (pausing w) k); [|reflexivity].
  destruct result; [rewrite pause_loop_core|]; same_core.
Qed.

(** What one stretch of [resume()] comes to: nothing but flags, suspended
    calls and plain log lines, or that followed by one run of the dispatch
    loop. *)
Lemma resume_loop_shape (now : Z) (has_resume : Video -> bool) (passed : Sweep)
    (w : World) :
  exists w0,
    core w0 = core w
    /\ enc w0 = enc w
    /\ (resume_loop now has_resume passed w = w0
        \/ resume_loop now has_resume passed w = snd (processQueue now w0)).
Proof.
  unfold resume_loop.
  destruct (sweep has_resume (currentlyProcessing (enc w)) passed).
  - eexists. split; [|split; [|left; reflexivity]]; [same_core | reflexivity].
  - eexists. split; [|split; [|right; reflexivity]]; [same_core | reflexivity].
Qed.

Lemma resume_shape (now : Z) (has_resume : Video -> bool) (w : World) :
  exists w0,
    core w0 = core w
    /\ (enc w0 = enc w \/ enc w0 = set_paused false (enc w))
    /\ (snd (resume now has_resume w) = w0
        \/ snd (resume now has_resume w) = snd (processQueue now w0)).
Proof.
  unfold resume. destruct (negb (paused (enc w))).
  - exists w. split; [reflexivity|]. split; [left; reflexivity|left; reflexivity].
  - cbn [snd].
    destruct (resume_loop_shape now has_resume []
                (say [LogResuming] (with_enc (set_paused false (enc w)) w)))
      as (w0 & Hc & He & H).
    exists w0. split; [rewrite Hc; same_core|]. split; [right; exact He | exact H].
Qed.

Lemma resume_settled_shape (k : nat) (result : Settled) (now : Z)
    (has_resume : Video -> bool) (w : World) :
  exists w0,
    core w0 = core w
    /\ enc w0 = enc w
    /\ (resume_settled k result now has_resume w = w0
        \/ resume_settled k result now has_resume w = snd (processQueue now w0)).
Proof.
  unfold resume_settled. destruct (nth_error (resuming w) k) as [passed|].
  - destruct result.
    + destruct (resume_loop_shape now has_resume passed
                  (with_resuming (drop_nth k (resuming w)) w)) as (w0 & Hc & He & H).
      exists w0. split; [rewrite Hc; same_core|]. split; [exact He | exact H].
    + eexists. split; [|split; [|left; reflexivity]]; [same_core | reflexivity].
  - exists w. split; [reflexivity|]. split; [reflexivity | left; reflexivity].
Qed.

(** A rule for what every stretch keeps.  The end of [stop()] and a
    rejection with [null] or [undefined] are asked for last: what holds as
    long as no job is lost needs neither. *)
Section RunInvariant.

Variable P : World -> Prop.

Hypothesis P_core : forall w w', core w' = core w -> P w -> P w'.

Hypothesis P_admit : forall path w, P w -> P (snd (addVideo path AccessOk w)).

Hypothesis P_startTime : forall now w,
  P w -> P (with_enc (set_metrics (set_startTime now (metrics (enc w))) (enc w)) w).

Hypothesis P_dispatch : forall now w video rest,
  set_size (currentlyProcessing (enc w)) < maxConcurrentJobs (enc w) ->
  queue (enc w) = video :: rest ->
  P w ->
  P (processVideo_begin now video (with_enc (set_queue rest (enc w)) w)).

Hypothesis P_resolve : forall j now i o w a,
  find_activation j (suspended w) = Some a ->
  P w -> P (processVideo_resolve j now i o w).

Hypothesis P_reject : forall j error w a,
  find_activation j (suspended w) = Some a ->
  P w -> P (processVideo_reject j (RejectedWith error) w).

Hypothesis P_updateMetrics : forall h w, P w -> P (updateMetrics h w).

Hypothesis P_checkMemoryUsage : forall h w, P w -> P (checkMemoryUsage h w).

Lemma processQueue_rule (now : Z) (w : World) : P w -> P (snd (processQueue now w)).
Proof.
  apply processQueue_preserves.
  - intros w1 v rest _ _ _ Hlt Hq. apply P_dispatch; assumption.
  - intros w1 _ _ _ _ _. apply P_core, finish_core.
Qed.

Lemma exec_rule_keeping (op : Op) (w : World) :
  keeps_jobs op -> P w -> P (exec op w).
Proof.
  intros [Hstop Hnull] H. destruct op; simpl.
  - destruct access; [apply P_admit, H|].
    apply (P_core w); [same_core | exact H].
  - unfold start. destruct (running (enc w)); [exact H|].
    cbn [snd]. apply processQueue_rule.
    apply (P_core (with_enc (set_metrics (set_startTime now (metrics (enc w))) (enc w)) w));
      [same_core | apply P_startTime, H].
  - apply processQueue_rule, H.
  - destruct (find_activation job (suspended w)) as [a|] eqn:Ha.
    + apply (P_resolve _ _ _ _ _ a Ha H).
    + unfold processVideo_resolve. rewrite Ha. exact H.
  - destruct error as [error|]; [|exfalso; apply (Hnull job); reflexivity].
    destruct (find_activation job (suspended w)) as [a|] eqn:Ha.
    + apply (P_reject _ _ _ a Ha H).
    + unfold processVideo_reject. rewrite Ha. exact H.
  - apply (P_core w); [apply pause_core | exact H].
  - apply (P_core w); [apply pause_settled_core | exact H].
  - destruct (resume_shape now has_resume w) as (w0 & Hc & _ & [-> | ->]);
      [|apply processQueue_rule]; apply (P_core w); assumption.
  - destruct (resume_settled_shape call result now has_resume w)
      as (w0 & Hc & _ & [-> | ->]);
      [|apply processQueue_rule]; apply (P_core w); assumption.
  - unfold stop_begin. destruct (negb (running (enc w))); [exact H|].
    apply (P_core w); [same_core | exact H].
  - exfalso. apply Hstop. reflexivity.
  - unfold monitor. destruct (performanceInterval (enc w)); [|exact H].
    apply P_checkMemoryUsage, P_updateMetrics, H.
Qed.

Hypothesis P_drop : forall j w a,
  find_activation j (suspended w) = Some a ->
  P w -> P (processVideo_reject j RejectedNullish w).

Hypothesis P_clear : forall w,
  P w -> P (with_enc (set_currentlyProcessing [] (enc w)) w).

Lemma exec_rule (op : Op) (w : World) : P w -> P (exec op w).
Proof.
  intros H.
  assert (Hkeeps : keeps_jobs op -> P (exec op w))
    by (intros Hk; apply exec_rule_keeping; assumption).
  destruct op; try (apply Hkeeps; split; [discriminate | intros; discriminate]).
  - destruct error as [error|];
      [apply Hkeeps; split; [discriminate | intros; discriminate]|].
    simpl. destruct (find_activation job (suspended w)) as [a|] eqn:Ha.
    + apply (P_drop _ _ a Ha H).
    + unfold processVideo_reject. rewrite Ha. exact H.
  - simpl. unfold stop_end. destruct (stopsPending w); [exact H|].
    apply (P_core (with_enc (set_currentlyProcessing [] (enc w)) w)); [|apply P_clear, H].
    unfold core, cleanup; simpl. destruct (performanceInterval (enc w)); simpl;
      rewrite added_app, started_app; simpl; rewrite !app_nil_r; reflexivity.
Qed.

Lemma run_rule (ops : list Op) (w : World) : P w -> P (run ops w).
Proof.
  intros H. induction ops as [|op ops IH] using rev_ind; [exact H|].
  rewrite run_snoc. apply exec_rule, IH.
Qed.

End RunInvariant.

(** ** The in-flight set and the limit *)

Lemma set_size_add (v : Video) (c : list Video) :
  set_size (set_add v c) <= set_size c + 1.
Proof.
  unfold set_size, set_add. destruct (set_has c (vid v)); [lia|].
  rewrite length_app. simpl. lia.
Qed.

Lemma set_size_delete (j : nat) (c : list Video) :
  set_size (set_delete j c) <= set_size c.
Proof.
  unfold set_size, set_delete.
  pose proof (filter_length_le (fun v => negb (Nat.eqb (vid v) j)) c). lia.
Qed.

Lemma set_size_nonneg (c : list Video) : 0 <= set_size c.
Proof. unfold set_size. lia. Qed.


(** No stretch of the scheduler other than the monitor writes the limit. *)
Lemma exec_limit (op : Op) (w : World) :
  maxConcurrentJobs (enc (exec op w))
  = match op with
    | OpMonitor h1 h2 => maxConcurrentJobs (enc (monitor h1 h2 w))
    | _ => maxConcurrentJobs (enc w)
    end.
Proof.
  assert (Hloop : forall now w0,
             maxConcurrentJobs (enc (snd (processQueue now w0)))
             = maxConcurrentJobs (enc w0)).
  { intros now w0.
    apply (processQueue_preserves
             (fun w' => maxConcurrentJobs (enc w') = maxConcurrentJobs (enc w0))).
    - intros w1 v rest _ _ _ _ _ H. exact H.
    - intros w1 _ _ _ _ _ H. destruct (finish_fields now w1) as (_ & -> & _). exact H.
    - reflexivity. }
  destruct op; simpl; try reflexivity.
  - destruct access; reflexivity.
  - unfold start. destruct (running (enc w)); [reflexivity|].
    cbn [snd]. rewrite Hloop. reflexivity.
  - apply Hloop.
  - unfold processVideo_resolve. destruct (find_activation job (suspended w)); reflexivity.
  - unfold processVideo_reject.
    destruct (find_activation job (suspended w)); [destruct error|]; reflexivity.
  - apply (core_fields _ _ (pause_core has_pause w)).
  - apply (core_fields _ _ (pause_settled_core call result has_pause w)).
  - destruct (resume_shape now has_resume w) as (w0 & Hc & _ & [-> | ->]);
      rewrite ?Hloop; apply (core_fields _ _ Hc).
  - destruct (resume_settled_shape call result now has_resume w)
      as (w0 & Hc & _ & [-> | ->]);
      rewrite ?Hloop; apply (core_fields _ _ Hc).
  - unfold stop_begin. destruct (negb (running (enc w))); reflexivity.
  - unfold stop_end. destruct (stopsPending w); [reflexivity|].
    unfold cleanup. simpl. destruct (performanceInterval (enc w)); reflexivity.
Qed.

Lemma exec_limit_le (op : Op) (w : World) :
  maxConcurrentJobs (enc (exec op w)) <= maxConcurrentJobs (enc w).
Proof.
  rewrite exec_limit. destruct op; try lia.
  apply monitor_limit_le.
Qed.

Lemma monitor_inflight (h1 h2 : Z) (w : World) :
  currentlyProcessing (enc (monitor h1 h2 w)) = currentlyProcessing (enc w).
Proof.
  unfold monitor, checkMemoryUsage, updateMetrics.
  destruct (performanceInterval (enc w)); [|reflexivity]. simpl.
  destruct (memoryThreshold (enc w) <? h2); [|reflexivity].
  destruct (1 <? maxConcurrentJobs (enc w)); reflexivity.
Qed.

(** After any stretch the in-flight size is at most the larger of its
    value before and the limit after. *)
Lemma exec_inflight_bound (op : Op) (w : World) :
  set_size (currentlyProcessing (enc (exec op w)))
  <= Z.max (set_size (currentlyProcessing (enc w)))
           (maxConcurrentJobs (enc (exec op w))).
Proof.
  assert (Hloop : forall now w0,
             set_size (currentlyProcessing (enc (snd (processQueue now w0))))
             <= Z.max (set_size (currentlyProcessing (enc w0)))
                      (maxConcurrentJobs (enc (snd (processQueue now w0))))).
  { intros now w0.
    pose proof (exec_limit (OpTick now) w0) as Hl. simpl in Hl. rewrite Hl.
    apply (processQueue_preserves
             (fun w' => maxConcurrentJobs (enc w') = maxConcurrentJobs (enc w0)
                        /\ set_size (currentlyProcessing (enc w'))
                           <= Z.max (set_size (currentlyProcessing (enc w0)))
                                    (maxConcurrentJobs (enc w0)))).
    - intros w1 v rest _ _ _ Hlt _ [Hm H]. simpl. split; [exact Hm|].
      pose proof (set_size_add v (currentlyProcessing (enc w1))). lia.
    - intros w1 _ _ _ _ _ [Hm H].
      destruct (finish_fields now w1) as (-> & -> & _). auto.
    - split; [reflexivity|lia]. }
  destruct op; simpl.
  - destruct access; simpl; lia.
  - unfold start. destruct (running (enc w)) eqn:Hr; [simpl; lia|].
    cbn [snd]. etransitivity; [apply Hloop|]. simpl. lia.
  - apply Hloop.
  - unfold processVideo_resolve. destruct (find_activation job (suspended w)); [|lia].
    simpl. pose proof (set_size_delete (vid (act_video a)) (currentlyProcessing (enc w))). lia.
  - unfold processVideo_reject. destruct (find_activation job (suspended w)); [|lia].
    destruct error; simpl;
      pose proof (set_size_delete (vid (act_video a)) (currentlyProcessing (enc w))); lia.
  - destruct (core_fields _ _ (pause_core has_pause w)) as (_ & -> & _). lia.
  - destruct (core_fields _ _ (pause_settled_core call result has_pause w))
      as (_ & -> & _). lia.
  - destruct (resume_shape now has_resume w) as (w0 & Hc & _ & [-> | ->]);
      destruct (core_fields _ _ Hc) as (_ & Hp & _);
      [rewrite Hp; lia | rewrite <- Hp; apply Hloop].
  - destruct (resume_settled_shape call result now has_resume w)
      as (w0 & Hc & _ & [-> | ->]);
      destruct (core_fields _ _ Hc) as (_ & Hp & _);
      [rewrite Hp; lia | rewrite <- Hp; apply Hloop].
  - unfold stop_begin. destruct (negb (running (enc w))); simpl; lia.
  - unfold stop_end. destruct (stopsPending w); [lia|].
    unfold cleanup. simpl.
    pose proof (set_size_nonneg (currentlyProcessing (enc w))).
    destruct (performanceInterval (enc w)); simpl; unfold set_size in *; simpl; lia.
  - rewrite monitor_inflight. lia.
Qed.


Lemma run_limit_le (ops : list Op) (w : World) :
  maxConcurrentJobs (enc (run ops w)) <= maxConcurrentJobs (enc w).
Proof.
  induction ops as [|op ops IH] using rev_ind; [simpl; lia|].
  rewrite run_snoc. pose proof (exec_limit_le op (run ops w)). lia.
Qed.

(** A limit of at least 1 stays at least 1 along every run. *)
Lemma run_limit_ge_1 (ops : list Op) (w : World) :
  1 <= maxConcurrentJobs (enc w) -> 1 <= maxConcurrentJobs (enc (run ops w)).
Proof.
  intros H. induction ops as [|op ops IH] using rev_ind; [exact H|].
  rewrite run_snoc, exec_limit. destruct op; try exact IH.
  apply monitor_limit_le, IH.
Qed.

(** C7: a sample above the threshold lowers a limit greater than 1 by
    exactly one; no sample raises the limit or changes a limit that is not
    greater than 1, so a limit of at least 1 stays at least 1; over any
    series of timer firings, and over any run of the scheduler at all, the
    limit never grows. *)
Theorem C7_monitor_ratchet : forall (heapUsed : Z) (w : World),
  let m := maxConcurrentJobs (enc w) in
  let m' := maxConcurrentJobs (enc (checkMemoryUsage heapUsed w)) in
  (memoryThreshold (enc w) < heapUsed -> 1 < m -> m' = m - 1)
  /\ (m <= 1 -> m' = m)
  /\ (heapUsed <= memoryThreshold (enc w) -> m' = m)
  /\ m' <= m
  /\ (1 <= m -> 1 <= m')
  /\ (forall samples : list (Z * Z),
        maxConcurrentJobs (enc (monitor_run samples w)) <= m
        /\ (1 <= m -> 1 <= maxConcurrentJobs (enc (monitor_run samples w))))
  /\ (forall ops : list Op,
        maxConcurrentJobs (enc (run ops w)) <= m
        /\ (1 <= m -> 1 <= maxConcurrentJobs (enc (run ops w)))).
Proof.
  intros h w m m'. subst m m'. rewrite checkMemoryUsage_limit.
  assert (Hruns : forall ops : list Op,
             maxConcurrentJobs (enc (run ops w)) <= maxConcurrentJobs (enc w)
             /\ (1 <= maxConcurrentJobs (enc w) ->
                 1 <= maxConcurrentJobs (enc (run ops w)))).
  { intros ops. split; [apply run_limit_le | apply run_limit_ge_1]. }
  assert (Hsamples : forall samples : list (Z * Z),
             maxConcurrentJobs (enc (monitor_run samples w)) <= maxConcurrentJobs (enc w)
             /\ (1 <= maxConcurrentJobs (enc w) ->
                 1 <= maxConcurrentJobs (enc (monitor_run samples w)))).
  { intros samples. apply monitor_run_limit_le. }
  destruct (memoryThreshold (enc w) <? h) eqn:Ht;
    destruct (1 <? maxConcurrentJobs (enc w)) eqn:H1; simpl;
    try apply Z.ltb_lt in Ht; try apply Z.ltb_ge in Ht;
    try apply Z.ltb_lt in H1; try apply Z.ltb_ge in H1;
    (split; [lia|]); (split; [lia|]); (split; [lia|]); (split; [lia|]);
    (split; [lia|]); (split; [exact Hsamples | exact Hruns]).
Qed.

(** C3, as the code has it: a stretch never takes the in-flight size above
    both its earlier value and the limit; every stretch but a firing of
    the monitor keeps a size within the limit within it, and so does any
    run without such a firing; with the monitor, the size stays within the
    limit the run began with, which the current limit never exceeds. *)
Theorem C3_inflight_against_limit : forall (ops : list Op) (op : Op) (w : World),
  let inflight := fun w' => set_size (currentlyProcessing (enc w')) in
  let limit := fun w' => maxConcurrentJobs (enc w') in
  inflight (exec op w) <= Z.max (inflight w) (limit (exec op w))
  /\ ((forall h1 h2, op <> OpMonitor h1 h2) ->
      inflight w <= limit w -> inflight (exec op w) <= limit (exec op w))
  /\ ((forall h1 h2, ~ In (OpMonitor h1 h2) ops) ->
      inflight w <= limit w -> inflight (run ops w) <= limit (run ops w))
  /\ (inflight w <= limit w ->
      inflight (run ops w) <= limit w /\ limit (run ops w) <= limit w).
Proof.
  intros ops op w inflight limit. subst inflight limit. cbv beta.
  assert (Hstep : forall op0 w0,
             (forall h1 h2, op0 <> OpMonitor h1 h2) ->
             set_size (currentlyProcessing (enc w0)) <= maxConcurrentJobs (enc w0) ->
             set_size (currentlyProcessing (enc (exec op0 w0)))
             <= maxConcurrentJobs (enc (exec op0 w0))).
  { intros op0 w0 Hop H.
    pose proof (exec_inflight_bound op0 w0) as Hb.
    pose proof (exec_limit op0 w0) as Hl.
    destruct op0; try lia.
    exfalso. apply (Hop heap1 heap2). reflexivity. }
  split; [apply exec_inflight_bound|].
  split; [apply Hstep|].
  split.
  - induction ops as [|op0 ops IH] using rev_ind; intros Hno H; [exact H|].
    rewrite run_snoc. apply Hstep.
    + intros h1 h2 ->. apply (Hno h1 h2). apply in_or_app. right. left. reflexivity.
    + apply IH; [|exact H].
      intros h1 h2 Hin. apply (Hno h1 h2). apply in_or_app. left. exact Hin.
  - intros H. split; [|apply run_limit_le].
    induction ops as [|op0 ops IH] using rev_ind; [exact H|].
    rewrite run_snoc.
    pose proof (exec_inflight_bound op0 (run ops w)) as Hb.
    pose proof (exec_limit_le op0 (run ops w)) as Hl.
    pose proof (run_limit_le ops w). lia.
Qed.

(** C3 as stated fails: with a limit of 2, two jobs are admitted and
    dispatched; a firing of the monitor above the threshold then lowers the
    limit to 1 while both jobs are still in flight. *)
Lemma C3_inflight_exceeds_lowered_limit :
  set_size
    (currentlyProcessing
       (enc (run [OpAddVideo "a.mkv" AccessOk; OpAddVideo "b.mkv" AccessOk;
                  OpStart 0; OpMonitor 2000000000 2000000000]
               (constructor 8 (mkOptions (Some 2) None None))))) = 2
  /\ maxConcurrentJobs
       (enc (run [OpAddVideo "a.mkv" AccessOk; OpAddVideo "b.mkv" AccessOk;
                  OpStart 0; OpMonitor 2000000000 2000000000]
               (constructor 8 (mkOptions (Some 2) None None)))) = 1.
Proof. split; reflexivity. Qed.

(** ** FIFO dispatch *)



(** Close a [fifo] goal whose world differs from that of [H] by flags and
    by log entries that are neither additions nor starts. *)
Ltac quiet_log H :=
  unfold fifo in *; simpl; rewrite ?added_app, ?started_app; simpl;
  rewrite ?app_nil_r; exact H.


(** One run of the loop starts a prefix of the queue, in order. *)
Lemma processQueue_heads (now : Z) (w : World) :
  exists heads,
    queue (enc w) = heads ++ queue (enc (snd (processQueue now w)))
    /\ started (log (snd (processQueue now w))) = started (log w) ++ heads.
Proof.
  apply (processQueue_preserves
           (fun w' => exists heads,
                queue (enc w) = heads ++ queue (enc w')
                /\ started (log w') = started (log w) ++ heads)).
  - intros w1 v rest _ _ _ _ Hq (heads & H1 & H2).
    exists (heads ++ [v]). simpl. rewrite started_app, H2, H1, Hq, <- !app_assoc.
    split; reflexivity.
  - intros w1 _ _ _ _ _ (heads & H1 & H2). exists heads.
    destruct (finish_log now w1) as [_ ->].
    destruct (finish_fields now w1) as (_ & _ & -> & _). split; assumption.
  - exists []. rewrite app_nil_r. split; reflexivity.
Qed.

Lemma exec_fifo (op : Op) (w : World) : fifo w -> fifo (exec op w).
Proof.
  apply exec_rule.
  - intros w1 w2 Hc H. unfold fifo in *.
    destruct (core_fields _ _ Hc) as (-> & _ & _ & _ & _ & _ & _ & _ & -> & ->). exact H.
  - intros path w1 H. unfold fifo in *. simpl. rewrite added_app, started_app. simpl.
    rewrite ?app_nil_r, H, ?app_assoc. reflexivity.
  - intros now w1 H. exact H.
  - intros now w1 v rest _ Hq H. unfold fifo in *. simpl.
    rewrite added_app, started_app. simpl. rewrite app_nil_r, H, Hq, <- app_assoc.
    reflexivity.
  - intros j now i o w1 a Ha H. unfold processVideo_resolve. rewrite Ha. quiet_log H.
  - intros j error w1 a Ha H. unfold processVideo_reject. rewrite Ha. quiet_log H.
  - intros h w1 H. exact H.
  - intros h w1 H. unfold checkMemoryUsage.
    destruct (memoryThreshold (enc w1) <? h); [|exact H].
    destruct (1 <? maxConcurrentJobs (enc w1)); quiet_log H.
  - intros j w1 a Ha H. unfold processVideo_reject. rewrite Ha. quiet_log H.
  - intros w1 H. exact H.
Qed.

Lemma run_fifo (ops : list Op) (w : World) : fifo w -> fifo (run ops w).
Proof.
  intros H. induction ops as [|op ops IH] using rev_ind; [exact H|].
  rewrite run_snoc. apply exec_fifo, IH.
Qed.

(** C4: [addVideo] appends to the tail of the queue, and a run of the
    dispatch loop ends having started videos off the head of the queue, in
    order; along every run of a fresh encoder the videos added, in order,
    are the videos started, in order, followed by the queue, so the k-th
    video added is the k-th started: when B was added after A and B has
    been started, A was started, and earlier. *)
Theorem C4_fifo_dispatch : forall (ops : list Op) (cpus : Z) (options : Options),
  let w := run ops (constructor cpus options) in
  (forall path, queue (enc (snd (addVideo path AccessOk w)))
                = queue (enc w) ++ [mkVideo (nextId w) path])
  /\ (forall now,
        fst (processQueue now w) <> LoopOutOfFuel
        /\ exists heads,
             queue (enc w) = heads ++ queue (enc (snd (processQueue now w)))
             /\ started (log (snd (processQueue now w))) = started (log w) ++ heads)
  /\ added (log w) = started (log w) ++ queue (enc w)
  /\ (forall (i j : nat) (A B : Video),
        (i < j)%nat ->
        nth_error (added (log w)) i = Some A ->
        nth_error (added (log w)) j = Some B ->
        (j < length (started (log w)))%nat ->
        nth_error (started (log w)) i = Some A
        /\ nth_error (started (log w)) j = Some B).
Proof.
  intros ops cpus options w.
  assert (H : fifo w) by (apply run_fifo; reflexivity).
  unfold fifo in H.
  split; [reflexivity|].
  split; [intros now; split; [apply processQueue_total | apply processQueue_heads]|].
  split; [exact H|].
  intros i j A B Hij HA HB Hj.
  rewrite H in HA, HB.
  rewrite nth_error_app1 in HA by lia.
  rewrite nth_error_app1 in HB by lia.
  split; assumption.
Qed.

(** ** Ownership of jobs *)

Lemma occ_nil (j : nat) : occ j [] = 0%nat.
Proof. reflexivity. Qed.

Lemma occ_app (j : nat) (l l' : list nat) : occ j (l ++ l') = (occ j l + occ j l')%nat.
Proof. apply count_occ_app. Qed.

Lemma occ_cons (j k : nat) (l : list nat) :
  occ j (k :: l) = ((if Nat.eqb k j then 1 else 0) + occ j l)%nat.
Proof.
  unfold occ. simpl. destruct (Nat.eq_dec k j) as [->|Hne].
  - rewrite Nat.eqb_refl. reflexivity.
  - apply Nat.eqb_neq in Hne. rewrite Hne. reflexivity.
Qed.

Lemma occ_without (j k : nat) (l : list nat) :
  occ j (without k l) = if Nat.eqb j k then 0%nat else occ j l.
Proof.
  induction l as [|i l IH].
  - destruct (Nat.eqb j k); reflexivity.
  - unfold without in *. cbn [filter].
    destruct (Nat.eqb i k) eqn:Hik; cbn [negb].
    + rewrite IH, occ_cons. apply Nat.eqb_eq in Hik. subst i.
      rewrite (Nat.eqb_sym k j). destruct (Nat.eqb j k); reflexivity.
    + rewrite !occ_cons, IH. destruct (Nat.eqb j k) eqn:Hjk; [|reflexivity].
      apply Nat.eqb_eq in Hjk. subst j. rewrite Hik. reflexivity.
Qed.

Lemma map_without {A : Type} (f : A -> nat) (k : nat) (l : list A) :
  map f (filter (fun a => negb (Nat.eqb (f a) k)) l) = without k (map f l).
Proof.
  induction l as [|a l IH]; [reflexivity|]. simpl.
  destruct (Nat.eqb (f a) k); simpl; rewrite IH; reflexivity.
Qed.

Lemma existsb_occ {A : Type} (f : A -> nat) (j : nat) (l : list A) :
  existsb (fun a => Nat.eqb (f a) j) l = negb (Nat.eqb (occ j (map f l)) 0).
Proof.
  induction l as [|a l IH]; [reflexivity|]. simpl.
  rewrite occ_cons, IH. destruct (Nat.eqb (f a) j); reflexivity.
Qed.

Lemma set_add_ids (v : Video) (c : list Video) :
  map vid (set_add v c)
  = if Nat.eqb (occ (vid v) (map vid c)) 0 then map vid c ++ [vid v] else map vid c.
Proof.
  unfold set_add, set_has. rewrite existsb_occ.
  destruct (Nat.eqb (occ (vid v) (map vid c)) 0); simpl; [|reflexivity].
  rewrite map_app. reflexivity.
Qed.

Lemma find_activation_occ (j : nat) (l : list Activation) (a : Activation) :
  find_activation j l = Some a ->
  vid (act_video a) = j
  /\ (1 <= occ j (map (fun a => vid (act_video a)) l))%nat.
Proof.
  unfold find_activation.
  induction l as [|b l IH]; intros H; [discriminate|].
  cbn [find map] in *. rewrite occ_cons.
  destruct (Nat.eqb (vid (act_video b)) j) eqn:Hb.
  - injection H as ->. apply Nat.eqb_eq in Hb. split; [exact Hb|lia].
  - destruct (IH H) as [Hj Hocc]. split; [exact Hj|lia].
Qed.

(** Unfold the ledger of a world down to the lists of identities. *)
Ltac open_ledger :=
  unfold ledger, queue_ids, inflight_ids, suspended_ids, finished_ids, failed_ids in *.

Lemma ltb_succ_other (j n : nat) :
  n <> j -> (j <? S n)%nat = (j <? n)%nat.
Proof.
  intros Hn. destruct (j <? n)%nat eqn:Hlt.
  - apply Nat.ltb_lt in Hlt. apply Nat.ltb_lt. lia.
  - apply Nat.ltb_ge in Hlt. apply Nat.ltb_ge. lia.
Qed.

Lemma ledger_of_admit (synced : bool) (j : nat) q p s f x n :
  ledger_of synced j q p s f x n -> ledger_of synced j (q ++ [n]) p s f x (S n).
Proof.
  unfold ledger_of. rewrite occ_app, occ_cons. rewrite ?occ_nil.
  intros (H1 & H2 & H3).
  destruct (Nat.eqb n j) eqn:Hn.
  - apply Nat.eqb_eq in Hn. subst n.
    assert (Hlt : (j <? j)%nat = false) by (apply Nat.ltb_ge; lia).
    assert (Hlt' : (j <? S j)%nat = true) by (apply Nat.ltb_lt; lia).
    rewrite Hlt in H1, H3. rewrite Hlt'.
    split; [lia|]. split; [lia|]. intros Hs. destruct (H3 Hs). split; lia.
  - apply Nat.eqb_neq in Hn. rewrite (ltb_succ_other j n Hn).
    split; [lia|]. split; [lia|]. intros Hs. destruct (H3 Hs). split; lia.
Qed.

Lemma ledger_of_dispatch (synced : bool) (j : nat) (v : Video) q (c : list Video) s f x n :
  ledger_of synced j (vid v :: q) (map vid c) s f x n ->
  ledger_of synced j q (map vid (set_add v c)) (s ++ [vid v]) f x n.
Proof.
  unfold ledger_of. rewrite set_add_ids, occ_app, !occ_cons. rewrite ?occ_nil.
  intros (H1 & H2 & H3).
  destruct (Nat.eqb (vid v) j) eqn:Hv.
  - apply Nat.eqb_eq in Hv. rewrite Hv.
    assert (Hp : occ j (map vid c) = 0%nat) by (destruct (j <? n)%nat; lia).
    rewrite Hp. simpl (Nat.eqb 0 0). cbv iota.
    rewrite occ_app, occ_cons, Nat.eqb_refl, Hp. rewrite ?occ_nil.
    split; [lia|]. split; [destruct (j <? n)%nat; lia|].
    intros Hs. destruct (H3 Hs). split; lia.
  - destruct (Nat.eqb (occ (vid v) (map vid c)) 0).
    + rewrite occ_app, occ_cons, Hv. rewrite ?occ_nil.
      split; [lia|]. split; [lia|]. intros Hs. destruct (H3 Hs). split; lia.
    + split; [lia|]. split; [lia|]. intros Hs. destruct (H3 Hs). split; lia.
Qed.

Lemma ledger_of_resolve (synced : bool) (j k : nat) q p s f x n :
  (1 <= occ k s)%nat ->
  ledger_of synced j q p s f x n ->
  ledger_of synced j q (without k p) (without k s) (f ++ [k]) x n.
Proof.
  unfold ledger_of. rewrite !occ_without, occ_app, occ_cons. rewrite ?occ_nil.
  intros Hk (H1 & H2 & H3).
  rewrite (Nat.eqb_sym k j).
  destruct (Nat.eqb j k) eqn:Hjk.
  - apply Nat.eqb_eq in Hjk. subst k.
    destruct (j <? n)%nat; [|lia].
    split; [lia|]. split; [lia|]. intros Hs. destruct (H3 Hs). split; lia.
  - split; [lia|]. split; [lia|]. intros Hs. destruct (H3 Hs). split; lia.
Qed.

Lemma ledger_of_reject (synced : bool) (j k : nat) q p s f x n :
  (1 <= occ k s)%nat ->
  ledger_of synced j q p s f x n ->
  ledger_of synced j q (without k p) (without k s) f (x ++ [k]) n.
Proof.
  unfold ledger_of. rewrite !occ_without, occ_app, occ_cons. rewrite ?occ_nil.
  intros Hk (H1 & H2 & H3).
  rewrite (Nat.eqb_sym k j).
  destruct (Nat.eqb j k) eqn:Hjk.
  - apply Nat.eqb_eq in Hjk. subst k.
    destruct (j <? n)%nat; [|lia].
    split; [lia|]. split; [lia|]. intros Hs. destruct (H3 Hs). split; lia.
  - split; [lia|]. split; [lia|]. intros Hs. destruct (H3 Hs). split; lia.
Qed.

(** A job that leaves the in-flight set and the suspended calls unrecorded:
    the ledger no longer counts it anywhere. *)
Lemma ledger_of_drop (j k : nat) q p s f x n :
  ledger_of false j q p s f x n ->
  ledger_of false j q (without k p) (without k s) f x n.
Proof.
  unfold ledger_of. rewrite !occ_without.
  intros (H1 & H2 & _).
  destruct (Nat.eqb j k); (split; [lia|]); (split; [lia|]); discriminate.
Qed.

Lemma ledger_of_clear (j : nat) q p s f x n :
  ledger_of false j q p s f x n -> ledger_of false j q [] s f x n.
Proof.
  unfold ledger_of. intros (H1 & H2 & H3). rewrite ?occ_nil.
  split; [lia|]. split; [lia|]. discriminate.
Qed.

Lemma ledger_frame (synced : bool) (j : nat) (w w' : World) :
  queue (enc w') = queue (enc w) ->
  currentlyProcessing (enc w') = currentlyProcessing (enc w) ->
  failedVideos (enc w') = failedVideos (enc w) ->
  finishedVideos (enc w') = finishedVideos (enc w) ->
  suspended w' = suspended w ->
  nextId w' = nextId w ->
  ledger synced j w -> ledger synced j w'.
Proof.
  intros Hq Hp Hx Hf Hs Hn H. open_ledger. rewrite Hq, Hp, Hx, Hf, Hs, Hn. exact H.
Qed.


Lemma ledger_admit (synced : bool) (j : nat) (path : string) (w : World) :
  ledger synced j w -> ledger synced j (snd (addVideo path AccessOk w)).
Proof.
  intros H. open_ledger. simpl. rewrite map_app. simpl. apply ledger_of_admit, H.
Qed.

Lemma ledger_begin (synced : bool) (j : nat) (now : Z) (w : World)
    (v : Video) (rest : list Video) :
  queue (enc w) = v :: rest ->
  ledger synced j w ->
  ledger synced j (processVideo_begin now v (with_enc (set_queue rest (enc w)) w)).
Proof.
  intros Hq H. open_ledger. simpl. rewrite map_app. simpl. apply ledger_of_dispatch.
  rewrite Hq in H. exact H.
Qed.

Lemma ledger_resolve (synced : bool) (j k : nat) (now : Z) (i o : option Z)
    (w : World) (a : Activation) :
  find_activation k (suspended w) = Some a ->
  ledger synced j w -> ledger synced j (processVideo_resolve k now i o w).
Proof.
  intros Ha H. unfold processVideo_resolve. rewrite Ha.
  destruct (find_activation_occ _ _ _ Ha) as [Hj Hocc].
  open_ledger. simpl. unfold set_delete, remove_activation.
  rewrite (map_without vid), (map_without (fun a => vid (act_video a))), map_app.
  simpl. apply ledger_of_resolve; [rewrite Hj; exact Hocc | exact H].
Qed.

Lemma ledger_reject (synced : bool) (j k : nat) (error : VideoError)
    (w : World) (a : Activation) :
  find_activation k (suspended w) = Some a ->
  ledger synced j w -> ledger synced j (processVideo_reject k (RejectedWith error) w).
Proof.
  intros Ha H. unfold processVideo_reject. rewrite Ha.
  destruct (find_activation_occ _ _ _ Ha) as [Hj Hocc].
  open_ledger. simpl. unfold set_delete, remove_activation.
  rewrite (map_without vid), (map_without (fun a => vid (act_video a))), map_app.
  simpl. apply ledger_of_reject; [rewrite Hj; exact Hocc | exact H].
Qed.

Lemma ledger_drop (j k : nat) (w : World) (a : Activation) :
  find_activation k (suspended w) = Some a ->
  ledger false j w -> ledger false j (processVideo_reject k RejectedNullish w).
Proof.
  intros Ha H. unfold processVideo_reject. rewrite Ha.
  open_ledger. simpl. unfold set_delete, remove_activation.
  rewrite (map_without vid), (map_without (fun a => vid (act_video a))).
  apply ledger_of_drop, H.
Qed.

Lemma ledger_clear (j : nat) (w : World) :
  ledger false j w -> ledger false j (with_enc (set_currentlyProcessing [] (enc w)) w).
Proof.
  intros H. open_ledger. simpl. apply (ledger_of_clear j _ _ _ _ _ _ H).
Qed.






Lemma constructor_ledger (synced : bool) (j : nat) (cpus : Z) (options : Options) :
  ledger synced j (constructor cpus options).
Proof.
  unfold ledger, ledger_of. simpl. rewrite !occ_nil.
  split; [lia|]. split; [lia|]. intros _. split; lia.
Qed.

(** The ledgers of all jobs and the count of videos, along runs. *)

Lemma length_without (k : nat) (l : list nat) :
  (length (without k l) + occ k l = length l)%nat.
Proof.
  induction l as [|i l IH]; [reflexivity|].
  unfold without in *. cbn [filter]. rewrite occ_cons.
  destruct (Nat.eqb i k); cbn [negb length]; lia.
Qed.

Lemma audited_frame (synced : bool) (w w' : World) :
  queue (enc w') = queue (enc w) ->
  currentlyProcessing (enc w') = currentlyProcessing (enc w) ->
  failedVideos (enc w') = failedVideos (enc w) ->
  finishedVideos (enc w') = finishedVideos (enc w) ->
  suspended w' = suspended w ->
  nextId w' = nextId w ->
  added (log w') = added (log w) ->
  audited synced w -> audited synced w'.
Proof.
  intros Hq Hp Hx Hf Hs Hn Ha (HL & HA & HN). split; [|split].
  - intros j. apply (ledger_frame _ _ w); auto.
  - unfold accounted in *. rewrite Hq, Hx, Hf, Hs, Hn. exact HA.
  - rewrite Hn, Ha. exact HN.
Qed.

Lemma audited_core (synced : bool) (w w' : World) :
  core w' = core w -> audited synced w -> audited synced w'.
Proof.
  intros Hc.
  destruct (core_fields _ _ Hc) as (Hq & Hp & Hx & Hf & _ & _ & Hs & Hn & Ha & _).
  apply audited_frame; assumption.
Qed.

(** Taking the one suspended call of a job off the list. *)
Lemma suspended_less_one (synced : bool) (k : nat) (w : World) (a : Activation) :
  find_activation k (suspended w) = Some a ->
  ledger synced k w ->
  S (length (remove_activation (vid (act_video a)) (suspended w))) = length (suspended w).
Proof.
  intros Ha (H1 & _).
  destruct (find_activation_occ _ _ _ Ha) as [Hj Hocc].
  unfold suspended_ids in H1.
  pose proof (length_without k (map (fun a => vid (act_video a)) (suspended w))) as Hw.
  unfold remove_activation. rewrite Hj.
  rewrite <- (length_map (fun a => vid (act_video a)) (filter _ (suspended w))),
    (map_without (fun a => vid (act_video a))).
  rewrite length_map in Hw. destruct (k <? nextId w)%nat; lia.
Qed.

Lemma exec_audited (synced : bool) (op : Op) (w : World) :
  (synced = true -> keeps_jobs op) ->
  audited synced w -> audited synced (exec op w).
Proof.
  intros Hop.
  assert (Hcore : forall w1 w2, core w2 = core w1 -> audited synced w1 -> audited synced w2)
    by (intros w1 w2; apply audited_core).
  assert (Hadmit : forall path w1,
             audited synced w1 -> audited synced (snd (addVideo path AccessOk w1))).
  { intros path w1 (HL & HA & HN). split; [|split].
    - intros j. apply ledger_admit, HL.
    - unfold accounted in *. simpl. rewrite length_app. simpl.
      destruct HA as [HA1 HA2]. split; [lia|]. intros Hs. specialize (HA2 Hs). lia.
    - simpl. rewrite added_app, length_app. simpl. lia. }
  assert (Hstart : forall now w1,
             audited synced w1 ->
             audited synced
               (with_enc (set_metrics (set_startTime now (metrics (enc w1))) (enc w1)) w1))
    by (intros now w1; apply audited_frame; reflexivity).
  assert (Hbegin : forall now w1 v rest,
             set_size (currentlyProcessing (enc w1)) < maxConcurrentJobs (enc w1) ->
             queue (enc w1) = v :: rest ->
             audited synced w1 ->
             audited synced
               (processVideo_begin now v (with_enc (set_queue rest (enc w1)) w1))).
  { intros now w1 v rest _ Hq (HL & HA & HN). split; [|split].
    - intros j. apply ledger_begin; [exact Hq | apply HL].
    - unfold accounted in *. simpl. rewrite Hq in HA. rewrite length_app. simpl in *.
      destruct HA as [HA1 HA2]. split; [lia|]. intros Hs. specialize (HA2 Hs). lia.
    - simpl. rewrite added_app. simpl. rewrite app_nil_r. exact HN. }
  assert (Hresolve : forall j now i o w1 a,
             find_activation j (suspended w1) = Some a ->
             audited synced w1 -> audited synced (processVideo_resolve j now i o w1)).
  { intros j now i o w1 a Ha (HL & HA & HN). split; [|split].
    - intros k. apply (ledger_resolve _ _ _ _ _ _ _ a Ha), HL.
    - pose proof (suspended_less_one _ _ _ _ Ha (HL j)) as Hless.
      unfold accounted, processVideo_resolve in *. rewrite Ha. simpl.
      rewrite length_app. simpl.
      destruct HA as [HA1 HA2]. split; [lia|]. intros Hs. specialize (HA2 Hs). lia.
    - unfold processVideo_resolve. rewrite Ha. simpl. rewrite added_app. simpl.
      rewrite app_nil_r. exact HN. }
  assert (Hreject : forall j error w1 a,
             find_activation j (suspended w1) = Some a ->
             audited synced w1 ->
             audited synced (processVideo_reject j (RejectedWith error) w1)).
  { intros j error w1 a Ha (HL & HA & HN). split; [|split].
    - intros k. apply (ledger_reject _ _ _ _ _ a Ha), HL.
    - pose proof (suspended_less_one _ _ _ _ Ha (HL j)) as Hless.
      unfold accounted, processVideo_reject in *. rewrite Ha. simpl.
      rewrite length_app. simpl.
      destruct HA as [HA1 HA2]. split; [lia|]. intros Hs. specialize (HA2 Hs). lia.
    - unfold processVideo_reject. rewrite Ha. simpl. rewrite !added_app. simpl.
      rewrite !app_nil_r. exact HN. }
  assert (Hmetrics : forall h w1, audited synced w1 -> audited synced (updateMetrics h w1))
    by (intros h w1; apply audited_frame; reflexivity).
  assert (Hcheck : forall h w1, audited synced w1 -> audited synced (checkMemoryUsage h w1)).
  { intros h w1. unfold checkMemoryUsage.
    destruct (memoryThreshold (enc w1) <? h); [|auto].
    destruct (1 <? maxConcurrentJobs (enc w1));
      apply audited_frame; simpl; rewrite ?added_app; simpl; rewrite ?app_nil_r;
      reflexivity. }
  destruct synced.
  - apply exec_rule_keeping; auto.
  - apply exec_rule; auto.
    + intros j w1 a Ha (HL & HA & HN). split; [|split].
      * intros k. apply (ledger_drop _ _ _ a Ha), HL.
      * pose proof (suspended_less_one _ _ _ _ Ha (HL j)) as Hless.
        unfold accounted, processVideo_reject in *. rewrite Ha. simpl.
        destruct HA as [HA1 _]. split; [lia|discriminate].
      * unfold processVideo_reject. rewrite Ha. simpl. rewrite !added_app. simpl.
        rewrite !app_nil_r. exact HN.
    + intros w1 (HL & HA & HN). split; [|split]; [|exact HA|exact HN].
      intros j. apply ledger_clear, HL.
Qed.

Lemma run_audited (synced : bool) (ops : list Op) (cpus : Z) (options : Options) :
  (synced = true -> forall op, In op ops -> keeps_jobs op) ->
  audited synced (run ops (constructor cpus options)).
Proof.
  induction ops as [|op ops IH] using rev_ind; intros Hops.
  - split; [|split].
    + intros j. apply constructor_ledger.
    + split; [simpl; lia | reflexivity].
    + reflexivity.
  - rewrite run_snoc. apply exec_audited.
    + intros Hs. apply (Hops Hs), in_or_app. right. left. reflexivity.
    + apply IH. intros Hs op' Hin. apply (Hops Hs), in_or_app. left. exact Hin.
Qed.

Lemma keeps_jobs_all (ops : list Op) :
  ~ In OpStopEnd ops -> (forall k, ~ In (OpReject k RejectedNullish) ops) ->
  forall op, In op ops -> keeps_jobs op.
Proof.
  intros Hstop Hnull op Hin. split.
  - intros ->. contradiction.
  - intros k ->. apply (Hnull k). exact Hin.
Qed.



(** ** The running mean of processing time *)

Lemma inject_Z_nonzero (n : Z) : n <> 0 -> ~ (inject_Z n == 0)%Q.
Proof.
  intros Hn H. apply Hn. unfold Qeq in H. simpl in H. lia.
Qed.

Lemma updateProcessingMetrics_count i x m :
  totalFilesProcessed (updateProcessingMetrics i x m) = totalFilesProcessed m + 1.
Proof. reflexivity. Qed.

Lemma updateProcessingMetrics_average i x m :
  0 <= totalFilesProcessed m ->
  (averageProcessingTime (updateProcessingMetrics i x m)
     * inject_Z (totalFilesProcessed m + 1)
   == averageProcessingTime m * inject_Z (totalFilesProcessed m) + x)%Q.
Proof.
  intros Hc. unfold updateProcessingMetrics; simpl.
  rewrite Z.add_simpl_r.
  field. apply inject_Z_nonzero. lia.
Qed.

Lemma metrics_after_invariant jobs : forall m s,
  0 <= totalFilesProcessed m ->
  (averageProcessingTime m * inject_Z (totalFilesProcessed m) == s)%Q ->
  totalFilesProcessed (metrics_after jobs m)
    = totalFilesProcessed m + Z.of_nat (length jobs)
  /\ (averageProcessingTime (metrics_after jobs m)
        * inject_Z (totalFilesProcessed (metrics_after jobs m))
      == s + Qsum (map snd jobs))%Q.
Proof.
  induction jobs as [|[i x] jobs IH]; intros m s Hc Hs.
  - simpl. split; [lia|]. rewrite Hs. unfold Qsum; simpl. ring.
  - unfold metrics_after in *. cbn [fold_left fst snd].
    destruct (IH (updateProcessingMetrics i x m) (s + x)%Q) as [IH1 IH2].
    + rewrite updateProcessingMetrics_count. lia.
    + rewrite updateProcessingMetrics_count, updateProcessingMetrics_average by exact Hc.
      rewrite Hs. reflexivity.
    + split.
      * rewrite IH1, updateProcessingMetrics_count.
        change (length ((i, x) :: jobs)) with (S (length jobs)). lia.
      * rewrite IH2. unfold Qsum. cbn [map fold_right snd]. ring.
Qed.


Lemma Qsum_snoc (l : list Q) (x : Q) : (Qsum (l ++ [x]) == Qsum l + x)%Q.
Proof.
  unfold Qsum. induction l as [|y l IH]; simpl.
  - ring.
  - rewrite IH. ring.
Qed.


Lemma exec_mean_kept (op : Op) (w : World) : mean_kept w -> mean_kept (exec op w).
Proof.
  apply exec_rule; try (intros; assumption).
  - intros w1 w2 Hc H. unfold mean_kept, finished_times in *.
    destruct (core_fields _ _ Hc) as (_ & _ & _ & -> & _ & -> & _). exact H.
  - intros j now i o w1 a Ha H. unfold processVideo_resolve. rewrite Ha.
    destruct H as [Hc Hs]. unfold mean_kept, finished_times in *. cbn zeta in *.
    cbn [enc metrics finishedVideos processVideo_finally say with_enc with_suspended
           set_metrics set_finishedVideos set_currentlyProcessing].
    rewrite updateProcessingMetrics_count, length_app, map_app. cbn [length map].
    split; [lia|].
    rewrite updateProcessingMetrics_average by lia.
    rewrite Qsum_snoc, Hs. reflexivity.
  - intros j error w1 a Ha H. unfold processVideo_reject. rewrite Ha. exact H.
  - intros h w1 H. unfold checkMemoryUsage.
    destruct (memoryThreshold (enc w1) <? h); [|exact H].
    destruct (1 <? maxConcurrentJobs (enc w1)); exact H.
  - intros j w1 a Ha H. unfold processVideo_reject. rewrite Ha. exact H.
Qed.

Lemma run_mean_kept (ops : list Op) (w : World) : mean_kept w -> mean_kept (run ops w).
Proof.
  intros H. induction ops as [|op ops IH] using rev_ind; [exact H|].
  rewrite run_snoc. apply exec_mean_kept, IH.
Qed.

(** C9: after the successes of one or more jobs, counted from fresh
    metrics, the stored count is their number and the stored average is
    the arithmetic mean of their processing times; the update the code
    makes equals the specification's [mean + (x - mean) / n]; and in every
    run of a fresh encoder the stored average is the mean of the
    processing times on the finished list. *)
Theorem C9_running_mean : forall (job : option Z * Q) (jobs : list (option Z * Q)),
  let all := job :: jobs in
  let m := metrics_after all emptyMetrics in
  totalFilesProcessed m = Z.of_nat (length all)
  /\ (averageProcessingTime m
      == Qsum (map snd all) / inject_Z (Z.of_nat (length all)))%Q
  /\ (forall (m0 : Metrics) (inputSize : option Z) (x : Q),
        0 <= totalFilesProcessed m0 ->
        (averageProcessingTime (updateProcessingMetrics inputSize x m0)
         == spec_incremental_mean (averageProcessingTime m0) x
              (totalFilesProcessed m0 + 1))%Q)
  /\ (forall (ops : list Op) (cpus : Z) (options : Options),
        let e := enc (run ops (constructor cpus options)) in
        totalFilesProcessed (metrics e) = Z.of_nat (length (finishedVideos e))
        /\ (finishedVideos e <> [] ->
            (averageProcessingTime (metrics e)
             == Qsum (finished_times e)
                / inject_Z (Z.of_nat (length (finishedVideos e))))%Q)).
Proof.
  intros job jobs all m.
  destruct (metrics_after_invariant all emptyMetrics (inject_Z 0)) as [Hc Hs].
  - simpl. lia.
  - simpl. ring.
  - fold m in Hc, Hs. simpl (totalFilesProcessed emptyMetrics) in Hc.
    rewrite Z.add_0_l in Hc.
    split; [exact Hc|]. split; [|split].
    + rewrite Hc in Hs.
      assert (Hn : ~ (inject_Z (Z.of_nat (length all)) == 0)%Q).
      { apply inject_Z_nonzero. unfold all. simpl length. lia. }
      rewrite <- (Qdiv_mult_l (averageProcessingTime m) _ Hn).
      rewrite Hs. apply Qdiv_comp; [ring | reflexivity].
    + intros m0 i x H0. unfold updateProcessingMetrics, spec_incremental_mean; simpl.
      rewrite Z.add_simpl_r.
      assert (Hn : ~ (inject_Z (totalFilesProcessed m0 + 1) == 0)%Q)
        by (apply inject_Z_nonzero; lia).
      rewrite inject_Z_plus in *. field. exact Hn.
    + intros ops cpus options e.
      destruct (run_mean_kept ops (constructor cpus options)) as [Kc Ks].
      { split; [reflexivity|]. simpl. unfold Qsum. simpl. ring. }
      cbn zeta in Kc, Ks. fold e in Kc, Ks.
      split; [exact Kc|]. intros Hne.
      assert (Hn : ~ (inject_Z (Z.of_nat (length (finishedVideos e))) == 0)%Q).
      { apply inject_Z_nonzero. destruct (finishedVideos e); [contradiction|].
        simpl length. lia. }
      rewrite Kc in Ks.
      rewrite <- (Qdiv_mult_l (averageProcessingTime (metrics e)) _ Hn).
      rewrite Ks. reflexivity.
Qed.

(** ** MetadataCache *)

Module CacheFacts.

Import MetadataCache.

Section WithValue.

Variable V : Type.

Implicit Types (m : JsMap V) (c : t V) (k : string) (v : V).

Lemma map_has_In k m : map_has k m = true <-> In k (map fst m).
Proof.
  unfold map_has. rewrite existsb_exists, in_map_iff. split.
  - intros (e & Hin & He). apply String.eqb_eq in He. exists e. auto.
  - intros (e & He & Hin). exists e. split; [exact Hin|]. apply String.eqb_eq, He.
Qed.

Lemma map_delete_keys k m : map fst (map_delete k m)
  = filter (fun k' => negb (String.eqb k' k)) (map fst m).
Proof.
  induction m as [|[k' v'] m IH]; [reflexivity|]. simpl.
  destruct (String.eqb k' k); simpl; rewrite IH; reflexivity.
Qed.

Lemma map_delete_length k m : (length (map_delete k m) <= length m)%nat.
Proof. apply filter_length_le. Qed.

Lemma map_delete_absent k m : ~ In k (map fst m) -> map_delete k m = m.
Proof.
  induction m as [|[k' v'] m IH]; intros Hn; [reflexivity|]. simpl in *.
  destruct (String.eqb k' k) eqn:He.
  - apply String.eqb_eq in He. exfalso. apply Hn. left. exact He.
  - simpl. rewrite IH; [reflexivity|]. intros Hin. apply Hn. right. exact Hin.
Qed.

Lemma map_delete_not_In k m : ~ In k (map fst (map_delete k m)).
Proof.
  rewrite map_delete_keys, filter_In. intros [_ H].
  rewrite String.eqb_refl in H. discriminate.
Qed.

Lemma map_delete_present k m :
  In k (map fst m) -> (length (map_delete k m) < length m)%nat.
Proof.
  induction m as [|[k' v'] m IH]; intros Hin; [contradiction|]. simpl in *.
  destruct (String.eqb k' k) eqn:He; simpl.
  - pose proof (map_delete_length k m). lia.
  - destruct Hin as [Hk|Hin]; [apply String.eqb_neq in He; contradiction|].
    specialize (IH Hin). lia.
Qed.

Lemma map_set_absent k v m : ~ In k (map fst m) -> map_set k v m = m ++ [(k, v)].
Proof.
  induction m as [|[k' v'] m IH]; intros Hn; [reflexivity|]. simpl in *.
  destruct (String.eqb k' k) eqn:He.
  - apply String.eqb_eq in He. exfalso. apply Hn. left. exact He.
  - rewrite IH; [reflexivity|]. intros Hin. apply Hn. right. exact Hin.
Qed.

Lemma map_set_keys k v m :
  map fst (map_set k v m) = if map_has k m then map fst m else map fst m ++ [k].
Proof.
  induction m as [|[k' v'] m IH]; [reflexivity|]. unfold map_has in *. simpl.
  destruct (String.eqb k' k) eqn:He; simpl.
  - apply String.eqb_eq in He. subst k'. reflexivity.
  - rewrite IH. destruct (existsb _ m); reflexivity.
Qed.

Lemma map_set_length k v m : (length (map_set k v m) <= S (length m))%nat.
Proof.
  rewrite <- (length_map fst), map_set_keys.
  destruct (map_has k m); rewrite ?length_app, !length_map; simpl; lia.
Qed.

Lemma map_set_NoDup k v m : NoDup (map fst m) -> NoDup (map fst (map_set k v m)).
Proof.
  intros H. rewrite map_set_keys. destruct (map_has k m) eqn:Hh; [exact H|].
  apply NoDup_app; [exact H | repeat constructor; intros [] |].
  intros k' Hin [<-|[]].
  apply map_has_In in Hin. congruence.
Qed.

Lemma map_delete_NoDup k m : NoDup (map fst m) -> NoDup (map fst (map_delete k m)).
Proof. intros H. rewrite map_delete_keys. apply NoDup_filter, H. Qed.

Lemma map_get_has k m v : map_get k m = Some v -> map_has k m = true.
Proof.
  unfold map_get, map_has. destruct (find _ m) as [e|] eqn:Hf; [|discriminate].
  intros _. apply existsb_exists. exists e. apply (find_some _ _ Hf).
Qed.

Lemma get_bounded filePath stat c : bounded c -> bounded (snd (get filePath stat c)).
Proof.
  intros [Hb Hn]. unfold get. destruct stat as [stats|]; [|split; assumption].
  destruct (map_has _ (cache c)) eqn:Hh; [|split; assumption].
  destruct (map_get _ (cache c)) as [value|]; [|split; assumption].
  unfold bounded, entries, keys in *. simpl.
  split.
  - apply map_has_In in Hh. apply map_delete_present in Hh.
    pose proof (map_set_length (cacheKey filePath stats) value
                  (map_delete (cacheKey filePath stats) (cache c))). lia.
  - apply map_set_NoDup, map_delete_NoDup, Hn.
Qed.

Lemma set_bounded filePath metadata stat c :
  1 <= maxSize c -> bounded c -> bounded (set filePath metadata stat c).
Proof.
  intros H1 [Hb Hn]. unfold set, bounded, entries, keys in *.
  destruct (maxSize c <=? Z.of_nat (length (cache c))) eqn:Hfull.
  - apply Z.leb_le in Hfull.
    destruct (cache c) as [|[k0 v0] rest] eqn:Hc; [simpl in Hfull; lia|].
    cbn [map_first_key].
    assert (Hrest : map_delete k0 ((k0, v0) :: rest) = rest).
    { simpl. rewrite String.eqb_refl. simpl. apply map_delete_absent.
      simpl in Hn. inversion Hn. assumption. }
    rewrite Hrest. simpl in Hb, Hn. inversion Hn; subst.
    destruct stat as [stats|]; simpl.
    + split; [|apply map_set_NoDup; assumption].
      pose proof (map_set_length (cacheKey filePath stats) metadata rest). lia.
    + split; [lia|assumption].
  - apply Z.leb_gt in Hfull.
    destruct stat as [stats|]; simpl.
    + split; [|apply map_set_NoDup; assumption].
      pose proof (map_set_length (cacheKey filePath stats) metadata (cache c)). lia.
    + split; [lia|assumption].
Qed.

Lemma exec_maxSize op c : maxSize (exec op c) = maxSize c.
Proof.
  destruct op as [filePath stat|filePath metadata stat|]; simpl; [| |reflexivity].
  - unfold get. destruct stat; [|reflexivity].
    destruct (map_has _ _); [|reflexivity].
    destruct (map_get _ _); reflexivity.
  - unfold set.
    destruct (maxSize c <=? Z.of_nat (length (cache c)));
      [destruct (map_first_key (cache c))|]; destruct stat; reflexivity.
Qed.

Lemma exec_bounded op c : 1 <= maxSize c -> bounded c -> bounded (exec op c).
Proof.
  intros H1 Hb. destruct op as [filePath stat|filePath metadata stat|]; simpl.
  - apply get_bounded, Hb.
  - apply set_bounded; assumption.
  - unfold bounded, entries, keys. simpl. split; [lia|constructor].
Qed.

Lemma run_bounded ops c :
  1 <= maxSize c -> bounded c ->
  maxSize (run ops c) = maxSize c /\ bounded (run ops c).
Proof.
  intros H1 Hb. induction ops as [|op ops [IHm IHb]] using rev_ind; [split; auto|].
  unfold run in *. rewrite fold_left_app. simpl.
  rewrite exec_maxSize, IHm. split; [reflexivity|].
  apply exec_bounded; [rewrite IHm; exact H1 | exact IHb].
Qed.

End WithValue.

End CacheFacts.

(** C10, for a capacity of at least 1: after any series of [get], [set]
    and [clear] on a new cache the capacity is unchanged, the cache holds
    at most that many entries and its keys are distinct; a [set] on a full
    cache drops the first entry of the map (the one least recently set or
    got) and then sets the key in what is left; a [get] that finds its key
    moves the entry to the end. *)
Theorem C10_cache_bounded_lru :
  forall (V : Type) (ops : list (MetadataCache.CacheOp V)) (capacity : option Z),
  1 <= MetadataCache.maxSize (@MetadataCache.constructor V capacity) ->
  let c := MetadataCache.run ops (MetadataCache.constructor capacity) in
  MetadataCache.maxSize c = MetadataCache.maxSize (@MetadataCache.constructor V capacity)
  /\ Z.of_nat (MetadataCache.entries c) <= MetadataCache.maxSize c
  /\ NoDup (MetadataCache.keys c)
  /\ (forall filePath metadata stats,
        MetadataCache.maxSize c <= Z.of_nat (MetadataCache.entries c) ->
        exists k0 v0 rest,
          MetadataCache.cache c = (k0, v0) :: rest
          /\ MetadataCache.cache (MetadataCache.set filePath metadata (Some stats) c)
             = MetadataCache.map_set (MetadataCache.cacheKey filePath stats) metadata rest
          /\ MetadataCache.cache (MetadataCache.set filePath metadata None c) = rest)
  /\ (forall filePath stats value,
        MetadataCache.map_get (MetadataCache.cacheKey filePath stats) (MetadataCache.cache c)
        = Some value ->
        MetadataCache.get filePath (Some stats) c
        = (Some value,
           MetadataCache.mkCache
             (MetadataCache.map_delete (MetadataCache.cacheKey filePath stats)
                (MetadataCache.cache c)
              ++ [(MetadataCache.cacheKey filePath stats, value)])
             (MetadataCache.maxSize c))).
Proof.
  intros V ops capacity H1 c.
  destruct (CacheFacts.run_bounded V ops (MetadataCache.constructor capacity) H1)
    as [Hm [Hb Hn]].
  { unfold MetadataCache.bounded, MetadataCache.entries, MetadataCache.keys.
    destruct capacity; simpl in *; split; try lia; constructor. }
  fold c in Hm, Hb, Hn.
  split; [exact Hm|]. split; [exact Hb|]. split; [exact Hn|]. split.
  - intros filePath metadata stats Hfull.
    unfold MetadataCache.entries, MetadataCache.keys in *.
    destruct (MetadataCache.cache c) as [|[k0 v0] rest] eqn:Hc.
    { simpl in Hfull. rewrite Hm in Hfull. lia. }
    exists k0, v0, rest. split; [reflexivity|].
    assert (Hrest : MetadataCache.map_delete k0 ((k0, v0) :: rest) = rest).
    { simpl. rewrite String.eqb_refl. simpl. apply CacheFacts.map_delete_absent.
      simpl in Hn. inversion Hn. assumption. }
    unfold MetadataCache.set. rewrite Hc.
    apply Z.leb_le in Hfull. rewrite Hfull.
    cbn [MetadataCache.map_first_key]. rewrite Hrest. split; reflexivity.
  - intros filePath stats value Hget.
    unfold MetadataCache.get.
    rewrite (CacheFacts.map_get_has V _ _ _ Hget), Hget.
    rewrite CacheFacts.map_set_absent by apply CacheFacts.map_delete_not_In.
    reflexivity.
Qed.

Lemma C10_cache_bounded_lru_witness :
  1 <= MetadataCache.maxSize (@MetadataCache.constructor nat (Some 2))
  /\ Z.of_nat
       (MetadataCache.entries
          (MetadataCache.run
             [MetadataCache.CSet "a" 1%nat (Some (MetadataCache.mkStats 5 10));
              MetadataCache.CSet "b" 2%nat (Some (MetadataCache.mkStats 5 10));
              MetadataCache.CSet "c" 3%nat (Some (MetadataCache.mkStats 5 10))]
             (MetadataCache.constructor (Some 2)))) <= 2.
Proof.
  split; [cbv [MetadataCache.maxSize MetadataCache.constructor]; lia|].
  apply (C10_cache_bounded_lru nat
           [MetadataCache.CSet "a" 1%nat (Some (MetadataCache.mkStats 5 10));
            MetadataCache.CSet "b" 2%nat (Some (MetadataCache.mkStats 5 10));
            MetadataCache.CSet "c" 3%nat (Some (MetadataCache.mkStats 5 10))]
           (Some 2)).
  cbv [MetadataCache.maxSize MetadataCache.constructor]; lia.
Defined.

(** C10 as stated fails at capacity 0: one [set] on the new cache finds
    nothing to evict and inserts, leaving one entry. *)
Lemma C10_capacity_zero_exceeded :
  MetadataCache.maxSize
    (MetadataCache.run [MetadataCache.CSet "a" 1%nat (Some (MetadataCache.mkStats 5 10))]
       (MetadataCache.constructor (Some 0))) = 0
  /\ MetadataCache.entries
       (MetadataCache.run [MetadataCache.CSet "a" 1%nat (Some (MetadataCache.mkStats 5 10))]
          (MetadataCache.constructor (Some 0))) = 1%nat.
Proof. split; reflexivity. Qed.


(** * More of the encoder and of the helpers: theorems *)


(** ** The status snapshot accounts for every video *)

Lemma ids_length_le (p s : list nat) :
  (forall j, (occ j p <= occ j s)%nat) -> (forall j, (occ j p <= 1)%nat) ->
  (length p <= length s)%nat.
Proof.
  intros Hps Hp. apply NoDup_incl_length.
  - apply (NoDup_count_occ Nat.eq_dec). exact Hp.
  - intros j Hin. apply (count_occ_In Nat.eq_dec) in Hin.
    apply (count_occ_In Nat.eq_dec). specialize (Hps j). unfold occ in Hps. lia.
Qed.

Lemma ledger_occ_le_1 (synced : bool) (j : nat) (w : World) :
  ledger synced j w ->
  (occ j (suspended_ids w) <= 1)%nat /\ (occ j (inflight_ids w) <= 1)%nat.
Proof.
  intros (H1 & H2 & _). destruct (j <? nextId w)%nat; lia.
Qed.

(** The sum of the four counts of a status against the videos added. *)
Lemma status_sum (synced : bool) (hw : HWAccel) (w : World) :
  audited synced w ->
  let s := getStatus hw (enc w) in
  (st_queue s + st_processing s + st_completed s + st_failed s
   <= length (added (log w)))%nat
  /\ (synced = true ->
      (st_queue s + st_processing s + st_completed s + st_failed s
       = length (added (log w)))%nat).
Proof.
  intros (HL & [HA1 HA2] & HN) s. subst s.
  cbn [getStatus st_queue st_processing st_completed st_failed].
  assert (Hle : (length (currentlyProcessing (enc w)) <= length (suspended w))%nat).
  { rewrite <- (length_map vid), <- (length_map (fun a => vid (act_video a)) (suspended w)).
    apply ids_length_le.
    - intros j. apply (HL j).
    - intros j. apply (ledger_occ_le_1 synced j w (HL j)). }
  split; [lia|]. intros Hs. specialize (HA2 Hs).
  assert (Hge : (length (suspended w) <= length (currentlyProcessing (enc w)))%nat).
  { rewrite <- (length_map vid), <- (length_map (fun a => vid (act_video a)) (suspended w)).
    apply ids_length_le.
    - intros j. destruct (HL j) as (_ & _ & H3). destruct (H3 Hs) as [H3a _].
      unfold inflight_ids, suspended_ids in H3a. lia.
    - intros j. apply (ledger_occ_le_1 synced j w (HL j)). }
  lia.
Qed.

(** X1: between two stretches of any run of a fresh encoder the four
    counts of [getStatus()] add up to at most the number of videos added,
    and to exactly that number as long as no [stop()] has run to its end
    and no [video.process()] has rejected with [null] or [undefined].  A
    listener of [videoFailed] runs inside a stretch, after the failed entry
    is pushed and before the job leaves the in-flight set: what it reads
    counts the failing job both as processing and as failed, one more in
    all than between stretches. *)
Theorem X1_status_accounts_for_every_video :
  forall (ops : list Op) (cpus : Z) (options : Options) (hw : HWAccel),
  let w := run ops (constructor cpus options) in
  let counted := fun e : Encoder =>
    (st_queue (getStatus hw e) + st_processing (getStatus hw e)
     + st_completed (getStatus hw e) + st_failed (getStatus hw e))%nat in
  (counted (enc w) <= length (added (log w)))%nat
  /\ (~ In OpStopEnd ops -> (forall k, ~ In (OpReject k RejectedNullish) ops) ->
      counted (enc w) = length (added (log w)))
  /\ (forall (j : nat) (a : Activation) (error : VideoError),
        find_activation j (suspended w) = Some a ->
        let seen := enc (snd (handleVideoError (act_video a) (RejectedWith error) w)) in
        counted seen = S (counted (enc w))
        /\ (~ In OpStopEnd ops -> (forall k, ~ In (OpReject k RejectedNullish) ops) ->
            counted seen = S (length (added (log w)))
            /\ set_has (currentlyProcessing seen) j = true
            /\ existsb (fun f => Nat.eqb (fail_job f) j) (failedVideos seen) = true)).
Proof.
  intros ops cpus options hw w counted.
  assert (Hany : audited false w)
    by (apply (run_audited false ops cpus options); discriminate).
  assert (Hsync : ~ In OpStopEnd ops -> (forall k, ~ In (OpReject k RejectedNullish) ops) ->
                  audited true w).
  { intros Hstop Hnull. apply (run_audited true ops cpus options). intros _.
    apply keeps_jobs_all; assumption. }
  split; [apply (status_sum false hw w Hany)|].
  split.
  { intros Hstop Hnull. apply (status_sum true hw w (Hsync Hstop Hnull)). reflexivity. }
  intros j a error Ha seen.
  assert (Hseen : counted seen = S (counted (enc w))).
  { subst seen counted. cbn [handleVideoError snd].
    cbn [getStatus st_queue st_processing st_completed st_failed enc say with_enc
           set_failedVideos queue currentlyProcessing finishedVideos failedVideos].
    rewrite length_app. cbn [length]. lia. }
  split; [exact Hseen|].
  intros Hstop Hnull. pose proof (Hsync Hstop Hnull) as HS.
  split; [|split].
  - rewrite Hseen. f_equal. apply (status_sum true hw w HS). reflexivity.
  - destruct (find_activation_occ _ _ _ Ha) as [_ Hocc].
    destruct HS as (HL & _). destruct (HL j) as (_ & _ & H3).
    destruct (H3 eq_refl) as [H3a _]. unfold inflight_ids, suspended_ids in H3a.
    subst seen. cbn [handleVideoError snd enc say with_enc set_failedVideos
                       currentlyProcessing].
    unfold set_has. rewrite existsb_occ.
    destruct (occ j (map vid (currentlyProcessing (enc w)))); [lia|reflexivity].
  - destruct (find_activation_occ _ _ _ Ha) as [Hj _].
    subst seen. cbn [handleVideoError snd enc say with_enc set_failedVideos failedVideos].
    rewrite existsb_app. cbn [existsb fail_job]. rewrite Hj, Nat.eqb_refl.
    rewrite orb_true_r. reflexivity.
Qed.

(** ** Pausing, and what one run of the dispatch loop does *)

Lemma processQueue_idle (now : Z) (w : World) :
  running (enc w) = false \/ paused (enc w) = true \/ shuttingDown (enc w) = true ->
  processQueue now w = (LoopExited, w).
Proof.
  unfold processQueue. cbn [processQueue_loop].
  intros [-> | [-> | ->]]; rewrite ?andb_false_r; reflexivity.
Qed.

(** What [finish] makes of the encoder's fields depends on them alone. *)
Lemma finish_enc (now : Z) (w1 w2 : World) :
  enc w1 = enc w2 -> enc (finish now w1) = enc (finish now w2).
Proof.
  intros He. destruct w1 as [e1 s1 n1 p1 r1 i1 l1], w2 as [e2 s2 n2 p2 r2 i2 l2].
  simpl in He. subst e2. unfold finish, cleanup. simpl.
  destruct (finish_summary now e1); destruct (0 <? length (failedVideos e1))%nat;
    simpl; destruct (performanceInterval e1); reflexivity.
Qed.

(** One run of the dispatch loop reads and writes the encoder's fields
    only: on two worlds with the same encoder it ends the same way and
    leaves the same encoder. *)
Lemma processQueue_loop_enc (now : Z) : forall fuel w1 w2,
  enc w1 = enc w2 ->
  fst (processQueue_loop fuel now w1) = fst (processQueue_loop fuel now w2)
  /\ enc (snd (processQueue_loop fuel now w1)) = enc (snd (processQueue_loop fuel now w2)).
Proof.
  induction fuel as [|fuel IH]; intros w1 w2 He; [split; [reflexivity|exact He]|].
  cbn [processQueue_loop]. rewrite He.
  destruct (running (enc w2) && negb (paused (enc w2)) && negb (shuttingDown (enc w2)));
    [|split; [reflexivity|exact He]].
  destruct ((maxConcurrentJobs (enc w2) <=? set_size (currentlyProcessing (enc w2)))
            || (length (queue (enc w2)) =? 0)%nat).
  - destruct ((length (queue (enc w2)) =? 0)%nat
              && (set_size (currentlyProcessing (enc w2)) =? 0));
      cbn [fst snd]; (split; [reflexivity|]); [apply finish_enc, He | exact He].
  - destruct (queue (enc w2)) as [|v rest]; cbn [shift]; apply IH; reflexivity.
Qed.

Lemma processQueue_enc (now : Z) (w1 w2 : World) :
  enc w1 = enc w2 ->
  enc (snd (processQueue now w1)) = enc (snd (processQueue now w2)).
Proof.
  intros He. unfold processQueue. rewrite He.
  apply processQueue_loop_enc, He.
Qed.

Lemma set_paused_twice (e : Encoder) :
  paused e = false -> set_paused false (set_paused true e) = e.
Proof. destruct e. simpl. intros ->. reflexivity. Qed.

(** X2: on an encoder that is running and not paused, [pause()] passes its
    guard and writes the [paused] flag and no other field, and a run of the
    dispatch loop while paused starts nothing and changes nothing.
    [resume()] then passes its guard and clears the flag.  When no
    in-flight video has a [resume] to await it goes on, in the same stretch,
    to a run of the dispatch loop, so that the encoder ends as one run of
    the loop would have left the encoder from before the pause.  When a
    video's [resume()] is awaited, the encoder is meanwhile as before the
    pause, and the run of the loop follows once the awaited calls are
    fulfilled. *)
Theorem X2_pause_then_resume :
  forall (now later : Z) (has_pause has_resume has_resume' : Video -> bool) (w : World),
  running (enc w) = true -> paused (enc w) = false ->
  let w1 := snd (pause has_pause w) in
  let w2 := snd (resume now has_resume w1) in
  enc w1 = set_paused true (enc w)
  /\ processQueue now w1 = (LoopExited, w1)
  /\ (sweep has_resume (currentlyProcessing (enc w)) [] = None ->
      enc w2 = enc (snd (processQueue now w)))
  /\ (forall passed,
        sweep has_resume (currentlyProcessing (enc w)) [] = Some passed ->
        enc w2 = enc w
        /\ resuming w2 = resuming w1 ++ [passed]
        /\ (sweep has_resume' (currentlyProcessing (enc w)) passed = None ->
            enc (resume_settled (length (resuming w1)) Fulfilled later has_resume' w2)
            = enc (snd (processQueue later w)))).
Proof.
  intros now later has_pause has_resume has_resume' w Hr Hp w1 w2.
  assert (He1 : enc w1 = set_paused true (enc w)).
  { subst w1. unfold pause. rewrite Hr, Hp. cbn [negb orb snd].
    rewrite pause_loop_enc. reflexivity. }
  assert (Hw2 : w2 = resume_loop now has_resume []
                       (say [LogResuming] (with_enc (set_paused false (enc w1)) w1))).
  { subst w2. unfold resume. rewrite He1. reflexivity. }
  assert (He : set_paused false (enc w1) = enc w)
    by (rewrite He1; apply set_paused_twice, Hp).
  split; [exact He1|].
  split; [apply processQueue_idle; right; left; rewrite He1; reflexivity|].
  split.
  - intros Hsweep. rewrite Hw2. unfold resume_loop.
    cbn [enc say with_enc]. rewrite He, Hsweep.
    apply processQueue_enc. simpl. rewrite ?He. reflexivity.
  - intros passed Hsweep.
    assert (Hw2' : w2 = with_resuming (resuming w1 ++ [passed])
                          (say [LogResuming] (with_enc (set_paused false (enc w1)) w1))).
    { rewrite Hw2. unfold resume_loop. cbn [enc say with_enc]. rewrite He, Hsweep.
      reflexivity. }
    split; [rewrite Hw2'; simpl; exact He|].
    split; [rewrite Hw2'; reflexivity|].
    intros Hend.
    unfold resume_settled. rewrite Hw2'. cbn [resuming with_resuming say with_enc].
    rewrite nth_error_snoc. unfold resume_loop.
    cbn [enc say with_enc with_resuming]. rewrite He, Hend.
    apply processQueue_enc. simpl. rewrite ?He. reflexivity.
Qed.

Lemma X2_pause_then_resume_witness :
  running (enc (run [OpAddVideo "a.mkv" AccessOk; OpStart 0; OpAddVideo "b.mkv" AccessOk]
                  (constructor 4 (mkOptions None None None)))) = true
  /\ queue (enc (run [OpAddVideo "a.mkv" AccessOk; OpStart 0; OpAddVideo "b.mkv" AccessOk]
                   (constructor 4 (mkOptions None None None)))) = [mkVideo 1 "b.mkv"]
  /\ currentlyProcessing
       (enc (snd (processQueue 5
                    (run [OpAddVideo "a.mkv" AccessOk; OpStart 0; OpAddVideo "b.mkv" AccessOk]
                       (constructor 4 (mkOptions None None None))))))
     = [mkVideo 0 "a.mkv"; mkVideo 1 "b.mkv"]
  /\ enc (snd (resume 5 (fun _ => false)
                 (snd (pause (fun _ => false)
                         (run [OpAddVideo "a.mkv" AccessOk; OpStart 0;
                               OpAddVideo "b.mkv" AccessOk]
                            (constructor 4 (mkOptions None None None)))))))
     = enc (snd (processQueue 5
                   (run [OpAddVideo "a.mkv" AccessOk; OpStart 0; OpAddVideo "b.mkv" AccessOk]
                      (constructor 4 (mkOptions None None None))))).
Proof.
  split; [reflexivity|]. split; [reflexivity|]. split; [reflexivity|].
  destruct (X2_pause_then_resume 5 5 (fun _ => false) (fun _ => false) (fun _ => false)
              (run [OpAddVideo "a.mkv" AccessOk; OpStart 0; OpAddVideo "b.mkv" AccessOk]
                 (constructor 4 (mkOptions None None None))))
    as (_ & _ & Hnow & _); [reflexivity | reflexivity |].
  apply Hnow. reflexivity.
Defined.

Lemma set_add_nonempty (v : Video) (c : list Video) : set_add v c <> [].
Proof.
  unfold set_add. destruct (set_has c (vid v)) eqn:H.
  - destruct c; [discriminate|discriminate].
  - destruct c; discriminate.
Qed.

Lemma processQueue_loop_outcome (now : Z) : forall fuel w,
  (length (queue (enc w)) < fuel)%nat ->
  match fst (processQueue_loop fuel now w) with
  | LoopWaiting =>
      running (enc w) = true /\ paused (enc w) = false /\ shuttingDown (enc w) = false
      /\ (queue (enc (snd (processQueue_loop fuel now w))) = []
          \/ maxConcurrentJobs (enc (snd (processQueue_loop fuel now w)))
             <= set_size (currentlyProcessing (enc (snd (processQueue_loop fuel now w)))))
      /\ (queue (enc (snd (processQueue_loop fuel now w))) <> []
          \/ currentlyProcessing (enc (snd (processQueue_loop fuel now w))) <> [])
  | LoopFinished =>
      running (enc w) = true /\ paused (enc w) = false /\ shuttingDown (enc w) = false
      /\ queue (enc w) = [] /\ currentlyProcessing (enc w) = []
      /\ snd (processQueue_loop fuel now w) = finish now w
  | LoopExited =>
      (running (enc w) = false \/ paused (enc w) = true \/ shuttingDown (enc w) = true)
      /\ snd (processQueue_loop fuel now w) = w
  | LoopOutOfFuel => False
  end.
Proof.
  induction fuel as [|fuel IH]; intros w Hlt; [lia|].
  cbn [processQueue_loop].
  destruct (running (enc w)) eqn:Hr; [|simpl; auto].
  destruct (paused (enc w)) eqn:Hp; [simpl; auto|].
  destruct (shuttingDown (enc w)) eqn:Hs; [simpl; auto|].
  cbn [andb negb].
  destruct (queue (enc w)) as [|v rest] eqn:Hq.
  - rewrite orb_true_r. cbn [length Nat.eqb andb].
    destruct (set_size (currentlyProcessing (enc w)) =? 0) eqn:Hz; cbn [fst snd].
    + repeat split; try reflexivity.
      destruct (currentlyProcessing (enc w)); [reflexivity|discriminate].
    + rewrite Hq. repeat split; auto. right. intros Hc. rewrite Hc in Hz. discriminate.
  - cbn [length Nat.eqb andb orb].
    destruct (maxConcurrentJobs (enc w) <=? set_size (currentlyProcessing (enc w))) eqn:Hm;
      cbn [orb fst snd].
    + rewrite Hq. apply Z.leb_le in Hm. repeat split; auto. left. discriminate.
    + cbn [shift].
      specialize (IH (processVideo_begin now v (with_enc (set_queue rest (enc w)) w))).
      simpl in Hlt. specialize (IH ltac:(simpl; lia)).
      destruct (fst (processQueue_loop fuel now
                       (processVideo_begin now v (with_enc (set_queue rest (enc w)) w))));
        simpl in IH.
      * destruct IH as (_ & _ & _ & H4 & H5). repeat split; auto.
      * destruct IH as (_ & _ & _ & _ & Hc & _).
        exfalso. apply (set_add_nonempty v (currentlyProcessing (enc w))). exact Hc.
      * destruct IH as ([H|[H|H]] & _); congruence.
      * exact IH.
Qed.

(** X17: one run of the dispatch loop ends in one of three ways.  It
    leaves at once, changing nothing, exactly when the encoder is not
    running, is paused or is shutting down.  It runs [finish] exactly when
    it finds both the queue and the in-flight set empty.  Otherwise it goes
    to wait with work left, and then no capacity is idle while a video
    waits: the queue is empty or the in-flight size has reached the limit;
    with a limit of at least 1 some job is then in flight. *)
Theorem X17_dispatch_loop_outcome : forall (now : Z) (w : World),
  match fst (processQueue now w) with
  | LoopWaiting =>
      running (enc w) = true /\ paused (enc w) = false /\ shuttingDown (enc w) = false
      /\ (queue (enc (snd (processQueue now w))) = []
          \/ maxConcurrentJobs (enc (snd (processQueue now w)))
             <= set_size (currentlyProcessing (enc (snd (processQueue now w)))))
      /\ (queue (enc (snd (processQueue now w))) <> []
          \/ currentlyProcessing (enc (snd (processQueue now w))) <> [])
      /\ (1 <= maxConcurrentJobs (enc w) ->
          currentlyProcessing (enc (snd (processQueue now w))) <> [])
  | LoopFinished =>
      running (enc w) = true /\ paused (enc w) = false /\ shuttingDown (enc w) = false
      /\ queue (enc w) = [] /\ currentlyProcessing (enc w) = []
      /\ snd (processQueue now w) = finish now w
  | LoopExited =>
      (running (enc w) = false \/ paused (enc w) = true \/ shuttingDown (enc w) = true)
      /\ snd (processQueue now w) = w
  | LoopOutOfFuel => False
  end.
Proof.
  intros now w.
  pose proof (processQueue_loop_outcome now (S (length (queue (enc w)))) w
                ltac:(lia)) as H.
  pose proof (exec_limit (OpTick now) w) as Hlimit. simpl in Hlimit.
  unfold processQueue in *.
  destruct (fst (processQueue_loop (S (length (queue (enc w)))) now w)); try exact H.
  destruct H as (H1 & H2 & H3 & H4 & H5).
  repeat split; try assumption.
  intros Hone Hempty. rewrite Hempty in H4. rewrite Hlimit in H4.
  unfold set_size in H4. simpl in H4.
  destruct H4 as [H4|H4]; [|lia].
  destruct H5 as [H5|H5]; contradiction.
Qed.

(** ** A failed job does not hold up the queue *)

Lemma set_has_delete_self (j : nat) (c : list Video) :
  set_has (set_delete j c) j = false.
Proof.
  unfold set_has, set_delete. induction c as [|v c IH]; [reflexivity|].
  cbn [filter]. destruct (Nat.eqb (vid v) j) eqn:Hv; cbn [negb]; [exact IH|].
  cbn [existsb]. rewrite Hv. exact IH.
Qed.

Lemma set_size_delete_lt (j : nat) (c : list Video) :
  set_has c j = true -> set_size (set_delete j c) < set_size c.
Proof.
  unfold set_has, set_delete, set_size. induction c as [|v c IH]; [discriminate|].
  cbn [existsb filter]. destruct (Nat.eqb (vid v) j) eqn:Hv; cbn [negb orb length].
  - intros _. pose proof (filter_length_le (fun v => negb (Nat.eqb (vid v) j)) c). lia.
  - intros H. specialize (IH H). lia.
Qed.

Lemma set_has_add (v : Video) (c : list Video) (j : nat) :
  set_has (set_add v c) j = set_has c j || Nat.eqb (vid v) j.
Proof.
  unfold set_add. destruct (set_has c (vid v)) eqn:Hv.
  - destruct (Nat.eqb (vid v) j) eqn:Hj; [|rewrite orb_false_r; reflexivity].
    apply Nat.eqb_eq in Hj. subst j. rewrite Hv. reflexivity.
  - unfold set_has. rewrite existsb_app. cbn [existsb]. rewrite orb_false_r. reflexivity.
Qed.

(** One pass of the loop that starts the head of the queue. *)
Lemma processQueue_loop_dispatch (now : Z) (fuel : nat) (w : World)
    (v : Video) (rest : list Video) :
  running (enc w) = true -> paused (enc w) = false -> shuttingDown (enc w) = false ->
  set_size (currentlyProcessing (enc w)) < maxConcurrentJobs (enc w) ->
  queue (enc w) = v :: rest ->
  processQueue_loop (S fuel) now w
  = processQueue_loop fuel now
      (processVideo_begin now v (with_enc (set_queue rest (enc w)) w)).
Proof.
  intros Hr Hp Hs Hlt Hq. cbn [processQueue_loop].
  rewrite Hr, Hp, Hs, Hq. apply Z.leb_gt in Hlt. rewrite Hlt. reflexivity.
Qed.

(** X3: when the [video.process()] of an in-flight job rejects while the
    encoder is running with a video waiting and the in-flight size within
    the limit, the job leaves the in-flight set and the next run of the
    dispatch loop starts the video at the head of the queue.  A rejection
    with a value that has a [message] is recorded on the failed list with
    that message; a rejection with [null] or [undefined] is recorded on
    neither list and is only logged as unhandled. *)
Theorem X3_failure_does_not_block :
  forall (now : Z) (j : nat) (rejection : Rejection) (w : World)
         (a : Activation) (v : Video) (rest : list Video),
  running (enc w) = true -> paused (enc w) = false -> shuttingDown (enc w) = false ->
  find_activation j (suspended w) = Some a ->
  set_has (currentlyProcessing (enc w)) j = true ->
  set_size (currentlyProcessing (enc w)) <= maxConcurrentJobs (enc w) ->
  queue (enc w) = v :: rest ->
  let w1 := exec (OpReject j rejection) w in
  let w2 := exec (OpTick now) w1 in
  match rejection with
  | RejectedWith error =>
      exists entry,
        failedVideos (enc w2) = failedVideos (enc w) ++ [entry]
        /\ fail_job entry = j /\ fail_error entry = err_message error
  | RejectedNullish =>
      failedVideos (enc w2) = failedVideos (enc w)
      /\ finishedVideos (enc w2) = finishedVideos (enc w)
      /\ log w1 = log w ++ [LogUnhandled (act_video a)]
  end
  /\ set_has (currentlyProcessing (enc w1)) j = false
  /\ set_has (currentlyProcessing (enc w2)) (vid v) = true
  /\ exists more, started (log w2) = started (log w) ++ v :: more.
Proof.
  intros now j rejection w a v rest Hr Hp Hs Ha Hin Hle Hq w1 w2.
  destruct (find_activation_occ _ _ _ Ha) as [Hj _].
  assert (Hw1 : currentlyProcessing (enc w1) = set_delete j (currentlyProcessing (enc w))
                /\ started (log w1) = started (log w)
                /\ finishedVideos (enc w1) = finishedVideos (enc w)
                /\ running (enc w1) = true /\ paused (enc w1) = false
                /\ shuttingDown (enc w1) = false /\ queue (enc w1) = v :: rest
                /\ maxConcurrentJobs (enc w1) = maxConcurrentJobs (enc w)).
  { unfold w1. simpl. unfold processVideo_reject. rewrite Ha.
    destruct rejection; simpl; rewrite ?started_app; simpl; rewrite ?app_nil_r, <- Hj;
      repeat split; assumption. }
  destruct Hw1 as (Hcp1 & Hst1 & Hfin1 & Hr1 & Hp1 & Hs1 & Hq1 & Hm1).
  assert (Hlt : set_size (currentlyProcessing (enc w1)) < maxConcurrentJobs (enc w1)).
  { rewrite Hcp1, Hm1. pose proof (set_size_delete_lt j _ Hin). lia. }
  assert (Hgoal :
    failedVideos (enc w2) = failedVideos (enc w1)
    /\ finishedVideos (enc w2) = finishedVideos (enc w1)
    /\ set_has (currentlyProcessing (enc w2)) (vid v) = true
    /\ exists more, started (log w2) = started (log w1) ++ v :: more).
  { unfold w2. simpl. unfold processQueue.
    rewrite (processQueue_loop_dispatch now _ w1 v rest Hr1 Hp1 Hs1 Hlt Hq1).
    apply (processQueue_loop_preserves
             (fun w' => failedVideos (enc w') = failedVideos (enc w1)
                        /\ finishedVideos (enc w') = finishedVideos (enc w1)
                        /\ set_has (currentlyProcessing (enc w')) (vid v) = true
                        /\ exists more, started (log w') = started (log w1) ++ v :: more)).
    - intros w' v' rest' _ _ _ _ _ (H1 & H1' & H2 & more & H3). simpl.
      split; [exact H1|]. split; [exact H1'|]. split.
      + rewrite set_has_add, H2. reflexivity.
      + exists (more ++ [v']). rewrite started_app, H3. simpl.
        rewrite <- app_assoc. reflexivity.
    - intros w' _ _ _ _ _ (H1 & H1' & H2 & more & H3).
      destruct (finish_fields now w') as (-> & _ & _ & -> & -> & _).
      destruct (finish_log now w') as [_ ->].
      split; [exact H1|]. split; [exact H1'|]. split; [exact H2|]. exists more. exact H3.
    - simpl. split; [reflexivity|]. split; [reflexivity|]. split.
      + rewrite set_has_add, Nat.eqb_refl. apply orb_true_r.
      + exists []. rewrite started_app. reflexivity. }
  destruct Hgoal as (G1 & G1' & G2 & more & G3).
  split; [|split; [|split]].
  - destruct rejection as [error|].
    + eexists. rewrite G1. unfold w1. simpl. unfold processVideo_reject. rewrite Ha.
      simpl. split; [reflexivity|]. split; [exact Hj|reflexivity].
    + rewrite G1, G1', Hfin1. unfold w1. simpl. unfold processVideo_reject. rewrite Ha.
      simpl. repeat split.
  - rewrite Hcp1. apply set_has_delete_self.
  - exact G2.
  - exists more. rewrite G3, Hst1. reflexivity.
Qed.

Lemma X3_failure_does_not_block_witness :
  queue (enc (run [OpAddVideo "a.mkv" AccessOk; OpAddVideo "b.mkv" AccessOk; OpStart 0]
                (constructor 4 (mkOptions (Some 1) None None))))
  = [mkVideo 1 "b.mkv"]
  /\ set_has
       (currentlyProcessing
          (enc (exec (OpTick 9)
                  (exec (OpReject 0 RejectedNullish)
                     (run [OpAddVideo "a.mkv" AccessOk; OpAddVideo "b.mkv" AccessOk;
                           OpStart 0]
                        (constructor 4 (mkOptions (Some 1) None None)))))))
       (vid (mkVideo 1 "b.mkv")) = true.
Proof.
  split; [reflexivity|].
  apply (X3_failure_does_not_block 9 0 RejectedNullish
           (run [OpAddVideo "a.mkv" AccessOk; OpAddVideo "b.mkv" AccessOk; OpStart 0]
              (constructor 4 (mkOptions (Some 1) None None)))
           (mkActivation (mkVideo 0 "a.mkv") 0) (mkVideo 1 "b.mkv") []);
    try reflexivity; vm_compute; discriminate.
Defined.

(** ** A limit that is not positive *)

Lemma run_stalled (ops : list Op) (w : World) : stalled w -> stalled (run ops w).
Proof.
  apply run_rule.
  - unfold core, stalled. intros w1 w2 Hc (H1 & H2 & H3 & H4 & H5 & H6).
    injection Hc as _ Hp Hx Hf Hm _ _ Hs _ _ Hst.
    rewrite Hp, Hx, Hf, Hm, Hs, Hst. repeat split; assumption.
  - unfold stalled. intros path w1 (H1 & H2 & H3 & H4 & H5 & H6). simpl.
    rewrite started_app, H6. repeat split; assumption.
  - unfold stalled. intros now w1 H. exact H.
  - unfold stalled. intros now w1 v rest Hlt _ (H1 & H2 & _).
    rewrite H2 in Hlt. unfold set_size in Hlt. simpl in Hlt. lia.
  - unfold stalled. intros j now i o w1 a Ha (_ & _ & H3 & _).
    rewrite H3 in Ha. discriminate.
  - unfold stalled. intros j error w1 a Ha (_ & _ & H3 & _).
    rewrite H3 in Ha. discriminate.
  - unfold stalled. intros h w1 H. exact H.
  - unfold stalled, checkMemoryUsage. intros h w1 (H1 & H2 & H3 & H4 & H5 & H6).
    destruct (memoryThreshold (enc w1) <? h); [|repeat split; assumption].
    destruct (1 <? maxConcurrentJobs (enc w1)) eqn:Hm; [apply Z.ltb_lt in Hm; lia|].
    simpl. rewrite started_app, H6. repeat split; assumption.
  - unfold stalled. intros j w1 a Ha (_ & _ & H3 & _).
    rewrite H3 in Ha. discriminate.
  - unfold stalled. intros w1 (H1 & H2 & H3 & H4 & H5 & H6). simpl. repeat split; assumption.
Qed.

(** X18: an encoder constructed with a limit that is not positive (a
    negative [maxConcurrentJobs] option, or no option on a host reporting
    no CPU) never starts a job: in every run the in-flight set and the
    finished and failed lists stay empty, nothing is logged as starting,
    and every video added is still in the queue. *)
Theorem X18_nonpositive_limit_starts_nothing :
  forall (ops : list Op) (cpus : Z) (options : Options),
  maxConcurrentJobs (enc (constructor cpus options)) <= 0 ->
  let w := run ops (constructor cpus options) in
  started (log w) = []
  /\ currentlyProcessing (enc w) = []
  /\ finishedVideos (enc w) = []
  /\ failedVideos (enc w) = []
  /\ queue (enc w) = added (log w).
Proof.
  intros ops cpus options Hm w.
  destruct (run_stalled ops (constructor cpus options)) as (_ & H2 & _ & H4 & H5 & H6).
  { unfold stalled. repeat split; try reflexivity. exact Hm. }
  fold w in H2, H4, H5, H6.
  assert (Hf : fifo w) by (apply run_fifo; reflexivity).
  unfold fifo in Hf. rewrite H6 in Hf. simpl in Hf.
  repeat split; auto.
Qed.

Lemma X18_nonpositive_limit_starts_nothing_witness :
  maxConcurrentJobs (enc (constructor 8 (mkOptions (Some (-1)) None None))) <= 0
  /\ started (log (run [OpAddVideo "a.mkv" AccessOk; OpStart 0; OpTick 1000]
                     (constructor 8 (mkOptions (Some (-1)) None None)))) = [].
Proof.
  split; [vm_compute; discriminate|].
  apply (X18_nonpositive_limit_starts_nothing
           [OpAddVideo "a.mkv" AccessOk; OpStart 0; OpTick 1000] 8
           (mkOptions (Some (-1)) None None)).
  vm_compute; discriminate.
Defined.

(** ** Memory samples and byte counts *)

Lemma checkMemoryUsage_metrics (h : Z) (w : World) :
  metrics (enc (checkMemoryUsage h w)) = metrics (enc w)
  /\ finishedVideos (enc (checkMemoryUsage h w)) = finishedVideos (enc w)
  /\ failedVideos (enc (checkMemoryUsage h w)) = failedVideos (enc w).
Proof.
  unfold checkMemoryUsage. destruct (memoryThreshold (enc w) <? h); [|auto].
  destruct (1 <? maxConcurrentJobs (enc w)); auto.
Qed.

Lemma exec_peak_le (op : Op) (w : World) :
  memoryPeak (metrics (enc w)) <= memoryPeak (metrics (enc (exec op w))).
Proof.
  apply (exec_rule (fun w' => memoryPeak (metrics (enc w)) <= memoryPeak (metrics (enc w')))).
  - unfold core. intros w1 w2 Hc H. injection Hc as _ _ _ _ _ _ Hm _ _ _ _.
    rewrite Hm. exact H.
  - intros path w1 H. exact H.
  - intros now w1 H. exact H.
  - intros now w1 v rest _ _ H. exact H.
  - intros j now i o w1 a Ha H. unfold processVideo_resolve. rewrite Ha. exact H.
  - intros j error w1 a Ha H. unfold processVideo_reject. rewrite Ha. exact H.
  - intros h w1 H. simpl. destruct (memoryPeak (metrics (enc w1)) <? h) eqn:Hp; [|exact H].
    apply Z.ltb_lt in Hp. lia.
  - intros h w1 H. destruct (checkMemoryUsage_metrics h w1) as (-> & _). exact H.
  - intros j w1 a Ha H. unfold processVideo_reject. rewrite Ha. exact H.
  - intros w1 H. exact H.
  - lia.
Qed.

Lemma run_current_le_peak (ops : list Op) (w : World) :
  memoryCurrent (metrics (enc w)) <= memoryPeak (metrics (enc w)) ->
  memoryCurrent (metrics (enc (run ops w))) <= memoryPeak (metrics (enc (run ops w))).
Proof.
  apply (run_rule (fun w' => memoryCurrent (metrics (enc w'))
                             <= memoryPeak (metrics (enc w')))).
  - unfold core. intros w1 w2 Hc H. injection Hc as _ _ _ _ _ _ Hm _ _ _ _.
    rewrite Hm. exact H.
  - intros path w1 H. exact H.
  - intros now w1 H. exact H.
  - intros now w1 v rest _ _ H. exact H.
  - intros j now i o w1 a Ha H. unfold processVideo_resolve. rewrite Ha. exact H.
  - intros j error w1 a Ha H. unfold processVideo_reject. rewrite Ha. exact H.
  - intros h w1 H. simpl. destruct (memoryPeak (metrics (enc w1)) <? h) eqn:Hp; [lia|].
    apply Z.ltb_ge in Hp. exact Hp.
  - intros h w1 H. destruct (checkMemoryUsage_metrics h w1) as (-> & _). exact H.
  - intros j w1 a Ha H. unfold processVideo_reject. rewrite Ha. exact H.
  - intros w1 H. exact H.
Qed.

(** X4: [updateMetrics] stores the sample as the current usage and raises
    the peak to it when it is higher; in every run of a fresh encoder the
    current usage is at most the peak, and no stretch of the scheduler
    lowers the peak. *)
Theorem X4_memory_peak :
  forall (ops : list Op) (op : Op) (cpus : Z) (options : Options) (heapUsed : Z),
  let w := run ops (constructor cpus options) in
  memoryCurrent (metrics (enc (updateMetrics heapUsed w))) = heapUsed
  /\ memoryPeak (metrics (enc (updateMetrics heapUsed w)))
     = Z.max (memoryPeak (metrics (enc w))) heapUsed
  /\ memoryCurrent (metrics (enc w)) <= memoryPeak (metrics (enc w))
  /\ memoryPeak (metrics (enc w)) <= memoryPeak (metrics (enc (exec op w))).
Proof.
  intros ops op cpus options h w. split; [reflexivity|]. split; [|split].
  - simpl. destruct (memoryPeak (metrics (enc w)) <? h) eqn:Hp.
    + apply Z.ltb_lt in Hp. lia.
    + apply Z.ltb_ge in Hp. lia.
  - apply run_current_le_peak. simpl. lia.
  - apply exec_peak_le.
Qed.

Lemma totalInputSize_snoc (l : list FinishedEntry) (f : FinishedEntry) :
  totalInputSize (l ++ [f]) = totalInputSize l + or0 (fin_inputSize f).
Proof. unfold totalInputSize. rewrite fold_left_app. reflexivity. Qed.

Lemma run_bytes_kept (ops : list Op) (cpus : Z) (options : Options) :
  totalBytesProcessed (metrics (enc (run ops (constructor cpus options))))
  = totalInputSize (finishedVideos (enc (run ops (constructor cpus options)))).
Proof.
  apply (run_rule (fun w' => totalBytesProcessed (metrics (enc w'))
                             = totalInputSize (finishedVideos (enc w')))).
  - unfold core. intros w1 w2 Hc H. injection Hc as _ _ _ Hf _ _ Hm _ _ _ _.
    rewrite Hm, Hf. exact H.
  - intros path w1 H. exact H.
  - intros now w1 H. exact H.
  - intros now w1 v rest _ _ H. exact H.
  - intros j now i o w1 a Ha H. unfold processVideo_resolve. rewrite Ha. simpl.
    rewrite totalInputSize_snoc. simpl. rewrite H. reflexivity.
  - intros j error w1 a Ha H. unfold processVideo_reject. rewrite Ha. exact H.
  - intros h w1 H. exact H.
  - intros h w1 H. destruct (checkMemoryUsage_metrics h w1) as (-> & -> & _). exact H.
  - intros j w1 a Ha H. unfold processVideo_reject. rewrite Ha. exact H.
  - intros w1 H. exact H.
  - reflexivity.
Qed.

(** X5: in every run of a fresh encoder the live counters agree with the
    finished list, so the summary of [finish], when there is one, reports
    as many files as [totalFilesProcessed], a total input size equal to
    [totalBytesProcessed], the stored average time, and a space saved that
    is the total input size less the total output size. *)
Theorem X5_summary_agrees_with_metrics :
  forall (ops : list Op) (cpus : Z) (options : Options) (now : Z) (s : Summary),
  let e := enc (run ops (constructor cpus options)) in
  finish_summary now e = Some s ->
  Z.of_nat (sum_files s) = totalFilesProcessed (metrics e)
  /\ sum_totalInputSize s = totalBytesProcessed (metrics e)
  /\ sum_averageTime s = averageProcessingTime (metrics e)
  /\ sum_spaceSaved s = sum_totalInputSize s - sum_totalOutputSize s
  /\ sum_totalTime s = now - or0 (startTime (metrics e))
  /\ sum_compressionRatio s = js_div (sum_totalOutputSize s) (sum_totalInputSize s).
Proof.
  intros ops cpus options now s e Hs.
  pose proof (run_bytes_kept ops cpus options) as Hb. fold e in Hb.
  destruct (run_mean_kept ops (constructor cpus options)) as [Hc _].
  { split; [reflexivity|]. simpl. unfold Qsum. simpl. ring. }
  cbn zeta in Hc. fold e in Hc.
  unfold finish_summary in Hs.
  destruct (0 <? length (finishedVideos e))%nat; [|discriminate].
  injection Hs as <-. simpl. rewrite Hb, Hc. repeat split.
Qed.

Lemma X5_summary_agrees_with_metrics_witness :
  finish_summary 90
    (enc (run [OpAddVideo "a.mkv" AccessOk; OpStart 0; OpResolve 0 40 (Some 100) (Some 50)]
            (constructor 4 (mkOptions None None None))))
  = Some (mkSummary 1 90 (40 # 1)%Q 100 50 (js_div 50 100) 50)
  /\ sum_totalInputSize (mkSummary 1 90 (40 # 1)%Q 100 50 (js_div 50 100) 50)
     = totalBytesProcessed
         (metrics
            (enc (run [OpAddVideo "a.mkv" AccessOk; OpStart 0;
                       OpResolve 0 40 (Some 100) (Some 50)]
                    (constructor 4 (mkOptions None None None))))).
Proof.
  split; [reflexivity|].
  apply (X5_summary_agrees_with_metrics
           [OpAddVideo "a.mkv" AccessOk; OpStart 0; OpResolve 0 40 (Some 100) (Some 50)]
           4 (mkOptions None None None) 90).
  reflexivity.
Defined.

(** ** The ratio of the summary, and what the result lists hold *)

(** X6: with at least one finished video [finish] always builds a summary,
    and its compression ratio is a finite number exactly when the total
    input size is not 0; when the finished videos carry no input size the
    division by zero goes through and the ratio reported is [NaN] (for a
    total output of 0) or infinite. *)
Theorem X6_summary_ratio_finite_iff_input :
  forall (now : Z) (e : Encoder),
  finishedVideos e <> [] ->
  exists s,
    finish_summary now e = Some s
    /\ sum_files s = length (finishedVideos e)
    /\ (is_finite (sum_compressionRatio s) = true
        <-> totalInputSize (finishedVideos e) <> 0)
    /\ (totalInputSize (finishedVideos e) = 0 ->
        totalOutputSize (finishedVideos e) = 0 -> sum_compressionRatio s = NaN)
    /\ (totalInputSize (finishedVideos e) = 0 ->
        0 < totalOutputSize (finishedVideos e) -> sum_compressionRatio s = PosInf).
Proof.
  intros now e Hne. unfold finish_summary.
  destruct (finishedVideos e) as [|f l] eqn:Hf; [contradiction|].
  cbn [length Nat.ltb Nat.leb]. eexists. split; [reflexivity|]. cbn [sum_files sum_compressionRatio].
  split; [reflexivity|]. unfold js_div.
  destruct (totalInputSize (f :: l) =? 0) eqn:Hz.
  - apply Z.eqb_eq in Hz. split; [|split].
    + destruct (totalOutputSize (f :: l) =? 0); [|destruct (0 <? totalOutputSize (f :: l))];
        simpl; split; intros H; try discriminate; contradiction.
    + intros _ Ho. rewrite Ho. reflexivity.
    + intros _ Ho. destruct (totalOutputSize (f :: l) =? 0) eqn:Ho0.
      * apply Z.eqb_eq in Ho0. lia.
      * apply Z.ltb_lt in Ho. rewrite Ho. reflexivity.
  - apply Z.eqb_neq in Hz. split; [|split].
    + simpl. split; auto.
    + intros H. contradiction.
    + intros H. contradiction.
Qed.

Lemma X6_summary_ratio_finite_iff_input_witness :
  finishedVideos
    (enc (run [OpAddVideo "a.mkv" AccessOk; OpStart 0; OpResolve 0 40 None None]
            (constructor 4 (mkOptions None None None)))) <> []
  /\ exists s,
       finish_summary 90
         (enc (run [OpAddVideo "a.mkv" AccessOk; OpStart 0; OpResolve 0 40 None None]
                 (constructor 4 (mkOptions None None None)))) = Some s
       /\ sum_compressionRatio s = NaN.
Proof.
  split; [discriminate|].
  destruct (X6_summary_ratio_finite_iff_input 90
              (enc (run [OpAddVideo "a.mkv" AccessOk; OpStart 0; OpResolve 0 40 None None]
                      (constructor 4 (mkOptions None None None)))))
    as (s & Hs & _ & _ & Hnan & _); [discriminate|].
  exists s. split; [exact Hs|]. apply Hnan; reflexivity.
Defined.

Lemma run_results_sound (ops : list Op) (cpus : Z) (options : Options) :
  results_sound (run ops (constructor cpus options)).
Proof.
  apply run_rule.
  - unfold core, results_sound. intros w1 w2 Hc H.
    injection Hc as _ _ Hx Hf _ _ _ Hs _ _ Hst. rewrite Hx, Hf, Hs, Hst. exact H.
  - unfold results_sound. intros path w (H1 & H2 & H3). simpl.
    rewrite started_app. simpl. rewrite app_nil_r. auto.
  - intros now w H. exact H.
  - unfold results_sound. intros now w v rest _ _ (H1 & H2 & H3). simpl.
    rewrite started_app. simpl. split; [|split].
    + apply Forall_app. split.
      * eapply Forall_impl; [|exact H1]. intros a Ha. apply in_or_app. left. exact Ha.
      * constructor; [|constructor]. simpl. apply in_or_app. right. left. reflexivity.
    + eapply Forall_impl; [|exact H2]. intros f [Hf Hr]. split; [|exact Hr].
      rewrite map_app. apply in_or_app. left. exact Hf.
    + eapply Forall_impl; [|exact H3]. intros f [Hf Hr]. split; [|exact Hr].
      rewrite map_app. apply in_or_app. left. exact Hf.
  - unfold results_sound. intros j now i o w a Ha (H1 & H2 & H3).
    unfold processVideo_resolve. rewrite Ha. simpl.
    rewrite started_app. simpl. rewrite app_nil_r.
    pose proof (find_some _ _ Ha) as [Hin _].
    rewrite Forall_forall in H1. pose proof (H1 a Hin) as Hst.
    split; [|split; [|exact H3]].
    + apply Forall_forall. intros b Hb. unfold remove_activation in Hb.
      apply filter_In in Hb. apply H1, Hb.
    + apply Forall_app. split; [exact H2|]. constructor; [|constructor]. simpl.
      split; [apply in_map, Hst | reflexivity].
  - unfold results_sound. intros j error w a Ha (H1 & H2 & H3).
    unfold processVideo_reject. rewrite Ha. simpl.
    rewrite !started_app. simpl. rewrite !app_nil_r.
    pose proof (find_some _ _ Ha) as [Hin _].
    rewrite Forall_forall in H1. pose proof (H1 a Hin) as Hst.
    split; [|split; [exact H2|]].
    + apply Forall_forall. intros b Hb. unfold remove_activation in Hb.
      apply filter_In in Hb. apply H1, Hb.
    + apply Forall_app. split; [exact H3|]. constructor; [|constructor]. simpl.
      split; [apply in_map, Hst|].
      destruct (err_stage error) as [[|c s]|]; discriminate.
  - intros h w H. exact H.
  - unfold results_sound, checkMemoryUsage. intros h w H.
    destruct (memoryThreshold (enc w) <? h); [|exact H].
    destruct (1 <? maxConcurrentJobs (enc w)); simpl;
      rewrite ?started_app; simpl; rewrite ?app_nil_r; exact H.
  - unfold results_sound. intros j w a Ha (H1 & H2 & H3).
    unfold processVideo_reject. rewrite Ha. simpl.
    rewrite !started_app. simpl. rewrite !app_nil_r.
    split; [|split; [exact H2|exact H3]].
    rewrite Forall_forall in H1.
    apply Forall_forall. intros b Hb. unfold remove_activation in Hb.
    apply filter_In in Hb. apply H1, Hb.
  - intros w H. exact H.
  - unfold results_sound. simpl. repeat split; constructor.
Qed.

(** X16: in every run of a fresh encoder each entry of the finished list
    and each entry of the failed list is of a video that had been started;
    a finished entry's compression ratio is its output size over its input
    size ([NaN] when either is missing); and a failed entry always names a
    stage, ["Unknown"] when the video had none. *)
Theorem X16_results_are_of_started_videos :
  forall (ops : list Op) (cpus : Z) (options : Options),
  let w := run ops (constructor cpus options) in
  (forall f, In f (finishedVideos (enc w)) ->
     In (fin_job f) (map vid (started (log w)))
     /\ fin_compressionRatio f = js_div_opt (fin_outputSize f) (fin_inputSize f))
  /\ (forall f, In f (failedVideos (enc w)) ->
        In (fail_job f) (map vid (started (log w))) /\ fail_stage f <> EmptyString)
  /\ (forall (j : nat) (a : Activation) (error : VideoError),
        find_activation j (suspended w) = Some a ->
        err_stage error = None ->
        exists entry,
          failedVideos (enc (processVideo_reject j (RejectedWith error) w))
          = failedVideos (enc w) ++ [entry]
          /\ fail_stage entry = "Unknown"%string
          /\ fail_path entry = vpath (act_video a)).
Proof.
  intros ops cpus options w.
  destruct (run_results_sound ops cpus options) as (_ & H2 & H3).
  fold w in H2, H3. rewrite Forall_forall in H2, H3.
  split; [exact H2|]. split; [exact H3|].
  intros j a error Ha Hst. unfold processVideo_reject. rewrite Ha. simpl.
  rewrite Hst. eexists. split; [reflexivity|]. split; reflexivity.
Qed.

(** ** Decimal strings and cache keys *)

Lemma append_assoc (a b c : string) : ((a ++ b) ++ c = a ++ (b ++ c))%string.
Proof. induction a as [|x a IH]; simpl; [reflexivity|]. rewrite IH. reflexivity. Qed.

Lemma has_char_app (c : Ascii.ascii) (a b : string) :
  has_char c (a ++ b)%string = has_char c a || has_char c b.
Proof.
  induction a as [|x a IH]; simpl; [reflexivity|].
  rewrite IH, orb_assoc. reflexivity.
Qed.

(** A string splits in one way only at a separator its tail does not
    hold. *)
Lemma split_at_last (c : Ascii.ascii) : forall p1 p2 t1 t2 : string,
  has_char c t1 = false -> has_char c t2 = false ->
  (p1 ++ String c t1 = p2 ++ String c t2)%string ->
  p1 = p2 /\ t1 = t2.
Proof.
  induction p1 as [|a p1 IH]; intros [|b p2] t1 t2 H1 H2 H; simpl in H.
  - inversion H. auto.
  - inversion H; subst. rewrite has_char_app in H1. cbn [has_char] in H1.
    rewrite Ascii.eqb_refl in H1. cbn [orb] in H1. rewrite orb_true_r in H1. discriminate.
  - inversion H; subst. rewrite has_char_app in H2. cbn [has_char] in H2.
    rewrite Ascii.eqb_refl in H2. cbn [orb] in H2. rewrite orb_true_r in H2. discriminate.
  - inversion H as [[Ha Ht]]. destruct (IH p2 t1 t2 H1 H2 Ht) as [-> ->]. auto.
Qed.

Section Keys.

Import Ascii.

Lemma uint_string_no_colon (d : Decimal.uint) :
  has_char ":"%char (NilEmpty.string_of_uint d) = false.
Proof. induction d; simpl; auto. Qed.

Lemma number_to_string_no_colon (z : Z) : has_char ":"%char (number_to_string z) = false.
Proof.
  unfold number_to_string, MetadataCache.number_to_string, NilZero.string_of_int,
    NilZero.string_of_uint.
  destruct (Z.to_int z) as [d|d]; destruct d; simpl; auto using uint_string_no_colon.
Qed.

Lemma number_to_string_inj (a b : Z) : number_to_string a = number_to_string b -> a = b.
Proof.
  unfold number_to_string, MetadataCache.number_to_string. intros H.
  apply DecimalZ.to_int_inj.
  assert (Hp : forall z, Z.to_int z <> Decimal.Pos Decimal.Nil
                         /\ Z.to_int z <> Decimal.Neg Decimal.Nil).
  { intros [|p|p]; simpl; split; try discriminate; intros E; injection E as E;
      apply (DecimalPos.Unsigned.to_uint_nonnil p E). }
  pose proof (NilZero.isi (Z.to_int a) (proj1 (Hp a)) (proj2 (Hp a))) as Ha.
  pose proof (NilZero.isi (Z.to_int b) (proj1 (Hp b)) (proj2 (Hp b))) as Hb.
  rewrite H in Ha. rewrite Ha in Hb. injection Hb as Hb. exact Hb.
Qed.

Lemma cacheKey_inj (p1 p2 : string) (s1 s2 : MetadataCache.Stats) :
  MetadataCache.cacheKey p1 s1 = MetadataCache.cacheKey p2 s2 -> p1 = p2 /\ s1 = s2.
Proof.
  unfold MetadataCache.cacheKey. intros H.
  change (p1 ++ String ":"%char (MetadataCache.number_to_string (MetadataCache.mtime s1)
                             ++ String ":"%char (MetadataCache.number_to_string
                                              (MetadataCache.size s1)))
          = p2 ++ String ":"%char (MetadataCache.number_to_string (MetadataCache.mtime s2)
                               ++ String ":"%char (MetadataCache.number_to_string
                                                (MetadataCache.size s2))))%string in H.
  assert (E : forall p dm ds : string,
             (p ++ String ":"%char (dm ++ String ":"%char ds)
              = (p ++ String ":"%char dm) ++ String ":"%char ds)%string)
    by (intros; rewrite append_assoc; reflexivity).
  rewrite !E in H.
  apply (split_at_last ":"%char) in H; try apply number_to_string_no_colon.
  destruct H as [H Hsz].
  apply (split_at_last ":"%char) in H; try apply number_to_string_no_colon.
  destruct H as [Hp Hm].
  apply number_to_string_inj in Hsz. apply number_to_string_inj in Hm.
  split; [exact Hp|]. destruct s1, s2. simpl in *. subst. reflexivity.
Qed.

End Keys.

(** X9: the cache key determines the file path, the modification time and
    the size: two keys are equal only for the same path and the same
    stats, so a lookup never finds what was stored for another file or for
    another version of the file. *)
Theorem X9_cache_key_injective :
  forall (p1 p2 : string) (s1 s2 : MetadataCache.Stats),
  MetadataCache.cacheKey p1 s1 = MetadataCache.cacheKey p2 s2
  <-> p1 = p2 /\ s1 = s2.
Proof.
  intros p1 p2 s1 s2. split; [apply cacheKey_inj|].
  intros [-> ->]. reflexivity.
Qed.

(** ** Lookups in the metadata cache *)

Module CacheLookups.

Import MetadataCache.

Section WithValue.

Variable V : Type.

Implicit Types (m : JsMap V) (c : t V) (k : string) (v : V).

Lemma map_get_set k k' v m :
  map_get k (map_set k' v m) = if String.eqb k' k then Some v else map_get k m.
Proof.
  unfold map_get. induction m as [|[k0 v0] m IH]; simpl.
  - destruct (String.eqb k' k); reflexivity.
  - destruct (String.eqb k0 k') eqn:H0; simpl.
    + apply String.eqb_eq in H0. subst k0. destruct (String.eqb k' k); reflexivity.
    + destruct (String.eqb k0 k) eqn:Hk; [|exact IH].
      apply String.eqb_eq in Hk. subst k0.
      rewrite String.eqb_sym, H0. reflexivity.
Qed.

Lemma map_get_delete k k' m :
  map_get k (map_delete k' m) = if String.eqb k' k then None else map_get k m.
Proof.
  unfold map_get, map_delete. induction m as [|[k0 v0] m IH]; simpl.
  - destruct (String.eqb k' k); reflexivity.
  - destruct (String.eqb k0 k') eqn:H0; simpl.
    + apply String.eqb_eq in H0. subst k0. rewrite IH.
      destruct (String.eqb k' k); reflexivity.
    + destruct (String.eqb k0 k) eqn:Hk; [|exact IH].
      apply String.eqb_eq in Hk. subst k0. rewrite String.eqb_sym, H0. reflexivity.
Qed.

Lemma map_get_None k m : map_get k m = None <-> map_has k m = false.
Proof.
  unfold map_get, map_has. induction m as [|[k0 v0] m IH]; simpl; [tauto|].
  destruct (String.eqb k0 k); simpl; [split; discriminate | exact IH].
Qed.

(** What [get] returns is what the map holds under the key. *)
Lemma get_result filePath stats c :
  fst (get filePath (Some stats) c) = map_get (cacheKey filePath stats) (cache c).
Proof.
  unfold get. destruct (map_has _ (cache c)) eqn:Hh.
  - destruct (map_get _ (cache c)); reflexivity.
  - apply map_get_None in Hh. rewrite Hh. reflexivity.
Qed.

Lemma map_delete_one k m :
  NoDup (map fst m) -> In k (map fst m) ->
  S (length (map_delete k m)) = length m.
Proof.
  induction m as [|[k0 v0] m IH]; intros Hn Hin; [contradiction|].
  simpl in *. inversion Hn as [|? ? Hnot Hn']; subst.
  destruct (String.eqb k0 k) eqn:Hk; simpl.
  - apply String.eqb_eq in Hk. subst k0.
    rewrite (CacheFacts.map_delete_absent V k m Hnot). reflexivity.
  - destruct Hin as [Hin|Hin]; [apply String.eqb_neq in Hk; contradiction|].
    rewrite (IH Hn' Hin). reflexivity.
Qed.

Lemma exec_tidy op c : tidy c -> tidy (exec op c).
Proof.
  intros [Hn Hb]. unfold tidy, entries, keys in *.
  destruct op as [filePath stat|filePath metadata stat|]; simpl.
  - unfold get. destruct stat as [stats|]; [|auto].
    destruct (map_has _ (cache c)) eqn:Hh; [|auto].
    destruct (map_get _ (cache c)) as [value|]; [|auto]. simpl. split.
    + apply CacheFacts.map_set_NoDup, CacheFacts.map_delete_NoDup, Hn.
    + apply CacheFacts.map_has_In in Hh. apply CacheFacts.map_delete_present in Hh.
      pose proof (CacheFacts.map_set_length V (cacheKey filePath stats) value
                    (map_delete (cacheKey filePath stats) (cache c))). lia.
  - unfold set.
    destruct (maxSize c <=? Z.of_nat (length (cache c))) eqn:Hfull.
    + destruct (cache c) as [|[k0 v0] rest] eqn:Hc; cbn [map_first_key].
      * rewrite Hc. destruct stat as [stats|]; simpl; [|rewrite Hc; simpl; split; [constructor|lia]].
        split; [repeat constructor; intros []|lia].
      * assert (Hrest : map_delete k0 ((k0, v0) :: rest) = rest).
        { simpl. rewrite String.eqb_refl. simpl. apply CacheFacts.map_delete_absent.
          simpl in Hn. inversion Hn. assumption. }
        rewrite Hrest. simpl in Hn, Hb. inversion Hn; subst.
        destruct stat as [stats|]; simpl.
        -- split; [apply CacheFacts.map_set_NoDup; assumption|].
           pose proof (CacheFacts.map_set_length V (cacheKey filePath stats) metadata rest).
           lia.
        -- split; [assumption|lia].
    + apply Z.leb_gt in Hfull. destruct stat as [stats|]; simpl.
      * split; [apply CacheFacts.map_set_NoDup; assumption|].
        pose proof (CacheFacts.map_set_length V (cacheKey filePath stats) metadata (cache c)).
        lia.
      * auto.
  - split; [constructor|lia].
Qed.

Lemma run_tidy ops capacity : tidy (run ops (@constructor V capacity)).
Proof.
  induction ops as [|op ops IH] using rev_ind.
  - unfold tidy, entries, keys. simpl. split; [constructor|lia].
  - unfold run in *. rewrite fold_left_app. simpl. apply exec_tidy, IH.
Qed.

End WithValue.

End CacheLookups.

(** X10: a [set] whose [statSync] succeeds followed by a [get] of the same
    file with the same stats returns the stored metadata, whatever the
    capacity; the lookup of any other file, or of the same file with
    another modification time or size, gives after the [set] what it gave
    before, unless the [set] evicted that entry; and while the cache is
    not full nothing is evicted. *)
Theorem X10_cache_set_then_get :
  forall (V : Type) (c : MetadataCache.t V) (filePath : string) (metadata : V)
         (stats : MetadataCache.Stats),
  let c' := MetadataCache.set filePath metadata (Some stats) c in
  fst (MetadataCache.get filePath (Some stats) c') = Some metadata
  /\ (forall filePath' stats',
        (filePath', stats') <> (filePath, stats) ->
        fst (MetadataCache.get filePath' (Some stats') c')
        = fst (MetadataCache.get filePath' (Some stats') c)
        \/ fst (MetadataCache.get filePath' (Some stats') c') = None)
  /\ (Z.of_nat (MetadataCache.entries c) < MetadataCache.maxSize c ->
      forall filePath' stats',
        (filePath', stats') <> (filePath, stats) ->
        fst (MetadataCache.get filePath' (Some stats') c')
        = fst (MetadataCache.get filePath' (Some stats') c)).
Proof.
  intros V c filePath metadata stats c'. subst c'.
  assert (Hkey : forall filePath' stats',
             (filePath', stats') <> (filePath, stats) ->
             String.eqb (MetadataCache.cacheKey filePath stats)
               (MetadataCache.cacheKey filePath' stats') = false).
  { intros f' s' Hne. apply String.eqb_neq. intros E.
    apply cacheKey_inj in E. destruct E as [-> ->]. apply Hne. reflexivity. }
  split; [|split].
  - rewrite CacheLookups.get_result. unfold MetadataCache.set. simpl.
    rewrite CacheLookups.map_get_set, String.eqb_refl. reflexivity.
  - intros f' s' Hne. rewrite !CacheLookups.get_result. unfold MetadataCache.set.
    destruct (MetadataCache.maxSize c <=? Z.of_nat (length (MetadataCache.cache c))).
    + destruct (MetadataCache.map_first_key (MetadataCache.cache c)) as [k0|]; simpl.
      * rewrite CacheLookups.map_get_set, (Hkey f' s' Hne), CacheLookups.map_get_delete.
        destruct (String.eqb k0 (MetadataCache.cacheKey f' s')); auto.
      * rewrite CacheLookups.map_get_set, (Hkey f' s' Hne). auto.
    + simpl. rewrite CacheLookups.map_get_set, (Hkey f' s' Hne). auto.
  - intros Hroom f' s' Hne. rewrite !CacheLookups.get_result. unfold MetadataCache.set.
    unfold MetadataCache.entries in Hroom. apply Z.leb_gt in Hroom. rewrite Hroom. simpl.
    rewrite CacheLookups.map_get_set, (Hkey f' s' Hne). reflexivity.
Qed.

(** X11: on a cache reached from a new one by any series of operations, a
    [get] changes the order of the entries at most: afterwards every key
    holds the value it held, the number of entries and the capacity are
    the same; a [get] whose [fs.stat] fails returns [null] and changes
    nothing. *)
Theorem X11_cache_get_keeps_entries :
  forall (V : Type) (ops : list (MetadataCache.CacheOp V)) (capacity : option Z)
         (filePath : string) (stat : option MetadataCache.Stats) (k : string),
  let c := MetadataCache.run ops (MetadataCache.constructor capacity) in
  let c' := snd (MetadataCache.get filePath stat c) in
  MetadataCache.map_get k (MetadataCache.cache c')
  = MetadataCache.map_get k (MetadataCache.cache c)
  /\ MetadataCache.entries c' = MetadataCache.entries c
  /\ MetadataCache.maxSize c' = MetadataCache.maxSize c
  /\ MetadataCache.get filePath None c = (None, c).
Proof.
  intros V ops capacity filePath stat k c c'.
  destruct (CacheLookups.run_tidy V ops capacity) as [Hn _]. fold c in Hn.
  unfold MetadataCache.keys in Hn.
  split; [|split; [|split]]; [| | |reflexivity]; subst c'; unfold MetadataCache.get;
    (destruct stat as [stats|]; [|reflexivity]);
    (destruct (MetadataCache.map_has _ (MetadataCache.cache c)) eqn:Hh; [|reflexivity]);
    (destruct (MetadataCache.map_get _ (MetadataCache.cache c)) as [value|] eqn:Hg;
     [|reflexivity]); simpl.
  - rewrite CacheLookups.map_get_set, CacheLookups.map_get_delete.
    destruct (String.eqb (MetadataCache.cacheKey filePath stats) k) eqn:Hk; [|reflexivity].
    apply String.eqb_eq in Hk. subst k. symmetry. exact Hg.
  - unfold MetadataCache.entries. simpl.
    rewrite CacheFacts.map_set_absent by apply CacheFacts.map_delete_not_In.
    rewrite length_app. simpl. apply CacheFacts.map_has_In in Hh.
    pose proof (CacheLookups.map_delete_one V _ _ Hn Hh). lia.
  - reflexivity.
Qed.

(** X19: whatever the capacity, also 0 or negative, after any series of
    operations on a new cache the keys are distinct and the cache holds at
    most [max(1, maxSize)] entries. *)
Theorem X19_cache_size_any_capacity :
  forall (V : Type) (ops : list (MetadataCache.CacheOp V)) (capacity : option Z),
  let c := MetadataCache.run ops (MetadataCache.constructor capacity) in
  NoDup (MetadataCache.keys c)
  /\ Z.of_nat (MetadataCache.entries c) <= Z.max 1 (MetadataCache.maxSize c).
Proof.
  intros V ops capacity c. apply CacheLookups.run_tidy.
Qed.

(** ** Durations in print *)

Lemma whole_seconds_bounds (ms : Q) :
  ((0 <= ms)%Q -> 0 <= whole_seconds ms)
  /\ ((ms < inject_Z 60000)%Q -> whole_seconds ms < 60)
  /\ ((ms < 0)%Q -> whole_seconds ms < 0).
Proof.
  unfold whole_seconds.
  assert (Hpos : (0 < inject_Z 1000)%Q) by reflexivity.
  pose proof (Qround.Qfloor_le (ms / inject_Z 1000)) as Hfl.
  split; [|split]; intros H.
  - change 0 with (Qround.Qfloor (inject_Z 0)). apply Qround.Qfloor_resp_le.
    apply Qle_shift_div_l; [exact Hpos|]. rewrite Qmult_0_l. exact H.
  - assert (Hlt : (ms / inject_Z 1000 < inject_Z 60)%Q).
    { apply Qlt_shift_div_r; [exact Hpos|]. exact H. }
    rewrite Zlt_Qlt. eapply Qle_lt_trans; [exact Hfl | exact Hlt].
  - assert (Hlt : (ms / inject_Z 1000 < inject_Z 0)%Q).
    { apply Qlt_shift_div_r; [exact Hpos|]. rewrite Qmult_0_l. exact H. }
    rewrite Zlt_Qlt. eapply Qle_lt_trans; [exact Hfl | exact Hlt].
Qed.

Lemma duration_fields (total : Z) :
  0 <= total ->
  total / 60 / 60 = total / 3600
  /\ js_rem (total / 60) 60 = (total / 60) mod 60
  /\ js_rem total 60 = total mod 60
  /\ 0 <= total / 3600
  /\ 0 <= (total / 60) mod 60 < 60
  /\ 0 <= total mod 60 < 60
  /\ total = total / 3600 * 3600 + (total / 60) mod 60 * 60 + total mod 60
  /\ (total / 3600 <= 0 -> (total / 60) mod 60 = total / 60).
Proof.
  intros Ht.
  assert (Hm : 0 <= total / 60) by (apply Z.div_pos; lia).
  assert (Hdd : total / 60 / 60 = total / 3600) by (rewrite Z.div_div by lia; reflexivity).
  pose proof (Z.mod_pos_bound (total / 60) 60 ltac:(lia)) as Hb1.
  pose proof (Z.mod_pos_bound total 60 ltac:(lia)) as Hb2.
  pose proof (Z.div_mod (total / 60) 60 ltac:(lia)) as Hd1.
  pose proof (Z.div_mod total 60 ltac:(lia)) as Hd2.
  assert (Hh : 0 <= total / 3600) by (apply Z.div_pos; lia).
  unfold js_rem. rewrite !Z.rem_mod_nonneg by lia.
  repeat split; try lia.
Qed.

(** X7: for a duration that is not negative the encoder's [formatDuration]
    prints the whole seconds [t] split into hours, minutes below 60 and
    seconds below 60 that add up to [t] again: all three fields from one
    hour on, minutes and seconds from one minute on, seconds alone below a
    minute.  Any duration below a minute, negative ones included, prints
    as its whole seconds rounded down, so -1 ms prints as [-1s].  For a
    whole number of milliseconds the whole seconds are the quotient by
    1000. *)
Theorem X7_formatDuration_fields : forall ms : Q,
  let t := whole_seconds ms in
  let h := t / 3600 in
  let m := (t / 60) mod 60 in
  let s := t mod 60 in
  ((0 <= ms)%Q ->
     0 <= h /\ 0 <= m < 60 /\ 0 <= s < 60 /\ t = h * 3600 + m * 60 + s
     /\ formatDuration ms
        = if 0 <? h then
            (number_to_string h ++ "h " ++ number_to_string m ++ "m "
               ++ number_to_string s ++ "s")%string
          else if 0 <? m then
            (number_to_string m ++ "m " ++ number_to_string s ++ "s")%string
          else (number_to_string s ++ "s")%string)
  /\ ((ms < inject_Z 60000)%Q -> formatDuration ms = (number_to_string t ++ "s")%string)
  /\ (forall z : Z, whole_seconds (inject_Z z) = z / 1000).
Proof.
  intros ms t h m s. destruct (whole_seconds_bounds ms) as (Hnonneg & Hminute & _).
  fold t in Hnonneg, Hminute. split; [|split].
  - intros Hms. specialize (Hnonneg Hms).
    destruct (duration_fields t Hnonneg)
      as (Hdd & Hr1 & Hr2 & Hh & Hm & Hs & Hsum & Hsmall).
    fold h m s in Hh, Hm, Hs, Hsum, Hsmall.
    repeat split; try lia.
    unfold formatDuration. fold t. rewrite Hdd, Hr1, Hr2. fold h m s.
    destruct (0 <? h) eqn:Hh0; [reflexivity|].
    apply Z.ltb_ge in Hh0. rewrite <- (Hsmall Hh0).
    destruct (0 <? m) eqn:Hm0; [reflexivity|].
    apply Z.ltb_ge in Hm0.
    assert (Hts : t = s) by lia. rewrite <- Hts. reflexivity.
  - intros Hlt. specialize (Hminute Hlt). unfold formatDuration. fold t.
    assert (Hmin : t / 60 <= 0).
    { destruct (Z_lt_le_dec t 0) as [Hneg|Hpos].
      - assert (t / 60 < 0) by (apply Z.div_lt_upper_bound; lia). lia.
      - rewrite Z.div_small by lia. lia. }
    assert (Hhr : t / 60 / 60 <= 0).
    { destruct (Z_lt_le_dec (t / 60) 0) as [Hneg|Hpos].
      - assert (t / 60 / 60 < 0) by (apply Z.div_lt_upper_bound; lia). lia.
      - assert (H0 : t / 60 = 0) by lia. rewrite H0. reflexivity. }
    apply Z.ltb_ge in Hmin, Hhr. rewrite Hmin, Hhr. reflexivity.
  - intros z. unfold whole_seconds. symmetry. apply Qround.Zdiv_Qdiv.
Qed.

Lemma pad_two_digits (n : Z) :
  0 <= n < 100 ->
  Helpers.padStart 2 "0" (number_to_string n) = Helpers.two_digits n.
Proof.
  intros Hn.
  assert (H : forall k : nat, (k < 100)%nat ->
            Helpers.padStart 2 "0" (number_to_string (Z.of_nat k))
            = Helpers.two_digits (Z.of_nat k)).
  { intros k Hk. do 100 (destruct k as [|k]; [reflexivity|]). lia. }
  rewrite <- (Z2Nat.id n) by lia. apply H. lia.
Qed.

(** X8: for a duration that is not negative the helpers' [formatDuration]
    prints hours, minutes and seconds of the whole seconds with the
    minutes (after an hour) and the seconds always in exactly two digits:
    [H:MM:SS] from one hour on and [M:SS] below, the branch for less than
    a minute printing what the minutes branch would.  A negative duration
    prints [0:] and the signed remainder of its seconds, unpadded when it
    has two characters already. *)
Theorem X8_helpers_formatDuration_width : forall ms : Q,
  let t := whole_seconds ms in
  let h := t / 3600 in
  let m := (t / 60) mod 60 in
  let s := t mod 60 in
  ((0 <= ms)%Q ->
     Helpers.formatDuration ms
     = if 0 <? h then
         (number_to_string h ++ ":" ++ Helpers.two_digits m ++ ":"
            ++ Helpers.two_digits s)%string
       else (number_to_string m ++ ":" ++ Helpers.two_digits s)%string)
  /\ ((ms < 0)%Q ->
      Helpers.formatDuration ms
      = ("0:" ++ Helpers.padStart 2 "0" (number_to_string (js_rem t 60)))%string)
  /\ (forall n : Z, 0 <= n < 100 ->
        String.length (Helpers.padStart 2 "0" (number_to_string n)) = 2%nat).
Proof.
  intros ms t h m s. destruct (whole_seconds_bounds ms) as (Hnonneg & _ & Hnegative).
  fold t in Hnonneg, Hnegative. split; [|split].
  - intros Hms. specialize (Hnonneg Hms).
    destruct (duration_fields t Hnonneg)
      as (Hdd & Hr1 & Hr2 & Hh & Hm & Hs & Hsum & Hsmall).
    fold h m s in Hh, Hm, Hs, Hsum, Hsmall.
    unfold Helpers.formatDuration. fold t. rewrite Hdd, Hr1, Hr2. fold h m s.
    rewrite (pad_two_digits s) by lia. rewrite (pad_two_digits m) by lia.
    destruct (0 <? h) eqn:Hh0; [reflexivity|].
    apply Z.ltb_ge in Hh0. rewrite <- (Hsmall Hh0).
    destruct (0 <? m) eqn:Hm0; [reflexivity|].
    apply Z.ltb_ge in Hm0. assert (Hz : m = 0) by lia. rewrite Hz. reflexivity.
  - intros Hneg. specialize (Hnegative Hneg). unfold Helpers.formatDuration. fold t.
    assert (Hmin : t / 60 < 0) by (apply Z.div_lt_upper_bound; lia).
    assert (Hhr : t / 60 / 60 < 0) by (apply Z.div_lt_upper_bound; lia).
    assert (H1 : (0 <? t / 60 / 60) = false) by (apply Z.ltb_ge; lia).
    assert (H2 : (0 <? t / 60) = false) by (apply Z.ltb_ge; lia).
    rewrite H1, H2. reflexivity.
  - intros n Hn. rewrite (pad_two_digits n Hn). reflexivity.
Qed.

(** ** The stream processor passes data through and counts it *)

Module StreamFacts.

Import OptimizedStreamProcessor.

Lemma size_of_snoc (input : list Chunk) (chunk : Chunk) :
  size_of (input ++ [chunk]) = (size_of input + length chunk)%nat.
Proof.
  unfold size_of. induction input as [|c input IH]; simpl; [lia|].
  rewrite IH. lia.
Qed.

Lemma pipe_snoc (input : list Chunk) (chunk : Chunk) :
  pipe (input ++ [chunk]) = step (pipe input) chunk.
Proof. unfold pipe. rewrite fold_left_app. reflexivity. Qed.

Lemma div_100_succ (n : nat) :
  (S n mod 100 = 0 -> S n / 100 = S (n / 100) /\ S n = 100 * S (n / 100))%nat
  /\ (S n mod 100 <> 0 -> S n / 100 = n / 100)%nat.
Proof.
  pose proof (Nat.div_mod_eq n 100) as H1.
  pose proof (Nat.div_mod_eq (S n) 100) as H2.
  pose proof (Nat.mod_upper_bound n 100 ltac:(lia)) as H3.
  pose proof (Nat.mod_upper_bound (S n) 100 ltac:(lia)) as H4.
  split; intros H; lia.
Qed.

Lemma report_at_snoc (input : list Chunk) (chunk : Chunk) (k : nat) :
  (100 * k <= length input)%nat ->
  report_at (input ++ [chunk]) k = report_at input k.
Proof.
  intros H. unfold report_at. rewrite firstn_app.
  replace (100 * k - length input)%nat with 0%nat by lia.
  simpl. rewrite app_nil_r. reflexivity.
Qed.

Lemma pipe_trace (input : list Chunk) :
  passed (pipe input) = input
  /\ chunkCount (state (pipe input)) = length input
  /\ totalSize (state (pipe input)) = size_of input
  /\ reports (pipe input) = map (report_at input) (seq 1 (length input / 100)).
Proof.
  induction input as [|chunk input (IHp & IHc & IHs & IHr)] using rev_ind.
  - repeat split.
  - rewrite pipe_snoc. unfold step, _transform. cbn [state chunkCount totalSize passed reports].
    rewrite IHp, IHc, IHs, IHr, length_app, size_of_snoc. cbn [length].
    replace (length input + 1)%nat with (S (length input)) by lia.
    split; [reflexivity|]. split; [reflexivity|]. split; [reflexivity|].
    destruct (div_100_succ (length input)) as [Hzero Hnon].
    assert (Hold : map (report_at (input ++ [chunk])) (seq 1 (length input / 100))
                   = map (report_at input) (seq 1 (length input / 100))).
    { apply map_ext_in. intros k Hk. apply in_seq in Hk.
      apply report_at_snoc.
      pose proof (Nat.div_mod_eq (length input) 100). lia. }
    destruct (S (length input) mod 100 =? 0)%nat eqn:Hmod.
    + apply Nat.eqb_eq in Hmod. destruct (Hzero Hmod) as [Hq Hn].
      rewrite Hq, seq_S, map_app, Hold. cbn [map]. unfold report_at.
      replace (100 * (1 + length input / 100))%nat with (S (length input)) by lia.
      rewrite firstn_all2 by (rewrite length_app; simpl; lia).
      rewrite size_of_snoc. reflexivity.
    + apply Nat.eqb_neq in Hmod. rewrite (Hnon Hmod), Hold, app_nil_r. reflexivity.
Qed.

End StreamFacts.

(** X12: after any stream of chunks the processor has passed every chunk
    on unchanged and in order, its chunk count is the number of chunks and
    its total size the number of their bytes, and it has reported progress
    once per full hundred of chunks: the k-th report carries [100 * k]
    chunks and the size of the first [100 * k] chunks. *)
Theorem X12_stream_passes_and_counts :
  forall input : list OptimizedStreamProcessor.Chunk,
  let tr := OptimizedStreamProcessor.pipe input in
  OptimizedStreamProcessor.passed tr = input
  /\ OptimizedStreamProcessor.chunkCount (OptimizedStreamProcessor.state tr) = length input
  /\ OptimizedStreamProcessor.totalSize (OptimizedStreamProcessor.state tr)
     = OptimizedStreamProcessor.size_of input
  /\ length (OptimizedStreamProcessor.reports tr) = (length input / 100)%nat
  /\ (forall k : nat,
        (k < length input / 100)%nat ->
        nth_error (OptimizedStreamProcessor.reports tr) k
        = Some (OptimizedStreamProcessor.mkProgress (100 * S k)
                  (OptimizedStreamProcessor.size_of (firstn (100 * S k) input)))).
Proof.
  intros input tr. subst tr.
  destruct (StreamFacts.pipe_trace input) as (Hp & Hc & Hs & Hr).
  split; [exact Hp|]. split; [exact Hc|]. split; [exact Hs|].
  rewrite Hr. split.
  - rewrite length_map, length_seq. reflexivity.
  - intros k Hk.
    rewrite nth_error_map, nth_error_seq.
    apply Nat.ltb_lt in Hk. rewrite Hk. reflexivity.
Qed.

(** ** Object utilities *)

Module ObjectFacts.

Import MetadataCache ObjectUtils.

Section WithValue.

Variable V : Type.

Implicit Types (o t s : Obj V) (k : string).

Lemma map_get_app k (a b : JsMap V) :
  map_get k (a ++ b)
  = match map_get k a with
    | Some v => Some v
    | None => map_get k b
    end.
Proof.
  unfold map_get. induction a as [|[k0 v0] a IH]; simpl; [reflexivity|].
  destruct (String.eqb k0 k); [reflexivity|exact IH].
Qed.

Lemma map_get_absent k (m : JsMap V) : ~ In k (map fst m) -> map_get k m = None.
Proof.
  intros H. apply CacheLookups.map_get_None.
  destruct (map_has k m) eqn:Hh; [|reflexivity].
  apply CacheFacts.map_has_In in Hh. contradiction.
Qed.

Lemma map_get_rev k o : well_formed o -> map_get k (rev o) = map_get k o.
Proof.
  unfold well_formed. induction o as [|[k0 v0] o IH]; intros Hn; [reflexivity|].
  simpl in Hn. inversion Hn as [|? ? Hnot Hn']; subst.
  simpl rev. rewrite map_get_app, (IH Hn').
  unfold map_get at 2 3. simpl.
  destruct (String.eqb k0 k) eqn:Hk.
  - apply String.eqb_eq in Hk. subst k0. rewrite (map_get_absent k o Hnot). reflexivity.
  - fold (map_get k o). destruct (map_get k o); reflexivity.
Qed.

Lemma assign_get k t s :
  map_get k (assign t s)
  = match map_get k (rev s) with
    | Some v => Some v
    | None => map_get k t
    end.
Proof.
  unfold assign. revert t. induction s as [|[k0 v0] s IH]; intros t; [reflexivity|].
  simpl fold_left. rewrite IH. simpl rev. rewrite map_get_app.
  destruct (map_get k (rev s)); [reflexivity|].
  rewrite CacheLookups.map_get_set. unfold map_get at 2. simpl.
  destruct (String.eqb k0 k); reflexivity.
Qed.

Lemma first_defined_app k (a b : list (Obj V)) :
  first_defined k (a ++ b)
  = match first_defined k a with
    | Some v => Some v
    | None => first_defined k b
    end.
Proof.
  induction a as [|o a IH]; simpl; [reflexivity|].
  destruct (map_get k o); [reflexivity|exact IH].
Qed.

Lemma assign_all_get k (objs : list (Obj V)) : forall acc : Obj V,
  Forall well_formed objs ->
  map_get k (fold_left assign objs acc)
  = match first_defined k (rev objs) with
    | Some v => Some v
    | None => map_get k acc
    end.
Proof.
  induction objs as [|o objs IH]; intros acc Hwf; [reflexivity|].
  inversion Hwf as [|? ? Ho Hrest]; subst.
  simpl fold_left. rewrite (IH _ Hrest). simpl rev. rewrite first_defined_app.
  destruct (first_defined k (rev objs)); [reflexivity|].
  rewrite assign_get, (map_get_rev k o Ho). simpl.
  destruct (map_get k o); reflexivity.
Qed.

Lemma delete_all_get k (keys : list string) : forall o : Obj V,
  map_get k (fold_left (fun result key => map_delete key result) keys o)
  = if existsb (String.eqb k) keys then None else map_get k o.
Proof.
  induction keys as [|key keys IH]; intros o; [reflexivity|].
  simpl fold_left. rewrite IH, CacheLookups.map_get_delete. simpl existsb.
  rewrite (String.eqb_sym k key).
  destruct (String.eqb key k); simpl; [destruct (existsb _ keys); reflexivity|reflexivity].
Qed.

End WithValue.

End ObjectFacts.

(** X13: for objects that hold each key once, a property of the result of
    [defaults(target, ...sources)] is the property of the first of
    [target], then the sources in the order given, that has the key; a key
    none of them has is absent from the result. *)
Theorem X13_defaults_first_wins :
  forall (V : Type) (target : ObjectUtils.Obj V) (sources : list (ObjectUtils.Obj V))
         (k : string),
  ObjectUtils.well_formed target ->
  Forall ObjectUtils.well_formed sources ->
  MetadataCache.map_get k (ObjectUtils.defaults target sources)
  = ObjectUtils.first_defined k (target :: sources).
Proof.
  intros V target sources k Ht Hs. unfold ObjectUtils.defaults.
  rewrite ObjectFacts.assign_all_get.
  - rewrite rev_app_distr, rev_involutive. simpl.
    destruct (MetadataCache.map_get k target); [reflexivity|].
    destruct (ObjectUtils.first_defined k sources); reflexivity.
  - apply Forall_app. split; [apply Forall_rev, Hs | constructor; [exact Ht|constructor]].
Qed.

Lemma X13_defaults_first_wins_witness :
  ObjectUtils.well_formed [("crf"%string, 20); ("preset"%string, 1)]
  /\ MetadataCache.map_get "crf"
       (ObjectUtils.defaults [("crf"%string, 20); ("preset"%string, 1)]
          [[("crf"%string, 23)]; [("crf"%string, 28); ("tune"%string, 2)]])
     = ObjectUtils.first_defined "crf"
         ([("crf"%string, 20); ("preset"%string, 1)]
          :: [[("crf"%string, 23)]; [("crf"%string, 28); ("tune"%string, 2)]]).
Proof.
  assert (H1 : ObjectUtils.well_formed [("crf"%string, 20); ("preset"%string, 1)]).
  { unfold ObjectUtils.well_formed. simpl. repeat constructor; simpl.
    - intros [H|[]]. discriminate.
    - intros []. }
  split; [exact H1|].
  apply (X13_defaults_first_wins Z); [exact H1|].
  repeat constructor; unfold ObjectUtils.well_formed; simpl;
    repeat constructor; simpl; intuition discriminate.
Defined.

(** X14: for an object that holds each key once, [removeFromObject(obj,
    keys)] returns an object in which every listed key is absent and every
    other key holds the value it holds in [obj]. *)
Theorem X14_removeFromObject_lookup :
  forall (V : Type) (obj : ObjectUtils.Obj V) (keys : list string) (k : string),
  ObjectUtils.well_formed obj ->
  MetadataCache.map_get k (ObjectUtils.removeFromObject obj keys)
  = if existsb (String.eqb k) keys then None else MetadataCache.map_get k obj.
Proof.
  intros V obj keys k Hwf. unfold ObjectUtils.removeFromObject.
  rewrite ObjectFacts.delete_all_get, ObjectFacts.assign_get.
  rewrite (ObjectFacts.map_get_rev V k obj Hwf).
  destruct (existsb (String.eqb k) keys); [reflexivity|].
  destruct (MetadataCache.map_get k obj); reflexivity.
Qed.

Lemma X14_removeFromObject_lookup_witness :
  ObjectUtils.well_formed [("a"%string, 1); ("b"%string, 2)]
  /\ MetadataCache.map_get "a"
       (ObjectUtils.removeFromObject [("a"%string, 1); ("b"%string, 2)] ["a"%string])
     = None.
Proof.
  assert (H1 : ObjectUtils.well_formed [("a"%string, 1); ("b"%string, 2)]).
  { unfold ObjectUtils.well_formed. simpl. repeat constructor; simpl.
    - intros [H|[]]. discriminate.
    - intros []. }
  split; [exact H1|].
  apply (X14_removeFromObject_lookup Z [("a"%string, 1); ("b"%string, 2)] ["a"%string]
           "a"%string H1).
Defined.

(** ** The hardware probe *)

Lemma tag_count_app (tag : string) (a b : list string) :
  tag_count tag (a ++ b) = (tag_count tag a + tag_count tag b)%nat.
Proof. unfold tag_count. rewrite filter_app, length_app. reflexivity. Qed.

Lemma tag_count_one (tag other : string) :
  tag_count tag [other] = if String.eqb tag other then 1%nat else 0%nat.
Proof. unfold tag_count. simpl. destruct (String.eqb tag other); reflexivity. Qed.

Lemma detect_gpu_probed (hw : HWAccel) (gpu : Gpu) : probed hw -> probed (detect_gpu hw gpu).
Proof.
  unfold probed, detect_gpu. intros [Hflag Htags].
  destruct (String.eqb (AdapterCompatibility gpu) "NVIDIA");
    destruct (String.eqb (AdapterCompatibility gpu) "Intel Corporation"); simpl.
  - split.
    + split; [intros _ | reflexivity].
      destruct (supportedHWAccel hw); discriminate.
    + repeat (apply Forall_app; split); auto; repeat constructor; auto.
  - split.
    + split; [intros _ | reflexivity].
      destruct (supportedHWAccel hw); discriminate.
    + apply Forall_app; split; auto; repeat constructor; auto.
  - split.
    + split; [intros _ | reflexivity].
      destruct (supportedHWAccel hw); discriminate.
    + apply Forall_app; split; auto; repeat constructor; auto.
  - split; assumption.
Qed.

Lemma detect_all_probed (data : list Gpu) : forall hw : HWAccel,
  probed hw -> probed (fold_left detect_gpu data hw).
Proof.
  induction data as [|gpu data IH]; intros hw H; [exact H|].
  simpl. apply IH, detect_gpu_probed, H.
Qed.

Lemma detect_all_counts (data : list Gpu) : forall hw : HWAccel,
  tag_count "nvenc" (supportedHWAccel (fold_left detect_gpu data hw))
  = (tag_count "nvenc" (supportedHWAccel hw) + length (adapters_of "NVIDIA" data))%nat
  /\ tag_count "qsv" (supportedHWAccel (fold_left detect_gpu data hw))
     = (tag_count "qsv" (supportedHWAccel hw)
        + length (adapters_of "Intel Corporation" data))%nat
  /\ tag_count "videotoolbox" (supportedHWAccel (fold_left detect_gpu data hw))
     = tag_count "videotoolbox" (supportedHWAccel hw).
Proof.
  induction data as [|gpu data IH]; intros hw; [simpl; lia|].
  simpl fold_left. destruct (IH (detect_gpu hw gpu)) as (-> & -> & ->).
  unfold detect_gpu, adapters_of. simpl filter.
  destruct (String.eqb (AdapterCompatibility gpu) "NVIDIA") eqn:Hn;
    destruct (String.eqb (AdapterCompatibility gpu) "Intel Corporation") eqn:Hi;
    simpl; rewrite ?tag_count_app, ?tag_count_one; simpl; repeat split; lia.
Qed.

(** X15: run on a fresh instance, the probe sets
    [potentialHWAccelSupport] exactly when it lists a tag, and lists only
    [nvenc], [qsv] and [videotoolbox].  When [gpu-info] fails it changes
    nothing, on macOS too.  On Windows it lists [nvenc] once per NVIDIA
    adapter and [qsv] once per Intel adapter, so two adapters of one
    vendor give the tag twice; on macOS it lists [videotoolbox] alone; on
    any other platform it lists nothing. *)
Theorem X15_probe_tags :
  forall (gpuInfo : option (list Gpu)) (platform : string),
  let hw := detectHardwareAcceleration gpuInfo platform (mkHWAccel false []) in
  (potentialHWAccelSupport hw = true <-> supportedHWAccel hw <> [])
  /\ Forall (fun tag => tag = "nvenc"%string \/ tag = "qsv"%string
                        \/ tag = "videotoolbox"%string) (supportedHWAccel hw)
  /\ (gpuInfo = None -> hw = mkHWAccel false [])
  /\ (forall data, gpuInfo = Some data ->
        (platform = "win32"%string ->
           tag_count "nvenc" (supportedHWAccel hw) = length (adapters_of "NVIDIA" data)
           /\ tag_count "qsv" (supportedHWAccel hw)
              = length (adapters_of "Intel Corporation" data)
           /\ tag_count "videotoolbox" (supportedHWAccel hw) = 0%nat)
        /\ (platform = "darwin"%string ->
              hw = mkHWAccel true ["videotoolbox"%string])
        /\ (platform <> "win32"%string -> platform <> "darwin"%string ->
              hw = mkHWAccel false [])).
Proof.
  intros gpuInfo platform hw.
  assert (H0 : probed (mkHWAccel false [])).
  { unfold probed. simpl. split; [split; [discriminate|intros H; contradiction]|constructor]. }
  assert (Hp : probed hw).
  { subst hw. unfold detectHardwareAcceleration. destruct gpuInfo as [data|]; [|exact H0].
    destruct (String.eqb platform "win32"); [apply detect_all_probed, H0|].
    destruct (String.eqb platform "darwin"); [|exact H0].
    unfold probed. simpl. split; [split; [discriminate|reflexivity]|].
    constructor; [right; right; reflexivity | constructor]. }
  destruct Hp as [Hflag Htags].
  split; [exact Hflag|]. split; [exact Htags|]. split.
  - intros ->. reflexivity.
  - intros data ->. subst hw. unfold detectHardwareAcceleration. split; [|split].
    + intros ->. simpl.
      destruct (detect_all_counts data (mkHWAccel false [])) as (-> & -> & ->).
      repeat split.
    + intros ->. reflexivity.
    + intros Hw Hd. apply String.eqb_neq in Hw, Hd. rewrite Hw, Hd. reflexivity.
Qed.

(** ** The monitor's timer is never armed again *)

Lemma finish_timer_off (now : Z) (w : World) :
  performanceInterval (enc (finish now w)) = false.
Proof.
  unfold finish, cleanup.
  destruct (finish_summary now (enc w));
    destruct (0 <? length (failedVideos (enc w)))%nat; simpl;
    destruct (performanceInterval (enc w)) eqn:Hp; simpl; auto.
Qed.

Lemma exec_timer_off (op : Op) (w : World) :
  performanceInterval (enc w) = false ->
  performanceInterval (enc (exec op w)) = false.
Proof.
  intros H.
  assert (Hloop : forall now w0,
             performanceInterval (enc w0) = false ->
             performanceInterval (enc (snd (processQueue now w0))) = false).
  { intros now w0.
    apply (processQueue_preserves (fun w' => performanceInterval (enc w') = false)).
    - intros w1 v rest _ _ _ _ _ H1. exact H1.
    - intros w1 _ _ _ _ _ _. apply finish_timer_off. }
  destruct op; simpl.
  - destruct access; exact H.
  - unfold start. destruct (running (enc w)); [exact H|]. cbn [snd]. apply Hloop. exact H.
  - apply Hloop, H.
  - unfold processVideo_resolve. destruct (find_activation job (suspended w)); exact H.
  - unfold processVideo_reject.
    destruct (find_activation job (suspended w)); [destruct error|]; exact H.
  - unfold pause. destruct (negb (running (enc w)) || paused (enc w)); [exact H|].
    cbn [snd]. rewrite pause_loop_enc. exact H.
  - unfold pause_settled. destruct (nth_error (pausing w) call); [|exact H].
    destruct result; [rewrite pause_loop_enc|]; exact H.
  - destruct (resume_shape now has_resume w) as (w0 & _ & He & [-> | ->]);
      [|apply Hloop]; destruct He as [-> | ->]; exact H.
  - destruct (resume_settled_shape call result now has_resume w)
      as (w0 & _ & He & [-> | ->]);
      [|apply Hloop]; rewrite He; exact H.
  - unfold stop_begin. destruct (negb (running (enc w))); exact H.
  - unfold stop_end. destruct (stopsPending w); [exact H|].
    unfold cleanup. simpl. rewrite H. exact H.
  - unfold monitor. rewrite H. exact H.
Qed.

Lemma run_timer_off (ops : list Op) (w : World) :
  performanceInterval (enc w) = false ->
  performanceInterval (enc (run ops w)) = false
  /\ maxConcurrentJobs (enc (run ops w)) = maxConcurrentJobs (enc w).
Proof.
  intros H. induction ops as [|op ops [IH1 IH2]] using rev_ind; [auto|].
  rewrite run_snoc. split; [apply exec_timer_off, IH1|].
  rewrite exec_limit. destruct op; try exact IH2.
  unfold monitor. rewrite IH1. exact IH2.
Qed.

(** X20: [finish] and the end of [stop()] clear the monitor's timer, and
    nothing arms it again, not even a later [start()]: from a world whose
    timer is cleared, in every run the timer stays cleared, a firing of the
    monitor changes nothing, and the concurrency limit keeps its value. *)
Theorem X20_monitor_stays_off :
  forall (ops : list Op) (now heap1 heap2 : Z) (w : World),
  performanceInterval (enc (finish now w)) = false
  /\ (stopsPending w <> 0%nat -> performanceInterval (enc (stop_end w)) = false)
  /\ (performanceInterval (enc w) = false ->
      performanceInterval (enc (run ops w)) = false
      /\ monitor heap1 heap2 (run ops w) = run ops w
      /\ maxConcurrentJobs (enc (run ops w)) = maxConcurrentJobs (enc w)).
Proof.
  intros ops now heap1 heap2 w. split; [|split].
  - apply finish_timer_off.
  - intros Hs. unfold stop_end. destruct (stopsPending w); [contradiction|].
    unfold cleanup. simpl. destruct (performanceInterval (enc w)) eqn:Hp; simpl; auto.
  - intros H. destruct (run_timer_off ops w H) as [H1 H2].
    split; [exact H1|]. split; [|exact H2].
    unfold monitor. rewrite H1. reflexivity.
Qed.

